(** * hot-search-scraper: the normalise-and-upsert pipeline and its query layer

    A shallow embedding of [storage.py] (class [HotItemsHistoryDB]), of the
    table declared in [init_db.py], of the weibo adapter's helpers
    ([scraper/weibo.py]: the heat parser, [_safe_q], [parse_items]) and of
    the scrape cycle of [main.py], followed by the properties the
    specification states about them and further properties of the code.

    Conventions.
    - A Python [str] is a list of Unicode code points ([pystr]).
    - Loosely typed values ([Any]) are the JSON-shaped values the adapters
      hand over ([PyVal]): None, booleans, numbers, strings, lists, dicts,
      and tuples. Other objects (bytes among them) are outside the
      development.
    - What the engine leaves to its build or to its query plan is a
      parameter ([Engine]); every statement holds for each engine.
    - A Python call that can raise returns [Result]; [try_except] is
      [try: ... except Exception: ...].
    - A database connection is a pair of tables: what is committed
      ([durable]) and what the connection currently sees ([view]). *)

From Stdlib Require Import ZArith NArith List Lia Bool Ascii String DecimalString.
From stdpp Require Import base gmap list sorting.

Set Default Proof Using "Type".
Local Open Scope Z_scope.

(* ===================================================================== *)
(** * Python strings                                                      *)
(* ===================================================================== *)

Definition pystr := list N.

(** An ASCII literal as a Python string. *)
Definition lit (s : string) : pystr := map N_of_ascii (list_ascii_of_string s).
Arguments lit s%_string.

(** [str.isspace] for one code point; the same class is [\s] in [re] and
    what [str.strip] removes. *)
Definition py_isspace (c : N) : bool :=
  ((9 <=? c) && (c <=? 13) || (28 <=? c) && (c <=? 32)
   || (c =? 133) || (c =? 160) || (c =? 5760)
   || (8192 <=? c) && (c <=? 8202)
   || (c =? 8232) || (c =? 8233) || (c =? 8239) || (c =? 8287)
   || (c =? 12288))%N.

(** The code points of the digit zero of every decimal-digit block
    (category Nd, Unicode 14); each block is ten consecutive code points. *)
Definition decimal_zeros : list N :=
  [48; 1632; 1776; 1984; 2406; 2534; 2662; 2790; 2918; 3046; 3174; 3302;
   3430; 3558; 3664; 3792; 3872; 4160; 4240; 6112; 6160; 6470; 6608; 6784;
   6800; 6992; 7088; 7232; 7248; 42528; 43216; 43264; 43472; 43504; 43600;
   44016; 65296; 66720; 68912; 69734; 69872; 69942; 70096; 70384; 70736;
   70864; 71248; 71360; 71472; 71904; 72016; 72784; 73040; 73120; 92768;
   92864; 93008; 120782; 120792; 120802; 120812; 120822; 123200; 123632;
   125264; 130032]%N.

Fixpoint decimal_in (zs : list N) (c : N) : option N :=
  match zs with
  | [] => None
  | z :: zs' => if ((z <=? c) && (c <? z + 10))%N then Some (c - z)%N
                else decimal_in zs' c
  end.

(** The decimal value of a code point, if it is a decimal digit ([\d]). *)
Definition py_decimal (c : N) : option N := decimal_in decimal_zeros c.

Definition is_decimal (c : N) : bool :=
  match py_decimal c with Some _ => true | None => false end.

Fixpoint drop_while {A} (p : A -> bool) (l : list A) : list A :=
  match l with
  | [] => []
  | x :: l' => if p x then drop_while p l' else l
  end.

Fixpoint take_while {A} (p : A -> bool) (l : list A) : list A :=
  match l with
  | [] => []
  | x :: l' => if p x then x :: take_while p l' else []
  end.

(** [s.strip()] *)
Definition py_strip (s : pystr) : pystr :=
  rev (drop_while py_isspace (rev (drop_while py_isspace s))).

(** [s.split(" ")[0]]: the prefix before the first U+0020. *)
Definition split_space_head (s : pystr) : pystr :=
  take_while (fun c => negb (c =? 32)%N) s.

(** ["|".join(parts)] *)
Fixpoint join_bar (parts : list pystr) : pystr :=
  match parts with
  | [] => []
  | [p] => p
  | p :: rest => p ++ 124%N :: join_bar rest
  end.

(** Decimal rendering of an integer, as [str(n)] and as the engine renders
    an integer stored in a TEXT column. *)
Definition decimal_text (z : Z) : pystr := lit (NilZero.string_of_int (Z.to_int z)).

(** Code-point order on strings; on valid text this is the order of the
    engine's BINARY collation. *)
Fixpoint str_compare (a b : pystr) : comparison :=
  match a, b with
  | [], [] => Eq
  | [], _ :: _ => Lt
  | _ :: _, [] => Gt
  | x :: a', y :: b' =>
      match (x ?= y)%N with
      | Eq => str_compare a' b'
      | c => c
      end
  end.

Definition str_leb (a b : pystr) : bool :=
  match str_compare a b with Gt => false | _ => true end.

Definition str_eqb (a b : pystr) : bool :=
  match str_compare a b with Eq => true | _ => false end.

(* ===================================================================== *)
(** * Exceptions                                                          *)
(* ===================================================================== *)

(** The exceptions met here. [UnicodeEncodeError] is a [ValueError];
    [ProgrammingError], [OperationalError] and [DataError] are sqlite3's. *)
Inductive PyExc :=
| TypeError | ValueError | OverflowError | AttributeError
| ProgrammingError | OperationalError | DataError.

Inductive Result (A : Type) :=
| Ok (a : A)
| Raise (e : PyExc).
Arguments Ok {A} a.
Arguments Raise {A} e.

Definition rbind {A B} (r : Result A) (k : A -> Result B) : Result B :=
  match r with
  | Ok a => k a
  | Raise e => Raise e
  end.

(** [try: body  except Exception: handler] *)
Definition try_except {A} (body : Result A) (handler : Result A) : Result A :=
  match body with
  | Ok a => Ok a
  | Raise _ => handler
  end.

Declare Scope py_scope.
Delimit Scope py_scope with py.
Notation "x <- c1 ;; c2" := (rbind c1 (fun x => c2))
  (at level 100, c1 at next level, right associativity) : py_scope.

Local Open Scope py_scope.

(** The UTF-8 bytes of one code point; a surrogate cannot be encoded
    (UnicodeEncodeError, a ValueError). *)
Definition utf8_encode_char (c : N) : Result (list N) :=
  (if c <? 128 then Ok [c]
   else if c <? 2048 then Ok [192 + c / 64; 128 + c mod 64]
   else if (55296 <=? c) && (c <=? 57343) then Raise ValueError
   else if c <? 65536
        then Ok [224 + c / 4096; 128 + (c / 64) mod 64; 128 + c mod 64]
   else if c <? 1114112
        then Ok [240 + c / 262144; 128 + (c / 4096) mod 64;
                 128 + (c / 64) mod 64; 128 + c mod 64]
   else Raise ValueError)%N.

(** [s.encode("utf-8")] *)
Fixpoint str_encode_utf8 (s : pystr) : Result (list N) :=
  match s with
  | [] => Ok []
  | c :: s' =>
      bs <- utf8_encode_char c ;;
      rest <- str_encode_utf8 s' ;;
      Ok (bs ++ rest)
  end.

(** The number of bytes of [s] in UTF-8. No string here holds a surrogate
    when this is asked. *)
Definition utf8_width (c : N) : N :=
  (if c <? 128 then 1 else if c <? 2048 then 2 else if c <? 65536 then 3 else 4)%N.

Definition utf8_length (s : pystr) : N :=
  fold_right (fun c n => utf8_width c + n)%N 0%N s.

Definition raises {A} (r : Result A) : Prop := exists e, r = Raise e.
Definition returns {A} (r : Result A) (a : A) : Prop := r = Ok a.

(* ===================================================================== *)
(** * Binary floating point                                               *)
(* ===================================================================== *)

(** A Python [float] (IEEE binary64): not-a-number, an infinity, or the
    finite value [(-1)^neg * m * 2^e]. *)
Inductive PyFloat :=
| FNan
| FInf (neg : bool)
| FFin (neg : bool) (m : N) (e : Z).

(** Round the non-negative rational [n / d] to the nearest binary64 value,
    ties to even: 53-bit significand, least exponent -1074, overflow to
    infinity at 2^1024. *)
Definition round64 (neg : bool) (n d : Z) : PyFloat :=
  if n =? 0 then FFin neg 0 0
  else
    let l := Z.log2 n - Z.log2 d in
    let ge := if 0 <=? l then d * 2 ^ l <=? n else d <=? n * 2 ^ (- l) in
    let L := if ge then l else l - 1 in
    let e := Z.max (L - 52) (-1074) in
    let num := if 0 <=? e then n else n * 2 ^ (- e) in
    let den := if 0 <=? e then d * 2 ^ e else d in
    let q := num / den in
    let r := num mod den in
    let q' := match (2 * r ?= den) with
              | Lt => q
              | Gt => q + 1
              | Eq => if Z.even q then q else q + 1
              end in
    if 2 ^ 1024 <=? q' * 2 ^ e then FInf neg else FFin neg (Z.to_N q') e.

(** [float(n)] for an integer rounds; an integer too large for a float
    raises. *)
Definition float_of_Z (z : Z) : Result PyFloat :=
  match round64 (z <? 0) (Z.abs z) 1 with
  | FInf _ => Raise OverflowError
  | f => Ok f
  end.

Definition is_zero_float (f : PyFloat) : bool :=
  match f with FFin _ 0%N _ => true | _ => false end.

(** Floating-point product, correctly rounded. *)
Definition float_mul (a b : PyFloat) : PyFloat :=
  match a, b with
  | FNan, _ | _, FNan => FNan
  | FInf s, FInf t => FInf (xorb s t)
  | FInf s, FFin t m _ | FFin t m _, FInf s =>
      if (m =? 0)%N then FNan else FInf (xorb s t)
  | FFin s m e, FFin t m' e' =>
      let p := Z.of_N m * Z.of_N m' in
      let x := e + e' in
      if 0 <=? x then round64 (xorb s t) (p * 2 ^ x) 1
      else round64 (xorb s t) p (2 ^ (- x))
  end.

(** [int(f)]: truncation toward zero; infinities and NaN raise. *)
Definition int_of_float (f : PyFloat) : Result Z :=
  match f with
  | FNan => Raise ValueError
  | FInf _ => Raise OverflowError
  | FFin neg m e =>
      let a := if 0 <=? e then Z.of_N m * 2 ^ e else Z.of_N m / 2 ^ (- e) in
      Ok (if neg then - a else a)
  end.

(* ===================================================================== *)
(** * Numeric literals: [int(str)] and [float(str)]                       *)
(* ===================================================================== *)

(** C [isspace] on the ASCII form. *)
Definition c_isspace (c : N) : bool :=
  ((c =? 32) || (9 <=? c) && (c <=? 13))%N.

(** Before parsing a number the interpreter maps every non-ASCII space to
    U+0020 and every non-ASCII decimal digit to its ASCII digit; any other
    non-ASCII code point becomes a character no literal accepts. ASCII code
    points stay as they are. *)
Definition to_ascii_form (s : pystr) : list N :=
  map (fun c =>
         if (c <? 128)%N then c
         else if py_isspace c then 32%N
         else match py_decimal c with
              | Some d => (48 + d)%N
              | None => 63%N
              end) s.

Definition ascii_digit (c : N) : option Z :=
  if ((48 <=? c) && (c <=? 57))%N then Some (Z.of_N (c - 48)) else None.

Definition is_ascii_digit (c : N) : bool :=
  match ascii_digit c with Some _ => true | None => false end.

(** Reads the longest run of digits in which single underscores may stand
    between two digits; returns the digits and what follows. *)
Fixpoint scan_digits (after_digit : bool) (s : list N) : list Z * list N :=
  match s with
  | [] => ([], [])
  | c :: s' =>
      match ascii_digit c with
      | Some d => let '(ds, r) := scan_digits true s' in (d :: ds, r)
      | None =>
          if (c =? 95)%N && after_digit
             && match s' with c2 :: _ => is_ascii_digit c2 | [] => false end
          then scan_digits false s'
          else ([], s)
      end
  end.

Definition digits_value (ds : list Z) : Z :=
  fold_left (fun acc d => acc * 10 + d) ds 0.

Definition parse_sign (s : list N) : bool * list N :=
  match s with
  | 45%N :: r => (true, r)
  | 43%N :: r => (false, r)
  | _ => (false, s)
  end.

Definition is_nil {A} (l : list A) : bool :=
  match l with [] => true | _ => false end.

(** The interpreter's default limit on the number of digits of an integer
    literal handed to [int]. *)
Definition int_max_str_digits : nat := 4300.

(** [int(s)] for a string, base ten. *)
Definition py_int_of_str (s : pystr) : Result Z :=
  let a := drop_while c_isspace (to_ascii_form s) in
  let '(neg, a1) := parse_sign a in
  let '(ds, rest) := scan_digits false a1 in
  if is_nil ds then Raise ValueError
  else if negb (is_nil (drop_while c_isspace rest)) then Raise ValueError
  else if (int_max_str_digits <? length ds)%nat then Raise ValueError
  else Ok (if neg then - digits_value ds else digits_value ds).

Definition ascii_lower (c : N) : N :=
  if ((65 <=? c) && (c <=? 90))%N then (c + 32)%N else c.

Definition N_list_eqb (a b : list N) : bool :=
  match str_compare a b with Eq => true | _ => false end.

(** The exponent part of a decimal literal: [e], optional sign, digits. *)
Definition parse_exponent (s : list N) : option (Z * list N) :=
  match s with
  | c :: r =>
      if ((c =? 101) || (c =? 69))%N then
        let '(eneg, r1) := parse_sign r in
        let '(eds, r2) := scan_digits false r1 in
        if is_nil eds then None
        else Some (if eneg then - digits_value eds else digits_value eds, r2)
      else Some (0, s)
  | [] => Some (0, [])
  end.

(** [float(s)] for a string: surrounding white space, a sign, then
    [inf], [infinity], [nan] in any case, or a decimal literal with an
    optional fraction and exponent; the value is rounded to the nearest
    float. *)
Definition py_float_of_str (s : pystr) : Result PyFloat :=
  let a := rev (drop_while c_isspace
                  (rev (drop_while c_isspace (to_ascii_form s)))) in
  let '(neg, a1) := parse_sign a in
  let low := map ascii_lower a1 in
  if N_list_eqb low (lit "inf") || N_list_eqb low (lit "infinity")
  then Ok (FInf neg)
  else if N_list_eqb low (lit "nan") then Ok FNan
  else
    let '(ip, r1) := scan_digits false a1 in
    let '(fp, r2) := match r1 with
                     | 46%N :: r => scan_digits false r
                     | _ => ([], r1)
                     end in
    if is_nil ip && is_nil fp then Raise ValueError
    else
      match parse_exponent r2 with
      | None => Raise ValueError
      | Some (ex, r3) =>
          if negb (is_nil r3) then Raise ValueError
          else
            let mant := digits_value (ip ++ fp) in
            let e10 := ex - Z.of_nat (length fp) in
            Ok (if 0 <=? e10 then round64 neg (mant * 10 ^ e10) 1
                else round64 neg mant (10 ^ (- e10)))
      end.

(* ===================================================================== *)
(** * Loosely typed values                                                *)
(* ===================================================================== *)

(** The values a raw item carries: what a decoded JSON payload holds, and
    tuples. These are the values the adapters produce; an object of another
    type (bytes, which also has [strip], a datetime, ...) is not among
    them, and nothing is stated here about items that hold one. *)
#[warnings="-register-all"]
Inductive PyVal :=
| PNone
| PBool (b : bool)
| PInt (z : Z)
| PFloat (f : PyFloat)
| PStr (s : pystr)
| PList (l : list PyVal)
| PTuple (l : list PyVal)
| PDict (kv : list (pystr * PyVal)).

(** Truth value, as [or], [if] and [not] take it. *)
Definition truthy (v : PyVal) : bool :=
  match v with
  | PNone => false
  | PBool b => b
  | PInt z => negb (z =? 0)
  | PFloat f => negb (is_zero_float f)
  | PStr s => negb (is_nil s)
  | PList l | PTuple l => negb (is_nil l)
  | PDict kv => negb (is_nil kv)
  end.

(** [a or b] *)
Definition py_or (a b : PyVal) : PyVal := if truthy a then a else b.

(** [x is None] *)
Definition is_none (v : PyVal) : bool :=
  match v with PNone => true | _ => false end.

(** [x == ""] *)
Definition eq_empty_str (v : PyVal) : bool :=
  match v with PStr [] => true | _ => false end.

(** [int(x)] *)
Definition py_int (x : PyVal) : Result Z :=
  match x with
  | PInt z => Ok z
  | PBool b => Ok (if b then 1 else 0)
  | PFloat f => int_of_float f
  | PStr s => py_int_of_str s
  | PNone | PList _ | PTuple _ | PDict _ => Raise TypeError
  end.

(** [float(x)] *)
Definition py_float (x : PyVal) : Result PyFloat :=
  match x with
  | PFloat f => Ok f
  | PInt z => float_of_Z z
  | PBool b => Ok (if b then FFin false 1 0 else FFin false 0 0)
  | PStr s => py_float_of_str s
  | PNone | PList _ | PTuple _ | PDict _ => Raise TypeError
  end.

(** [x.strip()]: only strings have the method. *)
Definition strip_method (x : PyVal) : Result pystr :=
  match x with
  | PStr s => Ok (py_strip s)
  | _ => Raise AttributeError
  end.

(** What the interpreter and the engine do and this development takes as
    given: [str()] of a float or a container, [json.dumps(_,
    ensure_ascii=False)] of a mapping, and the text the engine stores when a
    float is written to a TEXT column (nothing, i.e. NULL, for NaN). *)
Class Runtime := {
  repr_other : PyVal -> pystr;
  json_dumps : list (pystr * PyVal) -> pystr;
  sql_real_text : PyFloat -> option pystr;
}.

(** [str(x)] *)
Definition py_str `{Runtime} (x : PyVal) : pystr :=
  match x with
  | PStr s => s
  | PNone => lit "None"
  | PBool b => if b then lit "True" else lit "False"
  | PInt z => decimal_text z
  | _ => repr_other x
  end.

(* ===================================================================== *)
(** * storage.py: helpers                                                 *)
(* ===================================================================== *)

Local Open Scope py_scope.

(** [HotItemsHistoryDB._as_int] *)
Definition _as_int (x : PyVal) : Result (option Z) :=
  if is_none x || eq_empty_str x then Ok None
  else
    try_except (n <- py_int x ;; Ok (Some n))
      (try_except (f <- py_float x ;; n <- py_int (PFloat f) ;; Ok (Some n))
         (Ok None)).

(* ===================================================================== *)
(** * scraper/weibo.py: the heat parser                                   *)
(* ===================================================================== *)

Definition WAN : N := 19975.   (* U+4E07 *)
Definition YI : N := 20159.    (* U+4EBF *)

Definition is_digit_or_dot (c : N) : bool := is_decimal c || (c =? 46)%N.

(** [re.match(r"^\s*([\d\.]+)\s*(万|亿)?\s*$", s)]: the two groups when the
    pattern matches. The classes of the pattern are pairwise disjoint, so
    the match, when there is one, is the greedy left-to-right one. [$] also
    matches before a final newline, which [\s*] has already consumed. *)
Definition heat_regex (s : pystr) : option (pystr * option N) :=
  let s0 := drop_while py_isspace s in
  let g1 := take_while is_digit_or_dot s0 in
  let r1 := drop_while is_digit_or_dot s0 in
  if is_nil g1 then None
  else
    let r2 := drop_while py_isspace r1 in
    let '(unit, r3) :=
      match r2 with
      | c :: r => if ((c =? WAN) || (c =? YI))%N then (Some c, r) else (None, r2)
      | [] => (None, [])
      end in
    if is_nil (drop_while py_isspace r3) then Some (g1, unit) else None.

(** [WeiboHotSpider._parse_heat_value] *)
Definition _parse_heat_value `{Runtime} (num : PyVal) : Result (option Z) :=
  if is_none num then Ok None
  else
    let s := py_strip (py_str num) in
    if is_nil s then Ok None
    else
      match heat_regex s with
      | None =>
          try_except (f <- py_float (PStr s) ;; n <- py_int (PFloat f) ;; Ok (Some n))
            (Ok None)
      | Some (g1, unit) =>
          val <- py_float (PStr g1) ;;
          let val :=
            match unit with
            | Some u =>
                if (u =? WAN)%N then float_mul val (FFin false 10000 0)
                else if (u =? YI)%N then float_mul val (FFin false 100000000 0)
                else val
            | None => val
            end in
          n <- py_int (PFloat val) ;;
          Ok (Some n)
      end.

(** [HotItemsHistoryDB._escape_like]: three single-character replacements,
    one after the other. *)
Definition BACKSLASH : N := 92.
Definition PERCENT : N := 37.
Definition UNDERSCORE : N := 95.

Definition replace_char (c : N) (by_ : pystr) (s : pystr) : pystr :=
  flat_map (fun x => if (x =? c)%N then by_ else [x]) s.

Definition _escape_like (s : pystr) : pystr :=
  replace_char UNDERSCORE [BACKSLASH; UNDERSCORE]
    (replace_char PERCENT [BACKSLASH; PERCENT]
       (replace_char BACKSLASH [BACKSLASH; BACKSLASH] s)).

(* ===================================================================== *)
(** * init_db.py: the table [hot_items_history]                           *)
(* ===================================================================== *)

(** The thirteen columns an INSERT supplies. TEXT columns hold text or
    NULL (the engine renders a number written to a TEXT column as text),
    INTEGER columns an integer or NULL; the NOT NULL columns are plain. *)
Record Cols := {
  platform : pystr;
  topic_key : option pystr;
  title : pystr;
  url : pystr;
  image_url : option pystr;
  excerpt : option pystr;
  heat_text : option pystr;
  heat_value : option Z;
  rank : option Z;
  tags_text : option pystr;
  scraped_at : pystr;
  scraped_date : pystr;
  extra_json : option pystr;
}.

(** A stored row: the surrogate key and the columns. *)
Record Row := { id : Z; cols : Cols }.

(** The table, in rowid order, with the AUTOINCREMENT counter (the largest
    rowid handed out so far). *)
Record Table := { rows : list Row; seq : Z }.

Definition empty_table : Table := {| rows := []; seq := 0 |}.

(** The columns of [UNIQUE(platform, url, scraped_date)]. *)
Definition key_of (c : Cols) : pystr * pystr * pystr :=
  (platform c, url c, scraped_date c).

Definition row_key (r : Row) : pystr * pystr * pystr := key_of (cols r).

(** [DO UPDATE SET topic_key=excluded.topic_key, ..., extra_json=
    excluded.extra_json]: the ten assignments; [id], [platform], [url] and
    [scraped_date] are not assigned. *)
Definition do_update_set (old : Row) (excluded : Cols) : Row :=
  {| id := id old;
     cols := {| platform := platform (cols old);
                topic_key := topic_key excluded;
                title := title excluded;
                url := url (cols old);
                image_url := image_url excluded;
                excerpt := excerpt excluded;
                heat_text := heat_text excluded;
                heat_value := heat_value excluded;
                rank := rank excluded;
                tags_text := tags_text excluded;
                scraped_at := scraped_at excluded;
                scraped_date := scraped_date (cols old);
                extra_json := extra_json excluded |} |}.

(** The row that conflicts with [excluded] on the unique key, updated where
    it stands; [None] when no row conflicts. *)
Fixpoint update_conflict (excluded : Cols) (l : list Row) : option (list Row) :=
  match l with
  | [] => None
  | r :: l' =>
      if decide (row_key r = key_of excluded)
      then Some (do_update_set r excluded :: l')
      else match update_conflict excluded l' with
           | Some l'' => Some (r :: l'')
           | None => None
           end
  end.

(** One execution of [INSERT ... ON CONFLICT(platform, url, scraped_date)
    DO UPDATE SET ...]. The upsert clause takes the place of the
    constraint's own REPLACE. The engine draws the next rowid before it
    looks for a conflict, so the counter advances in both cases. Running out
    of rowids is not modelled. *)
Definition exec_upsert (t : Table) (excluded : Cols) : Table :=
  let new_id := seq t + 1 in
  match update_conflict excluded (rows t) with
  | Some rs => {| rows := rs; seq := new_id |}
  | None => {| rows := rows t ++ [{| id := new_id; cols := excluded |}];
               seq := new_id |}
  end.

(** A connection: the committed table and the table as the connection sees
    it, with the writes of its open transaction. *)
Record Conn := { durable : Table; view : Table }.

Definition fresh_conn : Conn := {| durable := empty_table; view := empty_table |}.

(** [conn.commit()] *)
Definition commit (c : Conn) : Conn := {| durable := view c; view := view c |}.

(** [conn.close()] with a transaction open: its writes are dropped. *)
Definition close (c : Conn) : Conn := {| durable := durable c; view := durable c |}.

(* ===================================================================== *)
(** * The engine                                                          *)
(* ===================================================================== *)

(** The filter arguments shared by [count_history] and [query_history]. An
    argument that is [None] or empty adds no condition. *)
Record Filter := {
  keyword : option pystr;
  platforms : option (list pystr);
  date_from : option pystr;
  date_to : option pystr;
}.

Definition no_filter : Filter :=
  {| keyword := None; platforms := None; date_from := None; date_to := None |}.

(** The columns a search can be ordered by. *)
Inductive OrderCol := ByScrapedAt | ByScrapedDate | ByHeatValue | ByRank | ById.

Definition INT_MAX : N := 2147483647.
Definition SQLITE_MAX_LENGTH : N := 1000000000.
Definition SQLITE_MAX_LIKE_PATTERN_LENGTH : N := 50000.
Definition RECORD_OVERHEAD : N := 200.

(** The bytes of the text of a record. *)
Definition text_bytes (o : option pystr) : N :=
  match o with Some s => utf8_length s | None => 0 end.

Definition cols_bytes (c : Cols) : N :=
  (utf8_length (platform c) + text_bytes (topic_key c) + utf8_length (title c)
   + utf8_length (url c) + text_bytes (image_url c) + text_bytes (excerpt c)
   + text_bytes (heat_text c) + text_bytes (tags_text c)
   + utf8_length (scraped_at c) + utf8_length (scraped_date c)
   + text_bytes (extra_json c))%N.

(** What the engine decides by its build or by the plan it chooses for a
    statement, and this development takes as given.
    - [max_variables]: the largest number of [?] a statement may have
      (SQLITE_MAX_VARIABLE_NUMBER, set when the engine is built).
    - [row_too_big]: whether a record, once encoded, exceeds the engine's
      length limit of 10^9 bytes. The encoding is not modelled: it adds to
      the bytes of the text a header and the integers, fewer than
      [RECORD_OVERHEAD] bytes in all.
    - [index_skips]: the rows a search passes over through an index on
      scraped_date without evaluating its WHERE clause on them. Only a row
      outside the date bounds is ever passed over.
    - [arrange]: the order in which the rows that satisfy the WHERE clause
      reach the sorter (table order, or the order of the index the plan
      walks). It decides the order of rows with equal sort keys, which the
      engine leaves open, and nothing else. *)
Class Engine := {
  engine_runtime :: Runtime;
  max_variables : N;
  row_too_big : Cols -> bool;
  row_fits : forall c,
    (cols_bytes c + RECORD_OVERHEAD <= SQLITE_MAX_LENGTH)%N -> row_too_big c = false;
  row_exceeds : forall c,
    (SQLITE_MAX_LENGTH < cols_bytes c)%N -> row_too_big c = true;
  index_skips : Filter -> option (OrderCol * bool) -> Table -> Row -> bool;
  arrange : Filter -> OrderCol -> bool -> list Row -> list Row;
  arrange_perm : forall f col desc l, arrange f col desc l ≡ₚ l;
}.


(* ===================================================================== *)
(** * storage.py: the write path                                          *)
(* ===================================================================== *)

(** The tuple [upsert_history] appends to [rows]. *)
Record Params := {
  p_platform : pystr;
  p_topic_key : PyVal;
  p_title : pystr;
  p_url : pystr;
  p_image_url : PyVal;
  p_excerpt : PyVal;
  p_heat_text : PyVal;
  p_heat_value : option Z;
  p_rank : option Z;
  p_tags_text : option pystr;
  p_scraped_at : pystr;
  p_scraped_date : pystr;
  p_extra_json : option pystr;
}.

Definition in_int64 (z : Z) : bool := (- 2 ^ 63 <=? z) && (z <? 2 ^ 63).

(** Binding a [str]: the driver encodes it in UTF-8, which fails on a
    surrogate (UnicodeEncodeError), refuses more than INT_MAX bytes, and the
    engine refuses more bytes than its length limit ("string or blob too
    big"). *)
Definition bind_str (s : pystr) : Result pystr :=
  bs <- str_encode_utf8 s ;;
  let n := N.of_nat (length bs) in
  if (INT_MAX <? n)%N then Raise OverflowError
  else if (SQLITE_MAX_LENGTH <? n)%N then Raise DataError
  else Ok s.

Definition bind_opt_str (o : option pystr) : Result (option pystr) :=
  match o with
  | None => Ok None
  | Some s => s' <- bind_str s ;; Ok (Some s')
  end.

(** Binding one parameter for a TEXT column: the driver accepts None, str,
    int (64-bit), float and bool, and raises for anything else. *)
Definition bind_text `{Runtime} (v : PyVal) : Result (option pystr) :=
  match v with
  | PNone => Ok None
  | PStr s => bind_opt_str (Some s)
  | PInt z => if in_int64 z then Ok (Some (decimal_text z)) else Raise OverflowError
  | PBool b => Ok (Some (if b then lit "1" else lit "0"))
  | PFloat f => Ok (sql_real_text f)
  | PList _ | PTuple _ | PDict _ => Raise ProgrammingError
  end.

(** Binding an optional integer for an INTEGER column. *)
Definition bind_int (o : option Z) : Result (option Z) :=
  match o with
  | None => Ok None
  | Some z => if in_int64 z then Ok (Some z) else Raise OverflowError
  end.

(** Binding the thirteen parameters, in order, and the engine's check of
    the record they make. *)
Definition bind_params `{Engine} (p : Params) : Result Cols :=
  pf <- bind_str (p_platform p) ;;
  tk <- bind_text (p_topic_key p) ;;
  ti <- bind_str (p_title p) ;;
  u <- bind_str (p_url p) ;;
  img <- bind_text (p_image_url p) ;;
  exc <- bind_text (p_excerpt p) ;;
  ht <- bind_text (p_heat_text p) ;;
  hv <- bind_int (p_heat_value p) ;;
  rk <- bind_int (p_rank p) ;;
  tg <- bind_opt_str (p_tags_text p) ;;
  sa <- bind_str (p_scraped_at p) ;;
  sd <- bind_str (p_scraped_date p) ;;
  ej <- bind_opt_str (p_extra_json p) ;;
  let record :=
    {| platform := pf; topic_key := tk; title := ti; url := u;
       image_url := img; excerpt := exc; heat_text := ht;
       heat_value := hv; rank := rk; tags_text := tg;
       scraped_at := sa; scraped_date := sd; extra_json := ej |} in
  if row_too_big record then Raise DataError else Ok record.

(** [conn.executemany(sql, rows)]: the statement runs once per tuple, in
    order, inside the connection's open transaction. When a tuple cannot be
    bound or stored the call raises there; what ran before stays in the
    transaction.
    The result is [cur.rowcount]. *)
Fixpoint executemany `{Engine} (ps : list Params) (c : Conn) : Conn * Result Z :=
  match ps with
  | [] => (c, Ok 0)
  | p :: ps' =>
      match bind_params p with
      | Raise e => (c, Raise e)
      | Ok excluded =>
          let c' := {| durable := durable c;
                       view := exec_upsert (view c) excluded |} in
          let '(c'', r) := executemany ps' c' in
          (c'', n <- r ;; Ok (n + 1))
      end
  end.

(** A reading of the wall clock. *)
Record DateTime := {
  year : N; month : N; day : N;
  hour : N; minute : N; second : N; microsecond : N;
}.

Definition digit_char (n : N) : N := (48 + n mod 10)%N.
Definition two_digits (n : N) : pystr := [digit_char (n / 10); digit_char n].
Definition four_digits (n : N) : pystr :=
  [digit_char (n / 1000); digit_char (n / 100); digit_char (n / 10); digit_char n].

Definition strftime_date (d : DateTime) : pystr :=
  four_digits (year d) ++ 45%N :: two_digits (month d) ++ 45%N :: two_digits (day d).

Definition strftime_time (d : DateTime) : pystr :=
  two_digits (hour d) ++ 58%N :: two_digits (minute d) ++ 58%N :: two_digits (second d).

(** [d.strftime("%Y-%m-%d %H:%M:%S")] *)
Definition strftime (d : DateTime) : pystr :=
  strftime_date d ++ 32%N :: strftime_time d.

(** [it.get(k)] and [it.get(k, default)] *)
Definition dict_get (it : gmap pystr PyVal) (k : pystr) : PyVal :=
  match it !! k with Some v => v | None => PNone end.

Definition dict_get_default (it : gmap pystr PyVal) (k : pystr) (d : PyVal) : PyVal :=
  match it !! k with Some v => v | None => d end.

(** [(it.get(k) or "").strip()] *)
Definition stripped_field (it : gmap pystr PyVal) (k : pystr) : Result pystr :=
  strip_method (py_or (dict_get it k) (PStr [])).

(** [extra[k] = v] on a dict kept in insertion order. *)
Fixpoint dict_set (d : list (pystr * PyVal)) (k : pystr) (v : PyVal)
  : list (pystr * PyVal) :=
  match d with
  | [] => [(k, v)]
  | (k', v') :: d' => if decide (k' = k) then (k, v) :: d'
                      else (k', v') :: dict_set d' k v
  end.

(** [for k in extra_fields: if k in it: extra[k] = it[k]] *)
Definition collect_extra (it : gmap pystr PyVal) (extra_fields : list pystr)
  : list (pystr * PyVal) :=
  fold_left (fun extra k => match it !! k with
                            | Some v => dict_set extra k v
                            | None => extra
                            end) extra_fields [].

(** [[str(x).strip() for x in xs if str(x).strip()]] *)
Definition stripped_tags `{Runtime} (xs : list PyVal) : list pystr :=
  filter (fun t => negb (is_nil t)) (map (fun x => py_strip (py_str x)) xs).

Definition opt_truthy (o : option pystr) : bool :=
  match o with Some (_ :: _) => true | _ => false end.

(** The body of the loop of [upsert_history] for one raw item: [Ok None] is
    [continue], [Ok (Some p)] is [rows.append(p)]. [now] is what
    [datetime.now()] returns if the body calls it. *)
Definition normalize_item `{Runtime}
    (platform_ : pystr) (topic_key_field tags_join_from : option pystr)
    (extra_fields : list pystr) (now : DateTime) (it : gmap pystr PyVal)
  : Result (option Params) :=
  title_ <- stripped_field it (lit "title") ;;
  url_ <- stripped_field it (lit "url") ;;
  scraped <- stripped_field it (lit "scraped_at") ;;
  if is_nil title_ || is_nil url_ then Ok None
  else
    let scraped := if is_nil scraped then strftime now else scraped in
    let date := split_space_head scraped in
    hv <- _as_int (dict_get_default it (lit "heat_value") (dict_get it (lit "num"))) ;;
    rk <- _as_int (dict_get it (lit "rank")) ;;
    let tags :=
      match tags_join_from with
      | Some (c :: f) =>
          match dict_get it (c :: f) with
          | PList xs | PTuple xs =>
              let ts := stripped_tags xs in
              if is_nil ts then None else Some (join_bar ts)
          | _ => None
          end
      | _ => None
      end in
    let tk :=
      match topic_key_field with
      | Some (c :: f) => dict_get it (c :: f)
      | _ => PNone
      end in
    let extra := collect_extra it extra_fields in
    Ok (Some {| p_platform := platform_; p_topic_key := tk; p_title := title_;
                p_url := url_; p_image_url := dict_get it (lit "image_url");
                p_excerpt := dict_get it (lit "excerpt");
                p_heat_text := dict_get it (lit "heat_text");
                p_heat_value := hv; p_rank := rk; p_tags_text := tags;
                p_scraped_at := scraped; p_scraped_date := date;
                p_extra_json := if is_nil extra then None
                                else Some (json_dumps extra) |}).

(** The loop of [upsert_history]; [clock i] is the wall clock while the
    item at position [i] is processed. *)
Fixpoint build_rows `{Runtime}
    (platform_ : pystr) (topic_key_field tags_join_from : option pystr)
    (extra_fields : list pystr) (clock : nat -> DateTime) (i : nat)
    (items : list (gmap pystr PyVal)) : Result (list Params) :=
  match items with
  | [] => Ok []
  | it :: rest =>
      o <- normalize_item platform_ topic_key_field tags_join_from
             extra_fields (clock i) it ;;
      ps <- build_rows platform_ topic_key_field tags_join_from
              extra_fields clock (S i) rest ;;
      Ok (match o with Some p => p :: ps | None => ps end)
  end.

(** [HotItemsHistoryDB.upsert_history] *)
Definition upsert_history `{Engine}
    (platform_ : pystr) (items : list (gmap pystr PyVal))
    (topic_key_field tags_join_from : option pystr)
    (extra_fields : option (list pystr)) (clock : nat -> DateTime)
    (c : Conn) : Conn * Result Z :=
  let extra_fields := match extra_fields with Some l => l | None => [] end in
  match build_rows platform_ topic_key_field tags_join_from extra_fields
          clock 0 items with
  | Raise e => (c, Raise e)
  | Ok ps =>
      if is_nil ps then (c, Ok 0)
      else
        let '(c', r) := executemany ps c in
        match r with
        | Raise e => (c', Raise e)
        | Ok n => (commit c', Ok n)
        end
  end.

(* ===================================================================== *)
(** * The engine's LIKE                                                   *)
(* ===================================================================== *)

(** The engine's text functions read a value up to its first NUL. *)
Definition c_str (s : pystr) : pystr := take_while (fun c => negb (c =? 0)%N) s.

(** Two characters are equal for LIKE when they are the same or are ASCII
    characters that differ only in case. *)
Definition like_char_eq (a b : N) : bool :=
  ((a =? b) || ((a <? 128) && (b <? 128) && (ascii_lower a =? ascii_lower b)))%N.

(** [%] in a pattern: the rest of the pattern matches some suffix. *)
Fixpoint any_suffix (m : pystr -> bool) (s : pystr) : bool :=
  m s || match s with
         | [] => false
         | _ :: s' => any_suffix m s'
         end.

(** Pattern against text with escape character [esc]: [%] matches any run
    of characters, [_] any one character, [esc] followed by a character
    matches that character, [esc] at the end of the pattern matches
    nothing, anything else matches itself. *)
Fixpoint like_rec (esc : N) (p : pystr) (s : pystr) : bool :=
  match p with
  | [] => is_nil s
  | c :: p' =>
      if (c =? PERCENT)%N then any_suffix (like_rec esc p') s
      else if (c =? esc)%N then
        match p' with
        | [] => false
        | c2 :: p'' =>
            match s with
            | [] => false
            | x :: s' => like_char_eq c2 x && like_rec esc p'' s'
            end
        end
      else if (c =? UNDERSCORE)%N then
        match s with
        | [] => false
        | _ :: s' => like_rec esc p' s'
        end
      else
        match s with
        | [] => false
        | x :: s' => like_char_eq c x && like_rec esc p' s'
        end
  end.

(** Whether a text matches a pattern with escape character ['\']. *)
Definition like_match (pattern text : pystr) : bool :=
  like_rec BACKSLASH (c_str pattern) (c_str text).

(** The same on a nullable column: NULL never satisfies the WHERE clause. *)
Definition like_match_opt (pattern : pystr) (text : option pystr) : bool :=
  match text with
  | Some t => like_match pattern t
  | None => false
  end.

(** [text LIKE pattern ESCAPE '\'] as the engine evaluates it: a pattern of
    more than 50000 bytes (all of them, a NUL does not end the count) is
    refused with "LIKE or GLOB pattern too complex", whatever the text. *)
Definition sql_like (pattern : pystr) (text : option pystr) : Result bool :=
  if (SQLITE_MAX_LIKE_PATTERN_LENGTH <? utf8_length pattern)%N
  then Raise OperationalError
  else Ok (like_match_opt pattern text).

(** [f"%{self._escape_like(keyword)}%"] *)
Definition like_pattern (keyword : pystr) : pystr :=
  PERCENT :: _escape_like keyword ++ [PERCENT].

(* ===================================================================== *)
(** * storage.py: the read path                                           *)
(* ===================================================================== *)

(** The conditions both methods build, one by one:
    [platform IN (?, ...)], the three LIKEs, the two date bounds. *)
Definition platform_holds (f : Filter) (c : Cols) : bool :=
  match platforms f with
  | Some (p :: ps) => bool_decide (platform c ∈ p :: ps)
  | _ => true
  end.

Definition keyword_holds (f : Filter) (c : Cols) : bool :=
  match keyword f with
  | Some (k :: ks) =>
      let kw := like_pattern (k :: ks) in
      like_match kw (title c) || like_match_opt kw (excerpt c) || like_match kw (url c)
  | _ => true
  end.

Definition dates_hold (f : Filter) (c : Cols) : bool :=
  (match date_from f with
   | Some (d :: ds) => str_leb (d :: ds) (scraped_date c)
   | _ => true
   end)
  && (match date_to f with
      | Some (d :: ds) => str_leb (scraped_date c) (d :: ds)
      | _ => true
      end).

(** The WHERE clause both methods build: its truth value on a row. *)
Definition where_clause (f : Filter) (r : Row) : bool :=
  let c := cols r in
  platform_holds f c && keyword_holds f c && dates_hold f c.

(** The keyword condition as the engine evaluates it: [OR] stops at the
    first LIKE that holds, a LIKE that is refused ends the statement. *)
Definition eval_keyword (f : Filter) (c : Cols) : Result bool :=
  match keyword f with
  | Some (k :: ks) =>
      let kw := like_pattern (k :: ks) in
      a <- sql_like kw (Some (title c)) ;;
      if a then Ok true
      else b <- sql_like kw (excerpt c) ;;
           if b then Ok true else sql_like kw (Some (url c))
  | _ => Ok true
  end.

(** The WHERE clause evaluated on a row the engine reads: the conditions
    in the order of the statement, up to the first that fails. *)
Definition eval_where (f : Filter) (r : Row) : Result bool :=
  let c := cols r in
  if negb (platform_holds f c) then Ok false
  else
    k <- eval_keyword f c ;;
    if negb k then Ok false else Ok (dates_hold f c).

(** The rows of the table that satisfy the WHERE clause, in table order.
    A row the plan passes over by its date is not evaluated. *)
Fixpoint scan (skips : Row -> bool) (f : Filter) (rs : list Row)
  : Result (list Row) :=
  match rs with
  | [] => Ok []
  | r :: rest =>
      if skips r && negb (dates_hold f (cols r)) then scan skips f rest
      else
        b <- eval_where f r ;;
        l <- scan skips f rest ;;
        Ok (if b then r :: l else l)
  end.

(** The parameters both methods collect from the filter, in order. *)
Definition filter_params (f : Filter) : list pystr :=
  (match platforms f with Some (p :: ps) => p :: ps | _ => [] end)
  ++ (match keyword f with
      | Some (k :: ks) => let kw := like_pattern (k :: ks) in [kw; kw; kw]
      | _ => []
      end)
  ++ (match date_from f with Some (d :: ds) => [d :: ds] | _ => [] end)
  ++ (match date_to f with Some (d :: ds) => [d :: ds] | _ => [] end).

(** Preparing a statement with [n] parameters. *)
Definition prepare `{Engine} (n : N) : Result unit :=
  if (max_variables <? n)%N then Raise OperationalError else Ok tt.

(** Binding the strings of a parameter list, in order. *)
Fixpoint bind_strs (l : list pystr) : Result unit :=
  match l with
  | [] => Ok tt
  | s :: l' => _ <- bind_str s ;; bind_strs l'
  end.

(** [HotItemsHistoryDB.count_history] *)
Definition count_history `{Engine} (f : Filter) (c : Conn) : Result Z :=
  let params := filter_params f in
  _ <- prepare (N.of_nat (length params)) ;;
  _ <- bind_strs params ;;
  rs <- scan (index_skips f None (view c)) f (rows (view c)) ;;
  Ok (Z.of_nat (length rs)).

(** [_ALLOWED_ORDERS] *)
Definition _ALLOWED_ORDERS : list pystr :=
  [lit "scraped_at DESC"; lit "scraped_at ASC";
   lit "scraped_date DESC"; lit "scraped_date ASC";
   lit "heat_value DESC"; lit "heat_value ASC";
   lit "rank ASC"; lit "rank DESC";
   lit "id DESC"; lit "id ASC"].

Definition DEFAULT_ORDER : pystr := lit "scraped_at DESC".

(** [if order_by not in self._ALLOWED_ORDERS: order_by = "scraped_at DESC"] *)
Definition effective_order (order_by : pystr) : pystr :=
  if bool_decide (order_by ∈ _ALLOWED_ORDERS) then order_by else DEFAULT_ORDER.

(** What the engine reads in [ORDER BY <clause>] for the clauses the method
    can build: the column and whether the order is descending. *)
Definition order_clauses : list (pystr * (OrderCol * bool)) :=
  [(lit "scraped_at DESC", (ByScrapedAt, true));
   (lit "scraped_at ASC", (ByScrapedAt, false));
   (lit "scraped_date DESC", (ByScrapedDate, true));
   (lit "scraped_date ASC", (ByScrapedDate, false));
   (lit "heat_value DESC", (ByHeatValue, true));
   (lit "heat_value ASC", (ByHeatValue, false));
   (lit "rank ASC", (ByRank, false));
   (lit "rank DESC", (ByRank, true));
   (lit "id DESC", (ById, true));
   (lit "id ASC", (ById, false))].

Fixpoint assoc {B} (k : pystr) (l : list (pystr * B)) : option B :=
  match l with
  | [] => None
  | (k', b) :: l' => if bool_decide (k' = k) then Some b else assoc k l'
  end.

(** A value as ORDER BY compares it: NULL first, then integers, then text. *)
Inductive SqlKey := KNull | KInt (z : Z) | KText (s : pystr).

Definition key_leb (a b : SqlKey) : bool :=
  match a, b with
  | KNull, _ => true
  | _, KNull => false
  | KInt x, KInt y => x <=? y
  | KInt _, KText _ => true
  | KText _, KInt _ => false
  | KText x, KText y => str_leb x y
  end.

Definition opt_int_key (o : option Z) : SqlKey :=
  match o with Some z => KInt z | None => KNull end.

Definition order_key (col : OrderCol) (r : Row) : SqlKey :=
  match col with
  | ByScrapedAt => KText (scraped_at (cols r))
  | ByScrapedDate => KText (scraped_date (cols r))
  | ByHeatValue => opt_int_key (heat_value (cols r))
  | ByRank => opt_int_key (rank (cols r))
  | ById => KInt (id r)
  end.

(** Sorting by insertion; rows with equal keys keep the order they come
    in. *)
Fixpoint insert_sorted (le : Row -> Row -> bool) (r : Row) (l : list Row) : list Row :=
  match l with
  | [] => [r]
  | x :: l' => if le r x then r :: l else x :: insert_sorted le r l'
  end.

Definition sort_rows (le : Row -> Row -> bool) (l : list Row) : list Row :=
  fold_right (insert_sorted le) [] l.

(** [ORDER BY col] or [ORDER BY col DESC]. The engine leaves the order of
    rows with equal keys open: it is the order in which the plan hands them
    to the sorter. *)
Definition order_rows `{Engine} (f : Filter) (col : OrderCol) (desc : bool)
    (l : list Row) : list Row :=
  let l := arrange f col desc l in
  if desc
  then sort_rows (fun a b => key_leb (order_key col b) (order_key col a)) l
  else sort_rows (fun a b => key_leb (order_key col a) (order_key col b)) l.

(** [LIMIT ? OFFSET ?]: a negative limit is no limit, a negative offset is
    zero. *)
Definition limit_offset {A} (limit offset : Z) (l : list A) : list A :=
  let l' := drop (Z.to_nat offset) l in
  if limit <? 0 then l' else take (Z.to_nat limit) l'.

(** One result of [query_history]: the twelve selected columns. *)
Record QRow := {
  q_id : Z;
  q_platform : pystr;
  q_scraped_date : pystr;
  q_scraped_at : pystr;
  q_rank : option Z;
  q_title : pystr;
  q_url : pystr;
  q_heat_text : option pystr;
  q_heat_value : option Z;
  q_excerpt : option pystr;
  q_image_url : option pystr;
  q_tags_text : option pystr;
}.

Definition select_cols (r : Row) : QRow :=
  let c := cols r in
  {| q_id := id r; q_platform := platform c; q_scraped_date := scraped_date c;
     q_scraped_at := scraped_at c; q_rank := rank c; q_title := title c;
     q_url := url c; q_heat_text := heat_text c; q_heat_value := heat_value c;
     q_excerpt := excerpt c; q_image_url := image_url c;
     q_tags_text := tags_text c |}.

(** The SELECT of [query_history] run with the ORDER BY clause [clause]:
    the statement is prepared, its parameters are bound in order (those of
    the filter, then the limit and the offset), and it is run. With a limit
    of zero the engine reads no row. A clause the engine cannot read does
    not occur: the method only ever builds the ten above. *)
Definition run_select `{Engine} (f : Filter) (clause : pystr) (limit offset : Z)
    (t : Table) : Result (list Row) :=
  match assoc clause order_clauses with
  | None => Raise OperationalError
  | Some (col, desc) =>
      let params := filter_params f in
      _ <- prepare (N.of_nat (length params) + 2)%N ;;
      _ <- bind_strs params ;;
      if in_int64 limit && in_int64 offset
      then
        if limit =? 0 then Ok []
        else
          rs <- scan (index_skips f (Some (col, desc)) t) f (rows t) ;;
          Ok (limit_offset limit offset (order_rows f col desc rs))
      else Raise OverflowError
  end.

(** [HotItemsHistoryDB.query_history] *)
Definition query_history `{Engine} (f : Filter) (order_by : pystr) (limit offset : Z)
    (c : Conn) : Result (list QRow) :=
  let order_by := effective_order order_by in
  rs <- run_select f order_by limit offset (view c) ;;
  Ok (map select_cols rs).

(** A call of [upsert_history] with its arguments, and a run of calls on
    one connection, as [run_once] of main.py makes them: a call that raises
    is caught and the next one follows. *)
Record Call := {
  call_platform : pystr;
  call_items : list (gmap pystr PyVal);
  call_topic_key_field : option pystr;
  call_tags_join_from : option pystr;
  call_extra_fields : option (list pystr);
  call_clock : nat -> DateTime;
}.

Definition do_call `{Engine} (k : Call) (c : Conn) : Conn * Result Z :=
  upsert_history (call_platform k) (call_items k) (call_topic_key_field k)
    (call_tags_join_from k) (call_extra_fields k) (call_clock k) c.

Definition run_calls `{Engine} (ks : list Call) (c : Conn) : Conn :=
  fold_left (fun c k => fst (do_call k c)) ks c.

(* ===================================================================== *)
(** * Vocabulary of the properties                                        *)
(* ===================================================================== *)

(** What the specification says numeric coercion yields: nothing for an
    absent or empty input, else the direct integer parse, else the float
    parse truncated, else nothing. *)
Definition coerce_int (x : PyVal) : option Z :=
  if is_none x || eq_empty_str x then None
  else match py_int x with
       | Ok n => Some n
       | Raise _ =>
           match py_float x with
           | Ok f => match int_of_float f with
                     | Ok n => Some n
                     | Raise _ => None
                     end
           | Raise _ => None
           end
       end.

(** The float nearest to 42.9. *)
Definition float_42_9 : PyFloat := FFin false 6037638250443571 (-47).

(** At most one row per (platform, url, scraped_date). *)
Definition unique_keys (t : Table) : Prop := NoDup (map row_key (rows t)).

(** [scraped_date] is the date part of [scraped_at], in every row. *)
Definition date_consistent (t : Table) : Prop :=
  Forall (fun r => scraped_date (cols r) = split_space_head (scraped_at (cols r)))
    (rows t).

(** No row has an empty title or an empty url. *)
Definition titled (t : Table) : Prop :=
  Forall (fun r => title (cols r) <> [] /\ url (cols r) <> []) (rows t).

(** A field the loop can trim: a string, or a value [or ""] replaces
    (None, 0, 0.0, False, an empty list, tuple or dict). Any other value
    here, a non-zero number, True, a non-empty list, tuple or dict, has no
    [strip]. *)
Definition trimmable (it : gmap pystr PyVal) (k : pystr) : Prop :=
  match dict_get it k with
  | PStr _ => True
  | v => truthy v = false
  end.

(** A field that is empty: absent, None or another value that [or ""]
    replaces (0, 0.0, False, an empty string or container), or a string
    that is blank once trimmed. *)
Definition blank_field (it : gmap pystr PyVal) (k : pystr) : Prop :=
  truthy (dict_get it k) = false
  \/ exists s, dict_get it k = PStr s /\ py_strip s = [].




(** The pattern of the filter's keyword is one the engine takes: not above
    50000 bytes. *)
Definition keyword_fits (f : Filter) : Prop :=
  match keyword f with
  | Some (k :: ks) =>
      (utf8_length (like_pattern (k :: ks)) <= SQLITE_MAX_LIKE_PATTERN_LENGTH)%N
  | _ => True
  end.



(** The last tuple of a batch that carries a given key. *)
Definition last_with_key (ps : list Cols) (x : Cols) : Prop :=
  exists l1 l2, ps = l1 ++ x :: l2 /\ Forall (fun y => key_of y <> key_of x) l2.

(** A runtime to evaluate the examples with. The examples write no float
    to a text column, print no container and name no extra field, so none
    of the three functions is called in them. *)
Definition example_runtime : Runtime :=
  {| repr_other := fun _ => lit "?";
     json_dumps := fun _ => lit "{}";
     sql_real_text := fun _ => None |}.

(** An engine to evaluate the examples with: the limit on parameters of
    the default build, a record too big when its text alone is, plans that
    walk the table in its own order. *)
Definition example_engine : Engine.
Proof.
  refine {| engine_runtime := example_runtime;
            max_variables := 32766;
            row_too_big := fun c => (SQLITE_MAX_LENGTH <? cols_bytes c)%N;
            index_skips := fun _ _ _ _ => false;
            arrange := fun _ _ _ l => l;
            row_fits := _; row_exceeds := _; arrange_perm := _ |}.
  - intros c Hle. apply N.ltb_ge. unfold RECORD_OVERHEAD in Hle. lia.
  - intros c Hlt. by apply N.ltb_lt.
  - intros f col desc l. reflexivity.
Defined.

(** A clock that stands at 2025-01-02 03:04:05. *)
Definition example_clock (i : nat) : DateTime :=
  {| year := 2025; month := 1; day := 2; hour := 3; minute := 4; second := 5;
     microsecond := 0 |}.

(** [{k1: v1, ...}] *)
Definition item (kv : list (pystr * PyVal)) : gmap pystr PyVal := list_to_map kv.

(** A record whose heat_value is "abc" and whose rank is 3.7e400 (a float
    literal beyond the float range) is kept; both fields are absent. *)
Definition as_int_witness_item : gmap pystr PyVal :=
  item [(lit "title", PStr (lit "X")); (lit "url", PStr (lit "http://a"));
        (lit "heat_value", PStr (lit "abc"));
        (lit "rank", PStr (lit "3.7e400"))].

(** An item with a "heat_value" that does not coerce and a "num" that does. *)
Definition shadowed_num_item : gmap pystr PyVal :=
  item [(lit "title", PStr (lit "X")); (lit "url", PStr (lit "http://a"));
        (lit "heat_value", PStr (lit "abc")); (lit "num", PInt 5)].

(** What the three replacements do to one character. *)
Definition escape_char (c : N) : pystr :=
  if ((c =? BACKSLASH) || (c =? PERCENT) || (c =? UNDERSCORE))%N
  then [BACKSLASH; c] else [c].

(** The filter that carries a keyword and nothing else. *)
Definition keyword_only (kw : pystr) : Filter :=
  {| keyword := Some kw; platforms := None; date_from := None; date_to := None |}.

(** The item of the specification's first scenario, and the same link
    scraped again the same day under another title. *)
Definition scenario_item_X : gmap pystr PyVal :=
  item [(lit "title", PStr (lit "X")); (lit "url", PStr (lit "http://a"));
        (lit "heat_text", PStr (lit "7904613"));
        (lit "scraped_at", PStr (lit "2025-01-01 10:00:00"))].

Definition scenario_item_Y : gmap pystr PyVal :=
  item [(lit "title", PStr (lit "Y")); (lit "url", PStr (lit "http://a"));
        (lit "scraped_at", PStr (lit "2025-01-01 18:30:00"))].

(** The connection after the first item has been written to an empty
    table. *)
Definition conn_after_X : Conn :=
  (@upsert_history example_engine (lit "baidu") [scenario_item_X]
     None None None example_clock fresh_conn).1.

(** A table with two rows, one with a [%] in its title, and a keyword of
    49999 characters. *)
Definition percent_conn : Conn :=
  (@upsert_history example_engine (lit "baidu")
     [item [(lit "title", PStr (lit "up 50% today"));
            (lit "url", PStr (lit "http://a"));
            (lit "scraped_at", PStr (lit "2025-01-01 10:00:00"))];
      item [(lit "title", PStr (lit "up 500 today"));
            (lit "url", PStr (lit "http://b"));
            (lit "scraped_at", PStr (lit "2025-01-01 10:00:00"))]]
     None None None example_clock fresh_conn).1.


(** An item without scraped_at. *)
Definition undated_item : gmap pystr PyVal :=
  item [(lit "title", PStr (lit "X")); (lit "url", PStr (lit "http://a"))].

(** A blank title; a title that is the number 0; and an empty title beside
    a scraped_at that is a number. *)
Definition blank_title_item : gmap pystr PyVal :=
  item [(lit "title", PStr (lit "  ")); (lit "url", PStr (lit "http://a"))].

Definition zero_title_item : gmap pystr PyVal :=
  item [(lit "title", PInt 0); (lit "url", PStr (lit "http://a"))].

Definition numeric_scraped_at_item : gmap pystr PyVal :=
  item [(lit "title", PStr (lit "")); (lit "url", PStr (lit "http://a"));
        (lit "scraped_at", PInt 20250101)].

(** Two items of one platform, the second with a heat value beyond 64
    bits, and an item of another platform. *)
Definition weibo_item_1 : gmap pystr PyVal :=
  item [(lit "title", PStr (lit "W1")); (lit "url", PStr (lit "http://w1"));
        (lit "scraped_at", PStr (lit "2025-01-01 10:00:00"))].

Definition weibo_item_2 : gmap pystr PyVal :=
  item [(lit "title", PStr (lit "W2")); (lit "url", PStr (lit "http://w2"));
        (lit "heat_value", PStr (lit "99999999999999999999"));
        (lit "scraped_at", PStr (lit "2025-01-01 10:00:00"))].

Definition baidu_item_1 : gmap pystr PyVal :=
  item [(lit "title", PStr (lit "B1")); (lit "url", PStr (lit "http://b1"));
        (lit "scraped_at", PStr (lit "2025-01-01 10:00:00"))].

(* ===================================================================== *)
(** * More of storage.py                                                  *)
(* ===================================================================== *)

(** Sorting strings by insertion, in code-point order. *)
Fixpoint insert_str (s : pystr) (l : list pystr) : list pystr :=
  match l with
  | [] => [s]
  | x :: l' => if str_leb s x then s :: l else x :: insert_str s l'
  end.

Definition sort_strs (l : list pystr) : list pystr := fold_right insert_str [] l.

(** [HotItemsHistoryDB.list_platforms]: SELECT DISTINCT platform ... ORDER
    BY platform, then [[r[0] for r in rows if r and r[0]]]. *)
Definition list_platforms (c : Conn) : list pystr :=
  List.filter (fun p => negb (is_nil p))
    (sort_strs (remove_dups (map (fun r => platform (cols r)) (rows (view c))))).

(** The ORDER BY key of a result row. *)
Definition q_order_key (col : OrderCol) (q : QRow) : SqlKey :=
  match col with
  | ByScrapedAt => KText (q_scraped_at q)
  | ByScrapedDate => KText (q_scraped_date q)
  | ByHeatValue => opt_int_key (q_heat_value q)
  | ByRank => opt_int_key (q_rank q)
  | ById => KInt (q_id q)
  end.

(** [a] may stand before [b] in a result ordered by [col]. *)
Definition ordered_by (col : OrderCol) (desc : bool) (a b : QRow) : Prop :=
  if desc then key_leb (q_order_key col b) (q_order_key col a) = true
  else key_leb (q_order_key col a) (q_order_key col b) = true.

(** A filter on one day. *)
Definition on_day (d : pystr) : Filter :=
  {| keyword := None; platforms := None; date_from := Some d; date_to := Some d |}.

(** Surrogate ids grow along the table and none exceeds the counter. *)
Definition ids_ascending (t : Table) : Prop :=
  StronglySorted Z.lt (map id (rows t))
  /\ Forall (fun r => id r <= seq t) (rows t).

(** Every row of [t] is still in [t'], under the same id and key. *)
Definition keeps_rows (t t' : Table) : Prop :=
  forall r, r ∈ rows t ->
    exists r', r' ∈ rows t' /\ id r' = id r /\ row_key r' = row_key r.

(** An item that carries its own capture time: a string that is not
    blank. *)
Definition dated (it : gmap pystr PyVal) : Prop :=
  exists s, dict_get it (lit "scraped_at") = PStr s /\ py_strip s <> [].

(** A clock that stands a day after [example_clock]. *)
Definition later_clock (i : nat) : DateTime :=
  {| year := 2025; month := 1; day := 3; hour := 3; minute := 4; second := 5;
     microsecond := 0 |}.

(** The id and the key of every row, in table order. *)
Definition skeleton (t : Table) : list (Z * (pystr * pystr * pystr)) :=
  map (fun r => (id r, row_key r)) (rows t).

(** The number a run of ASCII digits writes. *)
Definition count_value (ds : list N) : Z :=
  digits_value (map (fun c => Z.of_N (c - 48)) ds).

(* ===================================================================== *)
(** * More of scraper/weibo.py                                            *)
(* ===================================================================== *)

(** The bytes [quote] never escapes: letters, digits and [_.-~]. *)
Definition always_safe (b : N) : bool :=
  ((65 <=? b) && (b <=? 90) || (97 <=? b) && (b <=? 122)
   || (48 <=? b) && (b <=? 57)
   || (b =? 95) || (b =? 46) || (b =? 45) || (b =? 126))%N.

Definition hex_digit (n : N) : N := (if n <? 10 then 48 + n else 55 + n)%N.

(** One byte as [quote] writes it: itself, or [%XX]. *)
Definition quote_byte (b : N) : pystr :=
  if always_safe b then [b]
  else [PERCENT; hex_digit (b / 16); hex_digit (b mod 16)].

(** [urllib.parse.quote(s, safe="")] for a string. *)
Definition quote_none_safe (s : pystr) : Result pystr :=
  if is_nil s then Ok s
  else bs <- str_encode_utf8 s ;; Ok (flat_map quote_byte bs).

(** ["%" in x]: a character of a string, an element of a list or a tuple,
    a key of a dict; other values are not containers. *)
Definition contains_percent (x : PyVal) : Result bool :=
  match x with
  | PStr s => Ok (bool_decide (PERCENT ∈ s))
  | PList l | PTuple l =>
      Ok (existsb (fun v => match v with
                            | PStr [c] => (c =? PERCENT)%N
                            | _ => false
                            end) l)
  | PDict kv => Ok (existsb (fun e => bool_decide (e.1 = [PERCENT])) kv)
  | PNone | PBool _ | PInt _ | PFloat _ => Raise TypeError
  end.

(** [WeiboHotSpider._safe_q]; [quote] takes strings only. *)
Definition _safe_q (word_scheme : PyVal) : Result PyVal :=
  has <- contains_percent (py_or word_scheme (PStr [])) ;;
  if has then Ok word_scheme
  else match py_or word_scheme (PStr []) with
       | PStr s => q <- quote_none_safe s ;; Ok (PStr q)
       | _ => Raise TypeError
       end.

(** A character that may stand in a query string unescaped, or [%]. *)
Definition url_safe (c : N) : Prop := always_safe c = true \/ c = PERCENT.

Definition WEIBO_SEARCH : pystr := lit "https://s.weibo.com/weibo?q=".
Definition WEIBO_SEARCH_END : pystr := lit "&t=31".

(** [item.get(k, "") or ""] *)
Definition get_or_empty (it : gmap pystr PyVal) (k : pystr) : PyVal :=
  py_or (dict_get_default it k (PStr [])) (PStr []).

Definition opt_int_val (o : option Z) : PyVal :=
  match o with Some z => PInt z | None => PNone end.

(** The dict [parse_items] appends for one entry. *)
Definition weibo_record (title url heat_text heat_value scraped_at word_scheme : PyVal)
  : gmap pystr PyVal :=
  item [(lit "title", title); (lit "url", url); (lit "heat_text", heat_text);
        (lit "heat_value", heat_value); (lit "scraped_at", scraped_at);
        (lit "word_scheme", word_scheme)].

(** The body of the loop of [WeiboHotSpider.parse_items]; [now] is the
    text of the clock, taken once before the loop. *)
Definition parse_item `{Runtime} (now : pystr) (it : gmap pystr PyVal)
  : Result (gmap pystr PyVal) :=
  let title := get_or_empty it (lit "note") in
  let num := dict_get_default it (lit "num") (PStr []) in
  let heat_text := if is_none num then PStr [] else PStr (py_str num) in
  heat_value <- _parse_heat_value num ;;
  let word_scheme := get_or_empty it (lit "word_scheme") in
  q <- _safe_q word_scheme ;;
  let url := WEIBO_SEARCH ++ py_str q ++ WEIBO_SEARCH_END in
  Ok (weibo_record title (PStr url) heat_text (opt_int_val heat_value)
        (PStr now) word_scheme).

(** [WeiboHotSpider.parse_items] from the list [realtime] of the reply
    on, its entries being dicts. *)
Fixpoint parse_items_from `{Runtime} (now : pystr)
    (realtime : list (gmap pystr PyVal)) : Result (list (gmap pystr PyVal)) :=
  match realtime with
  | [] => Ok []
  | it :: rest =>
      rec <- parse_item now it ;;
      out <- parse_items_from now rest ;;
      Ok (rec :: out)
  end.

Definition parse_items `{Runtime} (now : DateTime)
    (realtime : list (gmap pystr PyVal)) : Result (list (gmap pystr PyVal)) :=
  parse_items_from (strftime now) realtime.

(** What [run_once] passes to [upsert_history] for weibo, applied to one
    record. *)
Definition normalize_weibo `{Runtime} (t : DateTime) (rec : gmap pystr PyVal)
  : Result (option Params) :=
  normalize_item (lit "weibo") (Some (lit "word_scheme")) None
    [lit "word_scheme"] t rec.

(** An entry of the reply as the examples use it. *)
Definition weibo_entry : gmap pystr PyVal :=
  item [(lit "note", PStr (lit "topic")); (lit "num", PInt 1234567);
        (lit "word_scheme", PStr (lit "#topic#"))].

(* ===================================================================== *)
(** * main.py                                                             *)
(* ===================================================================== *)

(** The keys of [SPIDER_REGISTRY]. *)
Definition SPIDER_REGISTRY : list pystr :=
  [lit "zhihu"; lit "weibo"; lit "douyin"; lit "baidu"; lit "cailian"].

(** What [run_once] does not compute itself: [str.lower], what the adapter
    of the provider at position [i] of the list returns or raises from
    [run()], and the wall clock while item [j] of that provider is
    written. *)
Record World := {
  str_lower : pystr -> pystr;
  spider_run : nat -> pystr -> Result (list (gmap pystr PyVal));
  wall_clock : nat -> nat -> DateTime;
}.

(** The [if name == ...] chain of [run_once]: [topic_key_field] and
    [extra_fields] of a platform. *)
Definition platform_fields (name : pystr) : option pystr * list pystr :=
  if decide (name = lit "weibo")
  then (Some (lit "word_scheme"), [lit "word_scheme"])
  else if decide (name = lit "douyin") then (Some (lit "sentence_id"), [])
  else if decide (name = lit "baidu") then (None, [lit "avatar_url"])
  else if decide (name = lit "zhihu") then (None, [lit "avatar_url"])
  else if decide (name = lit "cailian")
  then (None, [lit "id"; lit "ctime"; lit "level"; lit "comment_num"])
  else (None, []).

(** The loop of [run_once] from position [i] on, on the connection [c]
    with [total] counted so far. *)
Fixpoint run_providers `{Engine} (w : World) (i : nat) (names : list pystr)
    (c : Conn) (total : Z) : Conn * Z :=
  match names with
  | [] => (c, total)
  | name :: rest =>
      let name := str_lower w name in
      if bool_decide (name ∈ SPIDER_REGISTRY) then
        match spider_run w i name with
        | Raise _ => run_providers w (S i) rest c total
        | Ok items =>
            if is_nil items then run_providers w (S i) rest c total
            else
              let '(topic_key_field, extra_fields) := platform_fields name in
              let '(c', r) :=
                upsert_history name items topic_key_field None
                  (Some extra_fields) (wall_clock w i) c in
              match r with
              | Ok inserted => run_providers w (S i) rest c' (total + inserted)
              | Raise _ => run_providers w (S i) rest c' total
              end
        end
      else run_providers w (S i) rest c total
  end.

(** [run_once]: a connection is opened on the file, the providers are
    run, the connection is closed. The result is the file and the total
    that is printed. *)
Definition run_once `{Engine} (w : World) (file : Table)
    (provider_names : list pystr) : Table * Z :=
  let db := {| durable := file; view := file |} in
  let '(c, total) := run_providers w 0 provider_names db 0 in
  (durable (close c), total).

(** [s.split(",")] *)
Fixpoint split_comma (s : pystr) : list pystr :=
  match s with
  | [] => [[]]
  | c :: s' =>
      if (c =? 44)%N then [] :: split_comma s'
      else match split_comma s' with
           | h :: t => (c :: h) :: t
           | [] => [[c]]
           end
  end.

(** The provider list of [main]:
    [[p.strip() for p in providers.split(",") if p.strip()]]. *)
Definition provider_list (providers : pystr) : list pystr :=
  map py_strip
    (List.filter (fun p => negb (is_nil (py_strip p))) (split_comma providers)).

(** A world for the examples: ASCII lower-casing, an adapter that returns
    one record, a clock that stands still. *)
Definition example_world : World :=
  {| str_lower := map ascii_lower;
     spider_run := fun _ _ => Ok [scenario_item_X];
     wall_clock := fun _ => example_clock |}.

Definition COMMA : N := 44.

(** [",".join(parts)] *)
Fixpoint join_comma (parts : list pystr) : pystr :=
  match parts with
  | [] => []
  | [p] => p
  | p :: rest => p ++ COMMA :: join_comma rest
  end.

(** A provider name as [main] hands it to [run_once]: not empty, trimmed,
    without a comma. *)
Definition clean_name (p : pystr) : Prop :=
  p <> [] /\ py_strip p = p /\ COMMA ∉ p.

(* ===================================================================== *)
(** * Numeric coercion                                                    *)
(* ===================================================================== *)

Lemma as_int_coerce x : _as_int x = Ok (coerce_int x).
Proof.
  unfold _as_int, coerce_int.
  destruct (is_none x || eq_empty_str x); [reflexivity|].
  destruct (py_int x) as [n|e]; simpl; [reflexivity|].
  destruct (py_float x) as [f|e']; simpl; [|reflexivity].
  destruct (int_of_float f); reflexivity.
Qed.

Lemma float_42_9_parsed : py_float_of_str (lit "42.9") = Ok float_42_9.
Proof. vm_compute. reflexivity. Qed.

Lemma normalize_item_gate `{Runtime} pf tkf tjf ef now it t u s :
  stripped_field it (lit "title") = Ok t ->
  stripped_field it (lit "url") = Ok u ->
  stripped_field it (lit "scraped_at") = Ok s ->
  normalize_item pf tkf tjf ef now it =
    if is_nil t || is_nil u then Ok None
    else
      let scraped := if is_nil s then strftime now else s in
      let extra := collect_extra it ef in
      Ok (Some {| p_platform := pf;
                  p_topic_key := match tkf with
                                 | Some (c :: f) => dict_get it (c :: f)
                                 | _ => PNone
                                 end;
                  p_title := t; p_url := u;
                  p_image_url := dict_get it (lit "image_url");
                  p_excerpt := dict_get it (lit "excerpt");
                  p_heat_text := dict_get it (lit "heat_text");
                  p_heat_value :=
                    coerce_int (dict_get_default it (lit "heat_value")
                                  (dict_get it (lit "num")));
                  p_rank := coerce_int (dict_get it (lit "rank"));
                  p_tags_text :=
                    match tjf with
                    | Some (c :: f) =>
                        match dict_get it (c :: f) with
                        | PList xs | PTuple xs =>
                            let ts := stripped_tags xs in
                            if is_nil ts then None else Some (join_bar ts)
                        | _ => None
                        end
                    | _ => None
                    end;
                  p_scraped_at := scraped;
                  p_scraped_date := split_space_head scraped;
                  p_extra_json := if is_nil extra then None
                                  else Some (json_dumps extra) |}).
Proof.
  intros Ht Hu Hs. unfold normalize_item.
  rewrite Ht, Hu, Hs. simpl.
  destruct (is_nil t || is_nil u); [reflexivity|].
  rewrite !as_int_coerce. reflexivity.
Qed.

(** C4. The numeric coercion of heat_value and rank never raises: for every
    input it returns the direct integer parse, else the truncated float
    parse, else nothing. On "42", 42.9, None, "" and "abc" it returns 42,
    42, nothing, nothing, nothing. A raw item whose title and url are
    present yields its record whatever the coercions return; only the two
    numeric fields depend on them. *)
Theorem as_int_never_raises `{Runtime} :
  (forall x, _as_int x = Ok (coerce_int x))
  /\ _as_int (PStr (lit "42")) = Ok (Some 42)
  /\ _as_int (PFloat float_42_9) = Ok (Some 42)
  /\ _as_int PNone = Ok None
  /\ _as_int (PStr (lit "")) = Ok None
  /\ _as_int (PStr (lit "abc")) = Ok None
  /\ (forall pf tkf tjf ef now it t u s,
        stripped_field it (lit "title") = Ok t ->
        stripped_field it (lit "url") = Ok u ->
        stripped_field it (lit "scraped_at") = Ok s ->
        t <> [] -> u <> [] ->
        exists p,
          normalize_item pf tkf tjf ef now it = Ok (Some p)
          /\ p_title p = t /\ p_url p = u
          /\ p_heat_value p =
               coerce_int (dict_get_default it (lit "heat_value")
                             (dict_get it (lit "num")))
          /\ p_rank p = coerce_int (dict_get it (lit "rank"))).
Proof.
  split; [exact as_int_coerce|].
  do 5 (split; [vm_compute; reflexivity|]).
  intros pf tkf tjf ef now it t u s Ht Hu Hs Hnt Hnu.
  rewrite (normalize_item_gate _ _ _ _ _ _ _ _ _ Ht Hu Hs).
  destruct t; [congruence|]. destruct u; [congruence|]. simpl.
  eexists. split; [reflexivity|]. simpl. auto.
Qed.

Lemma as_int_never_raises_witness :
  exists p,
    @normalize_item example_runtime (lit "baidu") None None [] (example_clock 0)
      as_int_witness_item = Ok (Some p)
    /\ p_title p = lit "X" /\ p_url p = lit "http://a"
    /\ p_heat_value p = None /\ p_rank p = None.
Proof.
  destruct (@as_int_never_raises example_runtime)
    as (_ & _ & _ & _ & _ & _ & Hrec).
  destruct (Hrec (lit "baidu") None None [] (example_clock 0)
              as_int_witness_item (lit "X") (lit "http://a") [])
    as (p & Hp & Ht & Hu & Hh & Hr).
  - vm_compute. reflexivity.
  - vm_compute. reflexivity.
  - vm_compute. reflexivity.
  - discriminate.
  - discriminate.
  - exists p. rewrite Hh, Hr. repeat split; try assumption; vm_compute; reflexivity.
Defined.

(* ===================================================================== *)
(** * The heat parser                                                     *)
(* ===================================================================== *)

(** With a match, the literal goes to [float] outside any [try]. *)
Lemma parse_heat_value_matched `{Runtime} s g unit :
  py_strip s <> [] ->
  heat_regex (py_strip s) = Some (g, unit) ->
  _parse_heat_value (PStr s) =
    (val <- py_float_of_str g ;;
     n <- int_of_float
            match unit with
            | Some u =>
                if (u =? WAN)%N then float_mul val (FFin false 10000 0)
                else if (u =? YI)%N then float_mul val (FFin false 100000000 0)
                else val
            | None => val
            end ;;
     Ok (Some n)).
Proof.
  intros Hne Hre. unfold _parse_heat_value. simpl.
  destruct (py_strip s) eqn:Hs; [congruence|]. simpl.
  rewrite Hre. reflexivity.
Qed.

(** C5. The heat parser returns 7904613 for "7904613", 230000 for
    "23.00 万" and 150000000 for "1.5 亿", and nothing for an absent input
    and for "abc"; but a literal of digits and dots that is not a number,
    such as "1.2.3" or ".", matches the pattern and raises ValueError. *)
Theorem parse_heat_value_dotted_literal_raises `{Runtime} :
  _parse_heat_value (PStr (lit "7904613")) = Ok (Some 7904613)
  /\ _parse_heat_value (PStr (lit "23.00 " ++ [WAN])) = Ok (Some 230000)
  /\ _parse_heat_value (PStr (lit "1.5 " ++ [YI])) = Ok (Some 150000000)
  /\ _parse_heat_value PNone = Ok None
  /\ _parse_heat_value (PStr (lit "abc")) = Ok None
  /\ _parse_heat_value (PStr (lit "1.2.3")) = Raise ValueError
  /\ _parse_heat_value (PStr (lit ".")) = Raise ValueError.
Proof. repeat split; vm_compute; reflexivity. Qed.

(* ===================================================================== *)
(** * What one raw item becomes                                           *)
(* ===================================================================== *)

Lemma normalize_item_Some `{Runtime} pf tkf tjf ef now it p :
  normalize_item pf tkf tjf ef now it = Ok (Some p) ->
  exists t u s,
    stripped_field it (lit "title") = Ok t
    /\ stripped_field it (lit "url") = Ok u
    /\ stripped_field it (lit "scraped_at") = Ok s
    /\ t <> [] /\ u <> []
    /\ p_platform p = pf /\ p_title p = t /\ p_url p = u
    /\ p_scraped_at p = (if is_nil s then strftime now else s)
    /\ p_scraped_date p = split_space_head (p_scraped_at p)
    /\ p_heat_value p =
         coerce_int (dict_get_default it (lit "heat_value") (dict_get it (lit "num")))
    /\ p_rank p = coerce_int (dict_get it (lit "rank")).
Proof.
  intros Hn.
  destruct (stripped_field it (lit "title")) as [t|e] eqn:Ht;
    [|unfold normalize_item in Hn; rewrite Ht in Hn; discriminate].
  destruct (stripped_field it (lit "url")) as [u|e] eqn:Hu;
    [|unfold normalize_item in Hn; rewrite Ht, Hu in Hn; discriminate].
  destruct (stripped_field it (lit "scraped_at")) as [s|e] eqn:Hs;
    [|unfold normalize_item in Hn; rewrite Ht, Hu, Hs in Hn; discriminate].
  rewrite (normalize_item_gate _ _ _ _ _ _ _ _ _ Ht Hu Hs) in Hn.
  exists t, u, s.
  destruct t; [discriminate|]. destruct u; [discriminate|].
  simpl in Hn. injection Hn as <-. simpl.
  repeat split; congruence.
Qed.

Lemma normalize_item_None `{Runtime} pf tkf tjf ef now it :
  normalize_item pf tkf tjf ef now it = Ok None ->
  exists t u,
    stripped_field it (lit "title") = Ok t
    /\ stripped_field it (lit "url") = Ok u
    /\ (t = [] \/ u = []).
Proof.
  intros Hn.
  destruct (stripped_field it (lit "title")) as [t|e] eqn:Ht;
    [|unfold normalize_item in Hn; rewrite Ht in Hn; discriminate].
  destruct (stripped_field it (lit "url")) as [u|e] eqn:Hu;
    [|unfold normalize_item in Hn; rewrite Ht, Hu in Hn; discriminate].
  destruct (stripped_field it (lit "scraped_at")) as [s|e] eqn:Hs;
    [|unfold normalize_item in Hn; rewrite Ht, Hu, Hs in Hn; discriminate].
  rewrite (normalize_item_gate _ _ _ _ _ _ _ _ _ Ht Hu Hs) in Hn.
  exists t, u. repeat split; [reflexivity..|].
  destruct t; [by left|]. destruct u; [by right|]. discriminate.
Qed.

Lemma bind_str_Ok s s' : bind_str s = Ok s' -> s' = s.
Proof.
  unfold bind_str. destruct (str_encode_utf8 s) as [bs|]; [|discriminate].
  cbn [rbind]. repeat (match goal with |- context [if ?c then _ else _] => destruct c end);
    congruence.
Qed.

Lemma bind_opt_str_Ok o o' : bind_opt_str o = Ok o' -> o' = o.
Proof.
  destruct o as [s|]; simpl; [|congruence].
  destruct (bind_str s) as [s'|] eqn:Hs; [|discriminate].
  apply bind_str_Ok in Hs as ->. simpl. congruence.
Qed.

(** The two ways of counting the bytes of a string agree. *)
Lemma utf8_length_encode s bs :
  str_encode_utf8 s = Ok bs -> N.of_nat (length bs) = utf8_length s.
Proof.
  revert bs. induction s as [|c s IH]; simpl; intros bs Hs.
  - by injection Hs as <-.
  - destruct (utf8_encode_char c) as [b1|] eqn:Hc; [|discriminate].
    cbn [rbind] in Hs.
    destruct (str_encode_utf8 s) as [b2|]; [|discriminate].
    cbn [rbind] in Hs. injection Hs as <-.
    rewrite length_app, Nat2N.inj_add, (IH b2 eq_refl). f_equal.
    unfold utf8_encode_char in Hc. unfold utf8_width.
    destruct (c <? 128)%N; [by injection Hc as <-|].
    destruct (c <? 2048)%N; [by injection Hc as <-|].
    destruct ((55296 <=? c) && (c <=? 57343))%N; [discriminate|].
    destruct (c <? 65536)%N; [by injection Hc as <-|].
    destruct (c <? 1114112)%N; [by injection Hc as <-|discriminate].
Qed.

Lemma bind_int_Ok o o' : bind_int o = Ok o' -> o' = o.
Proof.
  destruct o as [z|]; simpl; [|congruence].
  destruct (in_int64 z); congruence.
Qed.

Lemma bind_params_Ok `{Engine} p c :
  bind_params p = Ok c ->
  platform c = p_platform p /\ title c = p_title p /\ url c = p_url p
  /\ scraped_at c = p_scraped_at p /\ scraped_date c = p_scraped_date p
  /\ heat_value c = p_heat_value p /\ rank c = p_rank p
  /\ tags_text c = p_tags_text p /\ extra_json c = p_extra_json p
  /\ bind_text (p_topic_key p) = Ok (topic_key c)
  /\ bind_text (p_image_url p) = Ok (image_url c)
  /\ bind_text (p_excerpt p) = Ok (excerpt c)
  /\ bind_text (p_heat_text p) = Ok (heat_text c).
Proof.
  unfold bind_params. intros Hb.
  destruct (bind_str (p_platform p)) as [pf|] eqn:Hpf; [|discriminate].
  destruct (bind_text (p_topic_key p)) as [tk|]; [|discriminate].
  destruct (bind_str (p_title p)) as [ti|] eqn:Hti; [|discriminate].
  destruct (bind_str (p_url p)) as [u|] eqn:Hu; [|discriminate].
  destruct (bind_text (p_image_url p)) as [img|]; [|discriminate].
  destruct (bind_text (p_excerpt p)) as [exc|]; [|discriminate].
  destruct (bind_text (p_heat_text p)) as [ht|]; [|discriminate].
  destruct (bind_int (p_heat_value p)) as [hv|] eqn:Hhv; [|discriminate].
  destruct (bind_int (p_rank p)) as [rk|] eqn:Hrk; [|discriminate].
  destruct (bind_opt_str (p_tags_text p)) as [tg|] eqn:Htg; [|discriminate].
  destruct (bind_str (p_scraped_at p)) as [sa|] eqn:Hsa; [|discriminate].
  destruct (bind_str (p_scraped_date p)) as [sd|] eqn:Hsd; [|discriminate].
  destruct (bind_opt_str (p_extra_json p)) as [ej|] eqn:Hej; [|discriminate].
  cbn [rbind] in Hb.
  destruct (row_too_big _); [discriminate|]. injection Hb as <-. simpl.
  apply bind_int_Ok in Hhv, Hrk.
  apply bind_str_Ok in Hpf, Hti, Hu, Hsa, Hsd.
  apply bind_opt_str_Ok in Htg, Hej.
  subst. repeat split; reflexivity.
Qed.

(** C10 (as amended). The stored heat_value is the coercion of the value
    under the key "heat_value" whenever the item has that key, whatever the
    value; the value under "num" is coerced instead only when the item has
    no "heat_value" key. *)
Theorem heat_value_falls_back_to_num `{Engine} :
  forall pf tkf tjf ef now (it : gmap pystr PyVal) p c,
    normalize_item pf tkf tjf ef now it = Ok (Some p) ->
    bind_params p = Ok c ->
    (it !! lit "heat_value" = None ->
       heat_value c = coerce_int (dict_get it (lit "num")))
    /\ (forall v, it !! lit "heat_value" = Some v -> heat_value c = coerce_int v).
Proof.
  intros pf tkf tjf ef now it p c Hn Hb.
  apply normalize_item_Some in Hn
    as (t & u & s & _ & _ & _ & _ & _ & _ & _ & _ & _ & _ & Hhv & _).
  apply bind_params_Ok in Hb as (_ & _ & _ & _ & _ & Hc & _).
  rewrite Hc, Hhv. unfold dict_get_default.
  split.
  - intros ->. reflexivity.
  - intros v ->. reflexivity.
Qed.

Lemma heat_value_falls_back_to_num_witness :
  exists p c,
    @normalize_item example_runtime (lit "weibo") None None [] (example_clock 0)
      (item [(lit "title", PStr (lit "X")); (lit "url", PStr (lit "http://a"));
             (lit "num", PStr (lit "12.5"))]) = Ok (Some p)
    /\ @bind_params example_engine p = Ok c
    /\ heat_value c = Some 12.
Proof.
  eexists. eexists.
  split; [vm_compute; reflexivity|].
  split; [vm_compute; reflexivity|].
  match goal with
  | |- heat_value ?c = _ =>
      destruct (@heat_value_falls_back_to_num example_engine
                  (lit "weibo") None None [] (example_clock 0)
                  (item [(lit "title", PStr (lit "X"));
                         (lit "url", PStr (lit "http://a"));
                         (lit "num", PStr (lit "12.5"))]) _ c
                  ltac:(vm_compute; reflexivity) ltac:(vm_compute; reflexivity))
        as [Habs _]
  end.
  rewrite Habs; vm_compute; reflexivity.
Defined.

(** C10, as stated, fails: heat_value is stored as absent although the
    item has both keys and its "num" coerces to 5. *)
Lemma heat_value_key_shadows_num :
  exists p c,
    @normalize_item example_runtime (lit "weibo") None None [] (example_clock 0)
      shadowed_num_item = Ok (Some p)
    /\ @bind_params example_engine p = Ok c
    /\ heat_value c = None
    /\ ~ ((shadowed_num_item !! lit "heat_value" = None
           /\ shadowed_num_item !! lit "num" = None)
          \/ (coerce_int (dict_get shadowed_num_item (lit "heat_value")) = None
              /\ coerce_int (dict_get shadowed_num_item (lit "num")) = None)).
Proof.
  eexists. eexists.
  split; [vm_compute; reflexivity|].
  split; [vm_compute; reflexivity|].
  split; [reflexivity|].
  intros [[Hk _]|[_ Hc]].
  - vm_compute in Hk. discriminate.
  - vm_compute in Hc. discriminate.
Qed.

(* ===================================================================== *)
(** * Ordering of query results                                           *)
(* ===================================================================== *)

Lemma str_compare_antisym a b : str_compare b a = CompOpp (str_compare a b).
Proof.
  revert b. induction a as [|x a IH]; intros [|y b]; simpl; try reflexivity.
  rewrite (N.compare_antisym x y).
  destruct (x ?= y)%N; simpl; auto.
Qed.

Lemma str_leb_total a b : str_leb a b = true \/ str_leb b a = true.
Proof.
  unfold str_leb. rewrite (str_compare_antisym a b).
  destruct (str_compare a b); simpl; auto.
Qed.

Lemma str_leb_trans a b c :
  str_leb a b = true -> str_leb b c = true -> str_leb a c = true.
Proof.
  unfold str_leb. revert b c.
  induction a as [|x a IH]; intros [|y b] [|z c]; simpl; try congruence.
  destruct (N.compare_spec x y), (N.compare_spec y z), (N.compare_spec x z);
    try congruence; try lia; subst; eauto.
Qed.

Lemma key_leb_total a b : key_leb a b = true \/ key_leb b a = true.
Proof.
  destruct a, b; simpl; auto.
  - destruct (Z.leb_spec z z0), (Z.leb_spec z0 z); auto; lia.
  - apply str_leb_total.
Qed.

Lemma key_leb_trans a b c :
  key_leb a b = true -> key_leb b c = true -> key_leb a c = true.
Proof.
  destruct a, b, c; simpl; try congruence.
  - intros. apply Z.leb_le. apply Z.leb_le in H, H0. lia.
  - apply str_leb_trans.
Qed.

Section Sorting.
Variable le : Row -> Row -> bool.
Hypothesis le_total : forall a b, le a b = true \/ le b a = true.
Hypothesis le_trans : forall a b c, le a b = true -> le b c = true -> le a c = true.

Let R (a b : Row) : Prop := le a b = true.

Lemma insert_sorted_perm r l : insert_sorted le r l ≡ₚ r :: l.
Proof using Type.
  induction l as [|x l IH]; simpl; [done|].
  destruct (le r x); [done|].
  rewrite IH. apply Permutation_swap.
Qed.

Lemma insert_sorted_sorted r l :
  StronglySorted R l -> StronglySorted R (insert_sorted le r l).
Proof using le_total le_trans.
  induction l as [|x l IH]; simpl; intros Hs.
  - repeat constructor.
  - apply StronglySorted_cons in Hs as [Hx Hl].
    destruct (le r x) eqn:Hrx.
    + apply StronglySorted_cons. split.
      * constructor; [exact Hrx|].
        eapply Forall_impl; [exact Hx|]. intros y Hy. eapply le_trans; eauto.
      * apply StronglySorted_cons. auto.
    + apply StronglySorted_cons. split; [|auto].
      rewrite (insert_sorted_perm r l). constructor; [|exact Hx].
      destruct (le_total r x) as [Hc|Hc]; [congruence|exact Hc].
Qed.

Lemma sort_rows_perm l : sort_rows le l ≡ₚ l.
Proof using Type.
  induction l as [|x l IH]; simpl; [done|].
  rewrite insert_sorted_perm. by rewrite IH.
Qed.

Lemma sort_rows_sorted l : StronglySorted R (sort_rows le l).
Proof using le_total le_trans.
  induction l as [|x l IH]; simpl; [constructor|].
  by apply insert_sorted_sorted.
Qed.
End Sorting.

Lemma limit_offset_sorted {A} (R : A -> A -> Prop) limit offset (l : list A) :
  StronglySorted R l -> StronglySorted R (limit_offset limit offset l).
Proof.
  intros Hs. unfold limit_offset.
  assert (Hd : StronglySorted R (drop (Z.to_nat offset) l)).
  { rewrite <- (take_drop (Z.to_nat offset) l) in Hs.
    by apply StronglySorted_app_1_r in Hs. }
  destruct (limit <? 0); [exact Hd|].
  rewrite <- (take_drop (Z.to_nat limit) (drop (Z.to_nat offset) l)) in Hd.
  by apply StronglySorted_app_1_l in Hd.
Qed.

Lemma StronglySorted_map {A B} (R1 : A -> A -> Prop) (R2 : B -> B -> Prop)
    (f : A -> B) (l : list A) :
  (forall a b, R1 a b -> R2 (f a) (f b)) ->
  StronglySorted R1 l -> StronglySorted R2 (map f l).
Proof.
  intros Hf Hs. induction Hs as [|a l Hs IH Ha]; simpl; constructor; [exact IH|].
  apply List.Forall_map. eapply Forall_impl; [exact Ha|]. intros b. apply Hf.
Qed.

Lemma order_rows_sorted `{Engine} (f : Filter) (col : OrderCol) (desc : bool)
    (l : list Row) :
  StronglySorted
    (fun a b => if desc then key_leb (order_key col b) (order_key col a) = true
                else key_leb (order_key col a) (order_key col b) = true)
    (order_rows f col desc l).
Proof.
  unfold order_rows. destruct desc.
  - apply (sort_rows_sorted (fun a b => key_leb (order_key col b) (order_key col a))).
    + intros a b. apply key_leb_total.
    + intros a b c H1 H2. eapply key_leb_trans; eauto.
  - apply (sort_rows_sorted (fun a b => key_leb (order_key col a) (order_key col b))).
    + intros a b. apply key_leb_total.
    + intros a b c H1 H2. eapply key_leb_trans; eauto.
Qed.

Lemma order_rows_perm `{Engine} f col desc l : order_rows f col desc l ≡ₚ l.
Proof.
  unfold order_rows.
  destruct desc; (etransitivity; [apply sort_rows_perm|apply arrange_perm]).
Qed.

Lemma effective_order_allowed order_by :
  order_by ∈ _ALLOWED_ORDERS -> effective_order order_by = order_by.
Proof. intros Hin. unfold effective_order. by rewrite bool_decide_eq_true_2. Qed.

Lemma effective_order_default order_by :
  order_by ∉ _ALLOWED_ORDERS -> effective_order order_by = DEFAULT_ORDER.
Proof. intros Hin. unfold effective_order. by rewrite bool_decide_eq_false_2. Qed.

Lemma default_order_allowed : DEFAULT_ORDER ∈ _ALLOWED_ORDERS.
Proof. unfold _ALLOWED_ORDERS, DEFAULT_ORDER. apply list_elem_of_here. Qed.

Lemma effective_order_in order_by : effective_order order_by ∈ _ALLOWED_ORDERS.
Proof.
  destruct (decide (order_by ∈ _ALLOWED_ORDERS)) as [Hin|Hin].
  - by rewrite effective_order_allowed.
  - rewrite effective_order_default by done. apply default_order_allowed.
Qed.

(** Every clause of the allow-list is one the engine reads. *)
Lemma allowed_order_read clause :
  clause ∈ _ALLOWED_ORDERS -> is_Some (assoc clause order_clauses).
Proof.
  unfold _ALLOWED_ORDERS. rewrite !elem_of_cons, elem_of_nil.
  intros H. repeat (destruct H as [->|H]; [vm_compute; eauto|]). destruct H.
Qed.

(** A LIKE that is evaluated gives the truth value of the match. *)
Lemma sql_like_Ok pattern text b :
  sql_like pattern text = Ok b -> b = like_match_opt pattern text.
Proof. unfold sql_like. destruct (_ <? _)%N; congruence. Qed.

Lemma eval_keyword_Ok f c b : eval_keyword f c = Ok b -> b = keyword_holds f c.
Proof.
  unfold eval_keyword, keyword_holds.
  destruct (keyword f) as [[|k ks]|]; try congruence.
  cbv zeta.
  destruct (sql_like _ (Some (title c))) as [a|] eqn:Ha; [|discriminate].
  apply sql_like_Ok in Ha. simpl in Ha. cbn [rbind].
  destruct a.
  { intros [= <-]. by rewrite <- Ha. }
  rewrite <- Ha.
  destruct (sql_like _ (excerpt c)) as [b'|] eqn:Hb; [|discriminate].
  apply sql_like_Ok in Hb. cbn [rbind].
  destruct b'.
  { intros [= <-]. by rewrite <- Hb. }
  rewrite <- Hb. intros Hu. apply sql_like_Ok in Hu. exact Hu.
Qed.

Lemma eval_where_Ok f r b : eval_where f r = Ok b -> b = where_clause f r.
Proof.
  unfold eval_where, where_clause.
  destruct (platform_holds f (cols r)); simpl; [|congruence].
  destruct (eval_keyword f (cols r)) as [k|] eqn:Hk; [|discriminate].
  apply eval_keyword_Ok in Hk as <-. simpl.
  destruct k; simpl; congruence.
Qed.

(** A search that goes through returns the rows that satisfy the WHERE
    clause, whichever rows the plan passed over. *)
Lemma scan_Ok skips f rs l :
  scan skips f rs = Ok l -> l = filter (where_clause f) rs.
Proof.
  revert l. induction rs as [|r rs IH]; simpl; intros l Hs.
  - by injection Hs as <-.
  - destruct (skips r && negb (dates_hold f (cols r))) eqn:Hskip.
    + apply andb_true_iff in Hskip as [_ Hd]. apply negb_true_iff in Hd.
      rewrite filter_cons_False; [by apply IH|].
      unfold where_clause. rewrite Hd, andb_false_r. by intros [].
    + destruct (eval_where f r) as [b|] eqn:Hb; [|discriminate].
      apply eval_where_Ok in Hb as ->. cbn [rbind] in Hs.
      destruct (scan skips f rs) as [l'|]; [|discriminate].
      cbn [rbind] in Hs. injection Hs as <-. rewrite (IH l' eq_refl).
      destruct (where_clause f r) eqn:Hw.
      * rewrite filter_cons_True; [reflexivity|]. rewrite Hw. exact I.
      * rewrite filter_cons_False; [reflexivity|]. rewrite Hw. by intros [].
Qed.

(** The shape of [query_history]: the clause it runs and the steps of the
    run. *)
Lemma query_history_run `{Engine} f order_by limit offset c :
  exists col desc,
    assoc (effective_order order_by) order_clauses = Some (col, desc)
    /\ query_history f order_by limit offset c =
         (_ <- prepare (N.of_nat (length (filter_params f)) + 2)%N ;;
          _ <- bind_strs (filter_params f) ;;
          if in_int64 limit && in_int64 offset
          then
            if limit =? 0 then Ok []
            else
              rs <- scan (index_skips f (Some (col, desc)) (view c)) f
                      (rows (view c)) ;;
              Ok (map select_cols
                    (limit_offset limit offset (order_rows f col desc rs)))
          else Raise OverflowError).
Proof.
  destruct (allowed_order_read _ (effective_order_in order_by)) as [[col desc] Ha].
  exists col, desc. split; [exact Ha|].
  unfold query_history, run_select. rewrite Ha. cbv zeta.
  destruct (prepare _) as [[]|]; [|reflexivity]. cbn [rbind].
  destruct (bind_strs _) as [[]|]; [|reflexivity]. cbn [rbind].
  destruct (in_int64 limit && in_int64 offset); [|reflexivity].
  destruct (limit =? 0); [reflexivity|].
  by destruct (scan _ f (rows (view c))).
Qed.

(** What [query_history] returns when it returns. *)
Lemma query_history_Ok `{Engine} f order_by limit offset c qs :
  query_history f order_by limit offset c = Ok qs ->
  in_int64 limit = true /\ in_int64 offset = true
  /\ exists col desc,
       assoc (effective_order order_by) order_clauses = Some (col, desc)
       /\ qs = map select_cols
                 (limit_offset limit offset
                    (order_rows f col desc
                       (filter (where_clause f) (rows (view c))))).
Proof.
  destruct (query_history_run f order_by limit offset c) as (col & desc & Ha & ->).
  destruct (prepare _) as [[]|]; [|discriminate]. cbn [rbind].
  destruct (bind_strs _) as [[]|]; [|discriminate]. cbn [rbind].
  destruct (in_int64 limit) eqn:Hl; [|discriminate].
  destruct (in_int64 offset) eqn:Ho; [|discriminate]. simpl.
  intros Hq. split; [reflexivity|]. split; [reflexivity|].
  exists col, desc. split; [exact Ha|].
  destruct (Z.eqb_spec limit 0) as [->|Hne].
  - injection Hq as <-. reflexivity.
  - destruct (scan _ f (rows (view c))) as [rs|] eqn:Hs; [|discriminate].
    apply scan_Ok in Hs as ->. cbn [rbind] in Hq. by injection Hq as <-.
Qed.

(** The rows a search returns: stored rows that satisfy the WHERE clause;
    all of them, each once, when nothing limits the search. *)
Lemma query_history_rows `{Engine} f order_by limit offset c qs :
  query_history f order_by limit offset c = Ok qs ->
  (forall q, q ∈ qs ->
     exists r, r ∈ rows (view c) /\ where_clause f r = true /\ q = select_cols r)
  /\ (limit < 0 -> offset <= 0 ->
        qs ≡ₚ map select_cols (filter (where_clause f) (rows (view c)))).
Proof.
  intros Hq.
  apply query_history_Ok in Hq as (_ & _ & col & desc & _ & ->).
  split.
  - intros q Hin. apply list_elem_of_fmap in Hin as (r & -> & Hin).
    assert (Hsub : r ∈ order_rows f col desc (filter (where_clause f) (rows (view c)))).
    { unfold limit_offset in Hin.
      destruct (limit <? 0);
        [|apply (subseteq_take (Z.to_nat limit)) in Hin];
        by apply (subseteq_drop (Z.to_nat offset)) in Hin. }
    rewrite order_rows_perm in Hsub.
    apply list_elem_of_filter in Hsub as [Hw Hsub].
    exists r. split; [exact Hsub|]. split; [by apply Is_true_true|reflexivity].
  - intros Hl Ho. unfold limit_offset.
    destruct (Z.ltb_spec limit 0); [|lia].
    replace (Z.to_nat offset) with 0%nat by lia. rewrite drop_0.
    apply Permutation_map. apply order_rows_perm.
Qed.

(** What [count_history] returns when it returns. *)
Lemma count_history_Ok `{Engine} f c n :
  count_history f c = Ok n ->
  n = Z.of_nat (length (filter (where_clause f) (rows (view c)))).
Proof.
  unfold count_history. cbv zeta.
  destruct (prepare _) as [[]|]; [|discriminate]. cbn [rbind].
  destruct (bind_strs _) as [[]|]; [|discriminate]. cbn [rbind].
  destruct (scan _ f (rows (view c))) as [rs|] eqn:Hs; [|discriminate].
  apply scan_Ok in Hs as ->. cbn [rbind]. by intros [= <-].
Qed.


(* ===================================================================== *)
(** * Keyword escaping                                                    *)
(* ===================================================================== *)

Lemma escape_like_flat_map s : _escape_like s = flat_map escape_char s.
Proof.
  unfold _escape_like, replace_char.
  induction s as [|x s IH]; [reflexivity|].
  simpl. rewrite !flat_map_app, IH. f_equal.
  unfold escape_char, BACKSLASH, PERCENT, UNDERSCORE.
  destruct (N.eqb_spec x 92) as [->|H1]; [reflexivity|].
  destruct (N.eqb_spec x 37) as [->|H2]; [reflexivity|].
  destruct (N.eqb_spec x 95) as [->|H3]; [reflexivity|].
  simpl.
  destruct (N.eqb_spec x 37); [congruence|]. simpl.
  destruct (N.eqb_spec x 95); [congruence|]. reflexivity.
Qed.






Lemma escape_char_no_nul x : x <> 0%N -> c_str (escape_char x) = escape_char x.
Proof.
  intros Hx. unfold escape_char, c_str, BACKSLASH.
  destruct ((x =? 92) || (x =? PERCENT) || (x =? UNDERSCORE))%N; simpl;
    destruct (N.eqb_spec x 0); try congruence; reflexivity.
Qed.











(* ===================================================================== *)
(** * The upsert statement                                                *)
(* ===================================================================== *)

Lemma do_update_set_key r ex : row_key (do_update_set r ex) = row_key r.
Proof. reflexivity. Qed.

Lemma do_update_set_cols r ex :
  row_key r = key_of ex -> cols (do_update_set r ex) = ex.
Proof.
  destruct ex. unfold row_key, key_of, do_update_set. simpl.
  intros [= -> -> ->]. reflexivity.
Qed.

Lemma do_update_set_eq r ex :
  row_key r = key_of ex -> do_update_set r ex = {| id := id r; cols := ex |}.
Proof.
  intros Hk. pose proof (do_update_set_cols r ex Hk) as Hc.
  unfold do_update_set in *. simpl in Hc. by rewrite Hc.
Qed.

Lemma update_conflict_None ex l :
  update_conflict ex l = None <-> Forall (fun r => row_key r <> key_of ex) l.
Proof.
  induction l as [|r l IH]; simpl.
  - split; [constructor|reflexivity].
  - destruct (decide (row_key r = key_of ex)) as [Heq|Hne].
    + split; [discriminate|]. intros Hf. inversion Hf; subst. contradiction.
    + destruct (update_conflict ex l) as [l'|].
      * split; [discriminate|]. intros Hf. inversion Hf; subst.
        apply IH in H2. discriminate.
      * split; [|reflexivity]. intros _. constructor; [exact Hne|]. by apply IH.
Qed.

Lemma update_conflict_Some ex l l' :
  update_conflict ex l = Some l' ->
  exists before r after,
    l = before ++ r :: after
    /\ Forall (fun x => row_key x <> key_of ex) before
    /\ row_key r = key_of ex
    /\ l' = before ++ do_update_set r ex :: after.
Proof.
  revert l'. induction l as [|x l IH]; simpl; intros l' Hu; [discriminate|].
  destruct (decide (row_key x = key_of ex)) as [Heq|Hne].
  - injection Hu as <-. exists [], x, l. repeat split; [constructor|exact Heq].
  - destruct (update_conflict ex l) as [l''|]; [|discriminate].
    injection Hu as <-.
    destruct (IH l'' eq_refl) as (before & r & after & -> & Hb & Hr & ->).
    exists (x :: before), r, after. repeat split; [by constructor|exact Hr].
Qed.

(** The keys after one upsert: unchanged on a conflict, one more at the
    end otherwise. *)
Lemma exec_upsert_keys t ex :
  map row_key (rows (exec_upsert t ex)) =
    if bool_decide (key_of ex ∈ map row_key (rows t))
    then map row_key (rows t)
    else map row_key (rows t) ++ [key_of ex].
Proof.
  unfold exec_upsert.
  destruct (update_conflict ex (rows t)) as [l'|] eqn:Hu.
  - apply update_conflict_Some in Hu as (before & r & after & Hl & _ & Hr & ->).
    simpl. rewrite Hl. rewrite bool_decide_eq_true_2.
    + rewrite !map_app. reflexivity.
    + rewrite map_app, elem_of_app. right. simpl. rewrite <- Hr. apply list_elem_of_here.
  - apply update_conflict_None in Hu. simpl.
    rewrite bool_decide_eq_false_2.
    + by rewrite map_app.
    + intros Hin. apply list_elem_of_fmap in Hin as (r & Hr & Hin).
      rewrite Forall_forall in Hu. by apply (Hu r).
Qed.

Lemma exec_upsert_unique t ex : unique_keys t -> unique_keys (exec_upsert t ex).
Proof.
  unfold unique_keys. intros Hu. rewrite exec_upsert_keys.
  case_bool_decide as Hin; [exact Hu|].
  apply NoDup_app. split; [exact Hu|]. split.
  - intros k Hk Hk'. apply list_elem_of_singleton in Hk'. by subst.
  - apply NoDup_singleton.
Qed.

(** With unique keys, the row that conflicts is the row that carries the
    key, and it is rewritten where it stands. *)
Lemma exec_upsert_in_place t ex r :
  unique_keys t -> r ∈ rows t -> row_key r = key_of ex ->
  exists before after,
    rows t = before ++ r :: after
    /\ rows (exec_upsert t ex) = before ++ {| id := id r; cols := ex |} :: after.
Proof.
  intros Hu Hin Hk. unfold exec_upsert.
  destruct (update_conflict ex (rows t)) as [l'|] eqn:Hc.
  - apply update_conflict_Some in Hc as (before & r0 & after & Hl & _ & Hr0 & ->).
    assert (r0 = r) as ->.
    { unfold unique_keys in Hu.
      assert (Hin0 : r0 ∈ rows t) by (rewrite Hl, elem_of_app; right; apply list_elem_of_here).
      apply list_elem_of_lookup in Hin as [i Hi].
      apply list_elem_of_lookup in Hin0 as [j Hj].
      assert (i = j) as ->.
      { eapply NoDup_lookup; [exact Hu| |].
        - rewrite list_lookup_fmap, Hi. reflexivity.
        - rewrite list_lookup_fmap, Hj. simpl. by rewrite Hr0, Hk. }
      congruence. }
    exists before, after. split; [exact Hl|]. simpl.
    f_equal. f_equal. by apply do_update_set_eq.
  - apply update_conflict_None in Hc. rewrite Forall_forall in Hc.
    by destruct (Hc r Hin).
Qed.

(** An upsert leaves the rows of other keys as they are. *)
Lemma exec_upsert_other t ex r :
  r ∈ rows t -> row_key r <> key_of ex -> r ∈ rows (exec_upsert t ex).
Proof.
  intros Hin Hne. unfold exec_upsert.
  destruct (update_conflict ex (rows t)) as [l'|] eqn:Hc; simpl.
  - apply update_conflict_Some in Hc as (before & r0 & after & Hl & _ & Hr0 & ->).
    rewrite Hl in Hin. rewrite elem_of_app, elem_of_cons in Hin.
    rewrite elem_of_app, elem_of_cons.
    destruct Hin as [Hin|[->|Hin]]; auto. congruence.
  - rewrite elem_of_app. by left.
Qed.

(** After an upsert a row holds exactly the supplied columns. *)
Lemma exec_upsert_stored t ex :
  exists r, r ∈ rows (exec_upsert t ex) /\ cols r = ex.
Proof.
  unfold exec_upsert.
  destruct (update_conflict ex (rows t)) as [l'|] eqn:Hc; simpl.
  - apply update_conflict_Some in Hc as (before & r0 & after & Hl & _ & Hr0 & ->).
    exists (do_update_set r0 ex). split.
    + rewrite elem_of_app. right. apply list_elem_of_here.
    + by apply do_update_set_cols.
  - eexists. split; [rewrite elem_of_app; right; apply list_elem_of_here|reflexivity].
Qed.

Lemma fold_upsert_unique cs t :
  unique_keys t -> unique_keys (fold_left exec_upsert cs t).
Proof.
  revert t. induction cs as [|x cs IH]; simpl; intros t Hu; [exact Hu|].
  by apply IH, exec_upsert_unique.
Qed.

Lemma fold_upsert_other cs t r :
  r ∈ rows t -> Forall (fun y => key_of y <> row_key r) cs ->
  r ∈ rows (fold_left exec_upsert cs t).
Proof.
  revert t. induction cs as [|x cs IH]; simpl; intros t Hin Hf; [exact Hin|].
  inversion Hf; subst. apply IH; [|assumption].
  apply exec_upsert_other; [exact Hin|congruence].
Qed.

(** Last write wins: the last tuple of a run of upserts that carries a key
    is what the table holds for that key. *)
Lemma fold_upsert_last cs t x :
  last_with_key cs x ->
  exists r, r ∈ rows (fold_left exec_upsert cs t) /\ cols r = x.
Proof.
  intros (l1 & l2 & -> & Hl2).
  rewrite fold_left_app. simpl.
  destruct (exec_upsert_stored (fold_left exec_upsert l1 t) x) as (r & Hin & Hc).
  exists r. split; [|exact Hc].
  apply fold_upsert_other; [exact Hin|].
  unfold row_key. by rewrite Hc.
Qed.

Lemma unique_keys_row t r r' :
  unique_keys t -> r ∈ rows t -> r' ∈ rows t -> row_key r' = row_key r -> r' = r.
Proof.
  unfold unique_keys. intros Hu Hin Hin' Hk.
  apply list_elem_of_lookup in Hin as [i Hi].
  apply list_elem_of_lookup in Hin' as [j Hj].
  assert (j = i) as ->; [|congruence].
  eapply NoDup_lookup; [exact Hu| |].
  - rewrite list_lookup_fmap, Hj. reflexivity.
  - rewrite list_lookup_fmap, Hi. simpl. by rewrite Hk.
Qed.

(* ===================================================================== *)
(** * executemany and upsert_history                                      *)
(* ===================================================================== *)

Lemma executemany_durable `{Engine} ps c :
  durable (executemany ps c).1 = durable c.
Proof.
  revert c. induction ps as [|p ps IH]; intros c; simpl; [reflexivity|].
  destruct (bind_params p) as [ex|e]; [|reflexivity].
  specialize (IH {| durable := durable c; view := exec_upsert (view c) ex |}).
  destruct (executemany ps _) as [c'' r]. exact IH.
Qed.

(** What ran before a fault, or the whole batch, as a run of upserts. *)
Lemma executemany_view `{Engine} ps c :
  exists cs, view (executemany ps c).1 = fold_left exec_upsert cs (view c)
             /\ Forall (fun ex => exists p, p ∈ ps /\ bind_params p = Ok ex) cs.
Proof.
  revert c. induction ps as [|p ps IH]; intros c; simpl.
  - exists []. split; [reflexivity|constructor].
  - destruct (bind_params p) as [ex|e] eqn:Hb.
    + destruct (IH {| durable := durable c; view := exec_upsert (view c) ex |})
        as (cs & Hv & Hf).
      destruct (executemany ps _) as [c'' r]. simpl in *.
      exists (ex :: cs). split; [exact Hv|].
      constructor.
      * exists p. split; [apply list_elem_of_here|exact Hb].
      * eapply Forall_impl; [exact Hf|]. intros y (q & Hq & Hbq).
        exists q. split; [by apply list_elem_of_further|exact Hbq].
    + exists []. split; [reflexivity|constructor].
Qed.

(** A batch that runs to its end is the run of all its upserts. *)
Lemma executemany_Ok `{Engine} ps c c' n :
  executemany ps c = (c', Ok n) ->
  exists cs, Forall2 (fun p ex => bind_params p = Ok ex) ps cs
             /\ view c' = fold_left exec_upsert cs (view c)
             /\ durable c' = durable c
             /\ n = Z.of_nat (length ps).
Proof.
  revert c c' n. induction ps as [|p ps IH]; intros c c' n; simpl.
  - intros [= <- <-]. exists []. repeat split. constructor.
  - destruct (bind_params p) as [ex|e] eqn:Hb; [|discriminate].
    destruct (executemany ps _) as [c'' r] eqn:He.
    destruct r as [m|e]; simpl; [|discriminate].
    intros [= <- <-].
    destruct (IH _ _ _ He) as (cs & Hf & Hv & Hd & ->).
    exists (ex :: cs). repeat split; [by constructor|exact Hv|exact Hd|lia].
Qed.

(** A batch stopped by a fault: nothing is committed by the call. *)
Lemma executemany_Raise `{Engine} ps c c' e :
  executemany ps c = (c', Raise e) -> durable c' = durable c.
Proof.
  intros He. pose proof (executemany_durable ps c) as Hd.
  by rewrite He in Hd.
Qed.

Lemma build_rows_Ok `{Runtime} pf tkf tjf ef clock i items ps :
  build_rows pf tkf tjf ef clock i items = Ok ps ->
  Forall (fun p => exists now it,
            it ∈ items /\ normalize_item pf tkf tjf ef now it = Ok (Some p)) ps.
Proof.
  revert i ps. induction items as [|it items IH]; simpl; intros i ps Hb.
  - injection Hb as <-. constructor.
  - destruct (normalize_item pf tkf tjf ef (clock i) it) as [o|e] eqn:Hn;
      [|discriminate]. simpl in Hb.
    destruct (build_rows pf tkf tjf ef clock (S i) items) as [ps'|e] eqn:Hr;
      [|discriminate]. simpl in Hb. injection Hb as <-.
    specialize (IH _ _ Hr).
    assert (Hrest : Forall (fun p => exists now it0,
                it0 ∈ it :: items /\ normalize_item pf tkf tjf ef now it0 = Ok (Some p)) ps').
    { eapply Forall_impl; [exact IH|]. intros p (now & it0 & Hin & Hp).
      exists now, it0. split; [by apply list_elem_of_further|exact Hp]. }
    destruct o as [p|]; [|exact Hrest].
    constructor; [|exact Hrest].
    exists (clock i), it. split; [apply list_elem_of_here|exact Hn].
Qed.

(** The shape of every outcome of [upsert_history]. *)
Lemma upsert_history_cases `{Engine} pf items tkf tjf ef clock c :
  let efl := match ef with Some l => l | None => [] end in
  (exists e, build_rows pf tkf tjf efl clock 0 items = Raise e
             /\ upsert_history pf items tkf tjf ef clock c = (c, Raise e))
  \/ (build_rows pf tkf tjf efl clock 0 items = Ok []
      /\ upsert_history pf items tkf tjf ef clock c = (c, Ok 0))
  \/ (exists ps c' e,
        build_rows pf tkf tjf efl clock 0 items = Ok ps /\ ps <> []
        /\ executemany ps c = (c', Raise e)
        /\ upsert_history pf items tkf tjf ef clock c = (c', Raise e))
  \/ (exists ps c' n,
        build_rows pf tkf tjf efl clock 0 items = Ok ps /\ ps <> []
        /\ executemany ps c = (c', Ok n)
        /\ upsert_history pf items tkf tjf ef clock c = (commit c', Ok n)).
Proof.
  intros efl. unfold upsert_history. fold efl.
  destruct (build_rows pf tkf tjf efl clock 0 items) as [ps|e] eqn:Hb.
  - destruct ps as [|p ps]; [right; left; done|].
    cbn [is_nil].
    destruct (executemany (p :: ps) c) as [c' [n|e]] eqn:He.
    + right. right. right. exists (p :: ps), c', n. done.
    + right. right. left. exists (p :: ps), c', e. done.
  - left. exists e. done.
Qed.

Lemma upsert_history_unique `{Engine} pf items tkf tjf ef clock c :
  unique_keys (durable c) -> unique_keys (view c) ->
  unique_keys (durable (upsert_history pf items tkf tjf ef clock c).1)
  /\ unique_keys (view (upsert_history pf items tkf tjf ef clock c).1).
Proof.
  intros Hd Hv.
  destruct (upsert_history_cases pf items tkf tjf ef clock c)
    as [(e & _ & ->)|[(_ & ->)|[(ps & c' & e & _ & _ & He & ->)
                               |(ps & c' & n & _ & _ & He & ->)]]];
    simpl; auto.
  - destruct (executemany_view ps c) as (cs & Hview & _).
    pose proof (executemany_durable ps c) as Hdur.
    rewrite He in Hview, Hdur. simpl in *.
    rewrite Hdur, Hview. split; [exact Hd|by apply fold_upsert_unique].
  - destruct (executemany_view ps c) as (cs & Hview & _).
    rewrite He in Hview. simpl in *.
    rewrite Hview. split; by apply fold_upsert_unique.
Qed.

Lemma run_calls_unique `{Engine} ks c :
  unique_keys (durable c) -> unique_keys (view c) ->
  unique_keys (durable (run_calls ks c)) /\ unique_keys (view (run_calls ks c)).
Proof.
  revert c. induction ks as [|k ks IH]; intros c Hd Hv; simpl; [auto|].
  unfold run_calls in *. simpl.
  apply IH; by apply upsert_history_unique.
Qed.

(** A property of rows that every written tuple has and that the update
    keeps holds of every row, whatever calls are made. *)
Section RowInvariant.
Context `{Engine}.
Variable Q : Row -> Prop.
Variable G : Cols -> Prop.
Hypothesis Q_insert : forall i ex, G ex -> Q {| id := i; cols := ex |}.
Hypothesis Q_update :
  forall r ex, G ex -> Q r -> row_key r = key_of ex -> Q (do_update_set r ex).
Hypothesis G_normalized :
  forall pf tkf tjf ef now it p ex,
    normalize_item pf tkf tjf ef now it = Ok (Some p) ->
    bind_params p = Ok ex -> G ex.

Lemma exec_upsert_rows t ex :
  G ex -> Forall Q (rows t) -> Forall Q (rows (exec_upsert t ex)).
Proof using Q_insert Q_update.
  intros Hg Hq. unfold exec_upsert.
  destruct (update_conflict ex (rows t)) as [l'|] eqn:Hc; simpl.
  - apply update_conflict_Some in Hc as (before & r & after & Hl & _ & Hr & ->).
    rewrite Hl in Hq. apply Forall_app in Hq as [Hb Hra].
    apply Forall_cons in Hra as [Hqr Ha].
    apply Forall_app. split; [exact Hb|].
    constructor; [by apply Q_update|exact Ha].
  - apply Forall_app. split; [exact Hq|].
    constructor; [by apply Q_insert|constructor].
Qed.

Lemma fold_upsert_rows cs t :
  Forall G cs -> Forall Q (rows t) -> Forall Q (rows (fold_left exec_upsert cs t)).
Proof using Q_insert Q_update.
  revert t. induction cs as [|x cs IH]; simpl; intros t Hg Hq; [exact Hq|].
  inversion Hg; subst. apply IH; [assumption|]. by apply exec_upsert_rows.
Qed.

Lemma upsert_history_rows pf items tkf tjf ef clock c :
  Forall Q (rows (durable c)) -> Forall Q (rows (view c)) ->
  Forall Q (rows (durable (upsert_history pf items tkf tjf ef clock c).1))
  /\ Forall Q (rows (view (upsert_history pf items tkf tjf ef clock c).1)).
Proof using Q_insert Q_update G_normalized.
  intros Hd Hv.
  assert (Hbatch : forall ps c',
             build_rows pf tkf tjf (match ef with Some l => l | None => [] end)
               clock 0 items = Ok ps ->
             c' = (executemany ps c).1 ->
             Forall Q (rows (view c'))).
  { intros ps c' Hb ->.
    destruct (executemany_view ps c) as (cs & -> & Hcs).
    apply fold_upsert_rows; [|exact Hv].
    apply build_rows_Ok in Hb. rewrite Forall_forall in Hb.
    eapply Forall_impl; [exact Hcs|]. intros ex (p & Hp & Hbind).
    destruct (Hb p Hp) as (now & it & _ & Hn).
    eapply G_normalized; eauto. }
  destruct (upsert_history_cases pf items tkf tjf ef clock c)
    as [(e & _ & ->)|[(_ & ->)|[(ps & c' & e & Hb & _ & He & ->)
                               |(ps & c' & n & Hb & _ & He & ->)]]];
    simpl; auto.
  - pose proof (executemany_durable ps c) as Hdur.
    rewrite He in Hdur. simpl in Hdur. rewrite Hdur.
    split; [exact Hd|]. apply (Hbatch ps); [exact Hb|by rewrite He].
  - assert (Forall Q (rows (view c'))) by (apply (Hbatch ps); [exact Hb|by rewrite He]).
    auto.
Qed.

Lemma run_calls_rows ks c :
  Forall Q (rows (durable c)) -> Forall Q (rows (view c)) ->
  Forall Q (rows (durable (run_calls ks c)))
  /\ Forall Q (rows (view (run_calls ks c))).
Proof using Q_insert Q_update G_normalized.
  revert c. induction ks as [|k ks IH]; intros c Hd Hv; simpl; [auto|].
  unfold run_calls in *. simpl.
  apply IH; by apply upsert_history_rows.
Qed.
End RowInvariant.

Lemma upsert_history_single `{Engine} pf it tkf tjf ef clock c p ex :
  normalize_item pf tkf tjf (match ef with Some l => l | None => [] end)
    (clock 0%nat) it = Ok (Some p) ->
  bind_params p = Ok ex ->
  upsert_history pf [it] tkf tjf ef clock c =
    ({| durable := exec_upsert (view c) ex; view := exec_upsert (view c) ex |}, Ok 1).
Proof.
  intros Hn Hb. unfold upsert_history. simpl. rewrite Hn. simpl. rewrite Hb.
  reflexivity.
Qed.

(** C1. Whatever upsert_history calls are made on a connection, the table
    holds at most one row per (platform, url, scraped_date), committed or
    not. An upsert of a record whose triple is that of a stored row rewrites
    that row where it stands: the surrogate id stays, every column takes the
    value of the new record, and the table has no more rows than before. *)
Theorem one_row_per_key `{Engine} :
  (forall ks c,
      unique_keys (durable c) -> unique_keys (view c) ->
      unique_keys (durable (run_calls ks c)) /\ unique_keys (view (run_calls ks c)))
  /\ (forall pf it tkf tjf ef clock c p ex r,
        normalize_item pf tkf tjf (match ef with Some l => l | None => [] end)
          (clock 0%nat) it = Ok (Some p) ->
        bind_params p = Ok ex ->
        unique_keys (view c) -> r ∈ rows (view c) -> row_key r = key_of ex ->
        exists before after c',
          rows (view c) = before ++ r :: after
          /\ upsert_history pf [it] tkf tjf ef clock c = (c', Ok 1)
          /\ rows (view c') = before ++ {| id := id r; cols := ex |} :: after
          /\ durable c' = view c').
Proof.
  split; [intros ks c; apply run_calls_unique|].
  intros pf it tkf tjf ef clock c p ex r Hn Hb Hu Hin Hk.
  destruct (exec_upsert_in_place (view c) ex r Hu Hin Hk) as (before & after & Hl & Hl').
  exists before, after. eexists.
  split; [exact Hl|].
  split; [by apply upsert_history_single with (p := p)|].
  split; [exact Hl'|reflexivity].
Qed.

(* ===================================================================== *)
(** * Timestamps                                                          *)
(* ===================================================================== *)

Lemma digit_char_not_space n : (digit_char n =? 32)%N = false.
Proof.
  apply N.eqb_neq. unfold digit_char.
  generalize (n mod 10)%N. intros m. lia.
Qed.

Lemma strftime_split now : split_space_head (strftime now) = strftime_date now.
Proof.
  unfold split_space_head, strftime, strftime_date, four_digits, two_digits.
  simpl. rewrite !digit_char_not_space. simpl. reflexivity.
Qed.

Lemma py_strip_nil : py_strip [] = [].
Proof. reflexivity. Qed.

Lemma blank_field_stripped it k : blank_field it k -> stripped_field it k = Ok [].
Proof.
  unfold blank_field, stripped_field, py_or.
  intros [-> | (s & -> & Hs)]; [reflexivity|].
  simpl. destruct s; simpl; [reflexivity|]. by rewrite Hs.
Qed.

Lemma stripped_blank_field it k : stripped_field it k = Ok [] -> blank_field it k.
Proof.
  unfold blank_field, stripped_field, py_or.
  destruct (truthy (dict_get it k)) eqn:Ht; [|by left].
  destruct (dict_get it k) as [|b|z|f|s|l|l|kv]; simpl; try discriminate.
  intros [= Hs]. right. by exists s.
Qed.

Lemma trimmable_stripped it k :
  trimmable it k <-> exists s, stripped_field it k = Ok s.
Proof.
  unfold trimmable, stripped_field, py_or.
  destruct (dict_get it k) as [|b|z|f|s|l|l|kv]; simpl.
  all: try match goal with |- context [if ?c then _ else _] => destruct c end; simpl.
  all: split; [intros Hh; try discriminate Hh; eauto
              |intros [s' Hs']; try discriminate Hs'; auto].
Qed.

Lemma untrimmable_raises it k :
  ~ trimmable it k -> stripped_field it k = Raise AttributeError.
Proof.
  intros Hn.
  destruct (stripped_field it k) as [s|e] eqn:Hs.
  - exfalso. apply Hn, trimmable_stripped. by exists s.
  - unfold stripped_field, strip_method in Hs.
    destruct (py_or _ _); congruence.
Qed.

Lemma stripped_field_Raise it k e :
  stripped_field it k = Raise e -> e = AttributeError.
Proof.
  unfold stripped_field, strip_method. destruct (py_or _ _); congruence.
Qed.

(** C3. In every row a run of upsert_history calls leaves in the table,
    scraped_date is the part of scraped_at before its first space. A raw
    item that becomes a record and supplies no scraped_at (absent, None,
    another empty value, or blank once trimmed) gets the wall clock,
    formatted to the second, as its scraped_at, and the date of that as its
    scraped_date. *)
Theorem scraped_date_is_date_of_scraped_at `{Engine} :
  (forall ks c,
      date_consistent (durable c) -> date_consistent (view c) ->
      date_consistent (durable (run_calls ks c))
      /\ date_consistent (view (run_calls ks c)))
  /\ (forall pf tkf tjf ef now it p,
        normalize_item pf tkf tjf ef now it = Ok (Some p) ->
        p_scraped_date p = split_space_head (p_scraped_at p)
        /\ (blank_field it (lit "scraped_at") ->
              p_scraped_at p = strftime now
              /\ p_scraped_date p = strftime_date now)).
Proof.
  split.
  - intros ks c. unfold date_consistent.
    apply (run_calls_rows _
             (fun ex => scraped_date ex = split_space_head (scraped_at ex))).
    + intros i ex Hg. exact Hg.
    + intros r ex Hg _ Hk. simpl.
      unfold row_key, key_of in Hk. injection Hk as _ _ ->. exact Hg.
    + intros pf tkf tjf ef now it p ex Hn Hb.
      apply normalize_item_Some in Hn
        as (t & u & s & _ & _ & _ & _ & _ & _ & _ & _ & _ & Hd & _).
      apply bind_params_Ok in Hb as (_ & _ & _ & -> & -> & _). exact Hd.
  - intros pf tkf tjf ef now it p Hn.
    apply normalize_item_Some in Hn
      as (t & u & s & _ & _ & Hs & _ & _ & _ & _ & _ & Hat & Hd & _).
    split; [exact Hd|].
    intros Hblank. apply blank_field_stripped in Hblank.
    rewrite Hblank in Hs. injection Hs as <-. simpl in Hat.
    split; [exact Hat|]. rewrite Hd, Hat. apply strftime_split.
Qed.

(* ===================================================================== *)
(** * The required-field gate                                             *)
(* ===================================================================== *)

Lemma py_strip_nonblank_head s x l : py_strip s = x :: l -> py_strip s <> [].
Proof. congruence. Qed.

(** The only exception the loop body raises is the one of a value without
    [strip]. *)
Lemma normalize_item_Raise `{Runtime} pf tkf tjf ef now it e :
  normalize_item pf tkf tjf ef now it = Raise e -> e = AttributeError.
Proof.
  intros Hn.
  destruct (stripped_field it (lit "title")) as [t|e'] eqn:Ht.
  2:{ unfold normalize_item in Hn. rewrite Ht in Hn.
      apply stripped_field_Raise in Ht. simpl in Hn. congruence. }
  destruct (stripped_field it (lit "url")) as [u|e'] eqn:Hu.
  2:{ unfold normalize_item in Hn. rewrite Ht, Hu in Hn.
      apply stripped_field_Raise in Hu. simpl in Hn. congruence. }
  destruct (stripped_field it (lit "scraped_at")) as [s|e'] eqn:Hs.
  2:{ unfold normalize_item in Hn. rewrite Ht, Hu, Hs in Hn.
      apply stripped_field_Raise in Hs. simpl in Hn. congruence. }
  rewrite (normalize_item_gate _ _ _ _ _ _ _ _ _ Ht Hu Hs) in Hn.
  destruct (is_nil t || is_nil u); discriminate.
Qed.

Lemma build_rows_untrimmable `{Runtime} pf tkf tjf ef clock items it :
  it ∈ items ->
  normalize_item pf tkf tjf ef (clock 0%nat) it = Raise AttributeError ->
  (forall now now', normalize_item pf tkf tjf ef now it
                    = Raise AttributeError ->
                    normalize_item pf tkf tjf ef now' it = Raise AttributeError) ->
  forall i, build_rows pf tkf tjf ef clock i items = Raise AttributeError.
Proof.
  intros Hin H0 Hany. induction items as [|a items IH]; intros i.
  - by apply elem_of_nil in Hin.
  - simpl.
    destruct (normalize_item pf tkf tjf ef (clock i) a) as [o|e] eqn:Hn.
    + cbn [rbind]. apply elem_of_cons in Hin as [->|Hin].
      * rewrite (Hany _ (clock i) H0) in Hn. discriminate.
      * by rewrite (IH Hin (S i)).
    + apply normalize_item_Raise in Hn as ->. reflexivity.
Qed.

(** C2 (as amended). A raw item is skipped, raising nothing and adding no
    tuple to the batch, exactly when its title, url and scraped_at are each
    a string or an empty value (absent, None, 0, 0.0, False, an empty
    container) and its title or its url is empty or blank once trimmed. An
    item that carries a non-zero number, True, or a non-empty list, tuple or
    dict under one of the three keys raises AttributeError, and a batch that
    holds such an item makes the call raise AttributeError before anything
    is written. Whatever calls are made, no row of the table has an empty
    title or an empty url. *)
Theorem blank_title_or_url_is_skipped `{Engine} :
  (forall pf tkf tjf ef now it,
      normalize_item pf tkf tjf ef now it = Ok None <->
      trimmable it (lit "title") /\ trimmable it (lit "url")
      /\ trimmable it (lit "scraped_at")
      /\ (blank_field it (lit "title") \/ blank_field it (lit "url")))
  /\ (forall pf tkf tjf ef clock i it items,
        normalize_item pf tkf tjf ef (clock i) it = Ok None ->
        build_rows pf tkf tjf ef clock i (it :: items) =
          build_rows pf tkf tjf ef clock (S i) items)
  /\ (forall pf tkf tjf ef now it,
        ~ trimmable it (lit "title") \/ ~ trimmable it (lit "url")
        \/ ~ trimmable it (lit "scraped_at") ->
        normalize_item pf tkf tjf ef now it = Raise AttributeError)
  /\ (forall pf items tkf tjf ef clock c e,
        build_rows pf tkf tjf (match ef with Some l => l | None => [] end)
          clock 0 items = Raise e ->
        upsert_history pf items tkf tjf ef clock c = (c, Raise e))
  /\ (forall pf items tkf tjf ef clock c it,
        it ∈ items ->
        ~ trimmable it (lit "title") \/ ~ trimmable it (lit "url")
        \/ ~ trimmable it (lit "scraped_at") ->
        upsert_history pf items tkf tjf ef clock c = (c, Raise AttributeError))
  /\ (forall ks c,
        titled (durable c) -> titled (view c) ->
        titled (durable (run_calls ks c)) /\ titled (view (run_calls ks c))).
Proof.
  assert (Hraise : forall pf tkf tjf ef now it,
             ~ trimmable it (lit "title") \/ ~ trimmable it (lit "url")
             \/ ~ trimmable it (lit "scraped_at") ->
             normalize_item pf tkf tjf ef now it = Raise AttributeError).
  { intros pf tkf tjf ef now it Hbad. unfold normalize_item.
    destruct (stripped_field it (lit "title")) as [t|e] eqn:Ht;
      [|by apply stripped_field_Raise in Ht as ->].
    destruct (stripped_field it (lit "url")) as [u|e] eqn:Hu;
      [|by apply stripped_field_Raise in Hu as ->].
    destruct (stripped_field it (lit "scraped_at")) as [s|e] eqn:Hs;
      [|by apply stripped_field_Raise in Hs as ->].
    exfalso.
    destruct Hbad as [Hbad|[Hbad|Hbad]]; apply Hbad, trimmable_stripped; eauto. }
  split; [|split; [|split; [exact Hraise|split; [|split;
    [|intros ks c Hd Hv; split]]]]].
  - intros pf tkf tjf ef now it. split; [intros Hn|].
    destruct (stripped_field it (lit "title")) as [t|e] eqn:Ht;
      [|unfold normalize_item in Hn; rewrite Ht in Hn; discriminate].
    destruct (stripped_field it (lit "url")) as [u|e] eqn:Hu;
      [|unfold normalize_item in Hn; rewrite Ht, Hu in Hn; discriminate].
    destruct (stripped_field it (lit "scraped_at")) as [s|e] eqn:Hs;
      [|unfold normalize_item in Hn; rewrite Ht, Hu, Hs in Hn; discriminate].
    rewrite (normalize_item_gate _ _ _ _ _ _ _ _ _ Ht Hu Hs) in Hn.
    split; [apply trimmable_stripped; eauto|].
    split; [apply trimmable_stripped; eauto|].
    split; [apply trimmable_stripped; eauto|].
    destruct t as [|x t]; [left; by apply stripped_blank_field|].
    destruct u as [|y u]; [right; by apply stripped_blank_field|].
    discriminate.
    intros (Ht & Hu & Hs & Hblank).
    apply trimmable_stripped in Ht as [t Ht], Hu as [u Hu], Hs as [s Hs].
    rewrite (normalize_item_gate _ _ _ _ _ _ _ _ _ Ht Hu Hs).
    destruct Hblank as [Hb|Hb]; apply blank_field_stripped in Hb.
    + rewrite Hb in Ht. injection Ht as <-. reflexivity.
    + rewrite Hb in Hu. injection Hu as <-. simpl. by rewrite orb_true_r.
  - intros pf tkf tjf ef clock i it items Hn. simpl. rewrite Hn. simpl.
    by destruct (build_rows pf tkf tjf ef clock (S i) items).
  - intros pf items tkf tjf ef clock c e Hb. unfold upsert_history. by rewrite Hb.
  - intros pf items tkf tjf ef clock c it Hin Hbad.
    unfold upsert_history.
    rewrite (build_rows_untrimmable pf tkf tjf _ clock items it Hin);
      [reflexivity|by apply Hraise|].
    intros now now' _. by apply Hraise.
  - apply (run_calls_rows _ (fun ex => title ex <> [] /\ url ex <> [])); try assumption.
    + intros i ex Hg. exact Hg.
    + intros r ex [Hg1 Hg2] _ Hk. simpl. split; [exact Hg1|].
      unfold row_key, key_of in Hk. injection Hk as _ -> _. exact Hg2.
    + intros pf tkf tjf ef now it p ex Hn Hb.
      apply normalize_item_Some in Hn
        as (t & u & s & _ & _ & _ & Hnt & Hnu & _ & Ht & Hu & _).
      apply bind_params_Ok in Hb as (_ & -> & -> & _). by rewrite Ht, Hu.
  - apply (run_calls_rows _ (fun ex => title ex <> [] /\ url ex <> [])); try assumption.
    + intros i ex Hg. exact Hg.
    + intros r ex [Hg1 Hg2] _ Hk. simpl. split; [exact Hg1|].
      unfold row_key, key_of in Hk. injection Hk as _ -> _. exact Hg2.
    + intros pf tkf tjf ef now it p ex Hn Hb.
      apply normalize_item_Some in Hn
        as (t & u & s & _ & _ & _ & Hnt & Hnu & _ & Ht & Hu & _).
      apply bind_params_Ok in Hb as (_ & -> & -> & _). by rewrite Ht, Hu.
Qed.

(* ===================================================================== *)
(** * Batches                                                             *)
(* ===================================================================== *)

(** The loop of [upsert_history] takes the items in their order: the
    tuples of a batch are those of the items before a given item, then the
    tuple of that item if it passes the gate, then those of the items
    after it, each built with the clock at its position. *)
Lemma build_rows_split `{Runtime} pf tkf tjf ef clock l1 it l2 :
  forall i ps,
    build_rows pf tkf tjf ef clock i (l1 ++ it :: l2) = Ok ps ->
    exists ps1 o ps2,
      build_rows pf tkf tjf ef clock i l1 = Ok ps1
      /\ normalize_item pf tkf tjf ef (clock (i + length l1)%nat) it = Ok o
      /\ build_rows pf tkf tjf ef clock (S (i + length l1)) l2 = Ok ps2
      /\ ps = ps1 ++ match o with Some p => p :: ps2 | None => ps2 end.
Proof.
  induction l1 as [|a l1 IH]; intros i ps Hb; simpl in Hb.
  - destruct (normalize_item pf tkf tjf ef (clock i) it) as [o|] eqn:Hn;
      [|discriminate]. cbn [rbind] in Hb.
    destruct (build_rows pf tkf tjf ef clock (S i) l2) as [ps2|] eqn:H2;
      [|discriminate]. cbn [rbind] in Hb. injection Hb as <-.
    exists [], o, ps2. simpl. rewrite Nat.add_0_r.
    repeat split; assumption.
  - destruct (normalize_item pf tkf tjf ef (clock i) a) as [oa|] eqn:Hna;
      [|discriminate]. cbn [rbind] in Hb.
    destruct (build_rows pf tkf tjf ef clock (S i) (l1 ++ it :: l2))
      as [ps'|] eqn:Hrest; [|discriminate]. cbn [rbind] in Hb.
    injection Hb as <-.
    destruct (IH _ _ Hrest) as (ps1 & o & ps2 & H1 & Hn & H2 & ->).
    exists (match oa with Some p => p :: ps1 | None => ps1 end), o, ps2.
    simpl. rewrite Hna, H1. simpl.
    replace (i + S (length l1))%nat with (S i + length l1)%nat by lia.
    repeat split; try assumption. by destruct oa.
Qed.

Lemma build_rows_indexed `{Runtime} pf tkf tjf ef clock items :
  forall i ps,
    build_rows pf tkf tjf ef clock i items = Ok ps ->
    Forall (fun p => exists j it,
              items !! j = Some it
              /\ normalize_item pf tkf tjf ef (clock (i + j)%nat) it = Ok (Some p))
      ps.
Proof.
  induction items as [|it items IH]; simpl; intros i ps Hb.
  - injection Hb as <-. constructor.
  - destruct (normalize_item pf tkf tjf ef (clock i) it) as [o|] eqn:Hn;
      [|discriminate]. cbn [rbind] in Hb.
    destruct (build_rows pf tkf tjf ef clock (S i) items) as [ps'|] eqn:Hr;
      [|discriminate]. cbn [rbind] in Hb. injection Hb as <-.
    assert (Hrest : Forall (fun p => exists j it0,
                (it :: items) !! j = Some it0
                /\ normalize_item pf tkf tjf ef (clock (i + j)%nat) it0 = Ok (Some p))
              ps').
    { eapply Forall_impl; [exact (IH _ _ Hr)|]. intros p (j & it0 & Hj & Hp).
      exists (S j), it0. split; [exact Hj|].
      by replace (i + S j)%nat with (S i + j)%nat by lia. }
    destruct o as [p|]; [|exact Hrest].
    constructor; [|exact Hrest].
    exists 0%nat, it. split; [reflexivity|]. by rewrite Nat.add_0_r.
Qed.

(** C9. When upsert_history returns, take any item of the batch that
    became a record: if no item after it in the batch became a record with
    the same key, then the one row of that key holds that record's columns.
    So of several items with one key the last, in the order of the batch,
    decides what is stored. The batch is committed. *)
Theorem last_write_wins_within_batch `{Engine} :
  forall pf items tkf tjf ef clock c c' n,
    unique_keys (view c) ->
    upsert_history pf items tkf tjf ef clock c = (c', Ok n) ->
    let efl := match ef with Some l => l | None => [] end in
    unique_keys (view c')
    /\ forall before it after p x,
         items = before ++ it :: after ->
         normalize_item pf tkf tjf efl (clock (length before)) it = Ok (Some p) ->
         bind_params p = Ok x ->
         (forall j it' p' x',
            after !! j = Some it' ->
            normalize_item pf tkf tjf efl (clock (length before + 1 + j)%nat) it'
              = Ok (Some p') ->
            bind_params p' = Ok x' ->
            key_of x' <> key_of x) ->
         durable c' = view c'
         /\ exists r, r ∈ rows (view c') /\ cols r = x
                      /\ forall r', r' ∈ rows (view c') ->
                                    row_key r' = key_of x -> r' = r.
Proof.
  intros pf items tkf tjf ef clock c c' n Hu Hup efl.
  destruct (upsert_history_cases pf items tkf tjf ef clock c)
    as [(e & _ & Heq)|[(Hb & Heq)|[(ps & c'' & e & _ & _ & _ & Heq)
                                  |(ps & c'' & m & Hb & Hne & He & Heq)]]];
    rewrite Heq in Hup; try discriminate.
  - injection Hup as <- <-. split; [exact Hu|].
    intros before it after p x -> Hn _ _. exfalso.
    fold efl in Hb.
    apply build_rows_split in Hb as (ps1 & o & ps2 & _ & Hn' & _ & Hps).
    simpl in Hn'. rewrite Hn in Hn'. injection Hn' as <-.
    by destruct ps1.
  - injection Hup as <- <-.
    apply executemany_Ok in He as (cs & Hf & Hv & _ & _). simpl.
    assert (Huv : unique_keys (view c'')) by (rewrite Hv; by apply fold_upsert_unique).
    split; [exact Huv|].
    intros before it after p x -> Hn Hbx Hlater. split; [reflexivity|].
    fold efl in Hb.
    apply build_rows_split in Hb as (ps1 & o & ps2 & _ & Hn' & H2 & ->).
    simpl in Hn'. rewrite Hn in Hn'. injection Hn' as <-.
    apply Forall2_app_inv_l in Hf as (cs1 & cs' & _ & Hf & ->).
    apply Forall2_cons_inv_l in Hf as (x0 & cs2 & Hx0 & Hf2 & ->).
    rewrite Hbx in Hx0. injection Hx0 as <-.
    assert (Hlast : last_with_key (cs1 ++ x :: cs2) x).
    { exists cs1, cs2. split; [reflexivity|].
      apply Forall_forall. intros y Hy.
      apply list_elem_of_lookup in Hy as [k Hk].
      destruct (Forall2_lookup_r _ _ _ _ _ Hf2 Hk) as (p' & Hp' & Hby).
      apply build_rows_indexed in H2.
      rewrite Forall_forall in H2.
      destruct (H2 p') as (j & it' & Hj & Hnj);
        [by eapply list_elem_of_lookup_2|].
      apply (Hlater j it' p' y Hj); [|exact Hby].
      by replace (length before + 1 + j)%nat
        with (S (0 + length before) + j)%nat by lia. }
    destruct (fold_upsert_last _ (view c) x Hlast) as (r & Hin & Hc).
    rewrite <- Hv in Hin.
    exists r. split; [exact Hin|]. split; [exact Hc|].
    intros r' Hin' Hk. apply (unique_keys_row (view c'')); try assumption.
    unfold row_key at 2. by rewrite Hc.
Qed.

Lemma last_write_wins_within_batch_witness :
  exists c' r,
    @upsert_history example_engine (lit "baidu")
      [scenario_item_X; scenario_item_Y] None None None example_clock
      fresh_conn = (c', Ok 2)
    /\ r ∈ rows (view c')
    /\ title (cols r) = lit "Y"
    /\ forall r', r' ∈ rows (view c') -> row_key r' = row_key r -> r' = r.
Proof.
  assert (Hu : unique_keys (view fresh_conn)) by apply NoDup_nil_2.
  eexists.
  assert (Hup : @upsert_history example_engine (lit "baidu")
                  [scenario_item_X; scenario_item_Y] None None None
                  example_clock fresh_conn
                = ((@upsert_history example_engine (lit "baidu")
                      [scenario_item_X; scenario_item_Y] None None None
                      example_clock fresh_conn).1, Ok 2))
    by (vm_compute; reflexivity).
  destruct (@last_write_wins_within_batch example_engine _ _ _ _ _ _ _ _ _ Hu Hup)
    as [_ Hlast].
  destruct (@bind_params example_engine
              {| p_platform := lit "baidu"; p_topic_key := PNone;
                 p_title := lit "Y"; p_url := lit "http://a";
                 p_image_url := PNone; p_excerpt := PNone; p_heat_text := PNone;
                 p_heat_value := None; p_rank := None; p_tags_text := None;
                 p_scraped_at := lit "2025-01-01 18:30:00";
                 p_scraped_date := lit "2025-01-01"; p_extra_json := None |})
    as [x|e] eqn:Hbx; [|vm_compute in Hbx; discriminate].
  destruct (Hlast [scenario_item_X] scenario_item_Y [] _ x eq_refl
              ltac:(vm_compute; reflexivity) Hbx)
    as (_ & r & Hin & Hc & Hone).
  { intros j it' p' x' Hj. destruct j; discriminate Hj. }
  exists r. split; [exact Hup|]. split; [exact Hin|].
  split.
  - rewrite Hc. vm_compute in Hbx. injection Hbx as <-. reflexivity.
  - intros r' Hin' Hk. apply Hone; [exact Hin'|].
    rewrite Hk. unfold row_key. by rewrite Hc.
Defined.

(** After a call of [upsert_history] either the table the call leaves is
    committed whole, or the call has committed nothing. *)
Lemma upsert_history_commits_or_not `{Engine} pf items tkf tjf ef clock c c' r :
  upsert_history pf items tkf tjf ef clock c = (c', r) ->
  match r with
  | Ok n => c' = c \/ durable c' = view c'
  | Raise _ => durable c' = durable c
  end.
Proof.
  intros Hup.
  destruct (upsert_history_cases pf items tkf tjf ef clock c)
    as [(e & _ & Heq)|[(_ & Heq)|[(ps & c'' & e & _ & _ & He & Heq)
                                 |(ps & c'' & m & _ & _ & He & Heq)]]];
    rewrite Heq in Hup; injection Hup as <- <-; auto.
  by apply executemany_Raise in He.
Qed.

(** C8. A batch whose second record cannot be bound raises and commits
    nothing, but the write of its first record stays in the connection's
    open transaction; the next batch on the same connection, of another
    platform, commits it with its own. Part of the first batch is then in
    the table and part is not. *)
Theorem failed_batch_is_committed_by_next_batch `{Engine} :
  let r1 := upsert_history (lit "weibo") [weibo_item_1; weibo_item_2]
              None None None example_clock fresh_conn in
  let r2 := upsert_history (lit "baidu") [baidu_item_1]
              None None None example_clock r1.1 in
  r1.2 = Raise OverflowError
  /\ rows (durable r1.1) = []
  /\ map (fun r => url (cols r)) (rows (view r1.1)) = [lit "http://w1"]
  /\ r2.2 = Ok 1
  /\ map (fun r => (platform (cols r), url (cols r))) (rows (durable r2.1)) =
       [(lit "weibo", lit "http://w1"); (lit "baidu", lit "http://b1")].
Proof.
  vm_compute.
  repeat match goal with
         | |- context [match ?f ?rec with true => _ | false => _ end] =>
             let Hfit := fresh "Hfit" in
             assert (Hfit : f rec = false)
               by (apply (row_fits rec); vm_compute; discriminate);
             rewrite Hfit; clear Hfit; cbv iota
         end.
  repeat split.
Qed.

(* ===================================================================== *)
(** * The theorems at work                                                *)
(* ===================================================================== *)

Lemma one_row_per_key_witness :
  unique_keys (view conn_after_X)
  /\ map (fun r => (id r, title (cols r))) (rows (view conn_after_X)) = [(1, lit "X")]
  /\ exists c2,
       @upsert_history example_engine (lit "baidu") [scenario_item_Y]
         None None None example_clock conn_after_X = (c2, Ok 1)
       /\ map (fun r => (id r, title (cols r))) (rows (view c2)) = [(1, lit "Y")]
       /\ durable c2 = view c2.
Proof.
  destruct (@one_row_per_key example_engine) as [Hkeys Hplace].
  assert (Hu : unique_keys (view conn_after_X)).
  { apply (Hkeys [{| call_platform := lit "baidu";
                     call_items := [scenario_item_X];
                     call_topic_key_field := None;
                     call_tags_join_from := None;
                     call_extra_fields := None;
                     call_clock := example_clock |}] fresh_conn);
      apply NoDup_nil_2. }
  split; [exact Hu|]. split; [vm_compute; reflexivity|].
  edestruct (Hplace (lit "baidu") scenario_item_Y None None None
               example_clock conn_after_X)
    as (before & after & c2 & Hl & Hup & Hrows & Hdur);
    [vm_compute; reflexivity | vm_compute; reflexivity | exact Hu
    | vm_compute; apply list_elem_of_here | vm_compute; reflexivity | ].
  exists c2.
  destruct before as [|b before];
    [|vm_compute in Hl; destruct before; discriminate Hl].
  vm_compute in Hl. injection Hl as <-.
  split; [exact Hup|].
  split; [rewrite Hrows; reflexivity|exact Hdur].
Defined.

Lemma scraped_date_is_date_of_scraped_at_witness :
  exists p,
    @normalize_item example_runtime (lit "baidu") None None [] (example_clock 0)
      undated_item = Ok (Some p)
    /\ p_scraped_at p = lit "2025-01-02 03:04:05"
    /\ p_scraped_date p = lit "2025-01-02".
Proof.
  destruct (@scraped_date_is_date_of_scraped_at example_engine) as [_ Hnow].
  eexists. split; [vm_compute; reflexivity|].
  edestruct (Hnow (lit "baidu") None None [] (example_clock 0) undated_item)
    as [_ Hblank]; [vm_compute; reflexivity|].
  destruct Hblank as [Hat Hdate]; [left; vm_compute; reflexivity|].
  split; [exact Hat|exact Hdate].
Defined.

Lemma blank_title_or_url_is_skipped_witness :
  @normalize_item example_runtime (lit "baidu") None None [] (example_clock 0)
    blank_title_item = Ok None
  /\ @normalize_item example_runtime (lit "baidu") None None [] (example_clock 0)
       zero_title_item = Ok None.
Proof.
  destruct (@blank_title_or_url_is_skipped example_engine) as [Hskip _].
  split; apply Hskip.
  - split; [vm_compute; exact I|]. split; [vm_compute; exact I|].
    split; [vm_compute; reflexivity|].
    left. right. exists (lit "  "). split; vm_compute; reflexivity.
  - split; [vm_compute; reflexivity|]. split; [vm_compute; exact I|].
    split; [vm_compute; reflexivity|].
    left. left. vm_compute. reflexivity.
Defined.

(** C2, as stated, fails: the title is empty, yet the item is not skipped
    in silence; the call raises. *)
Lemma blank_title_with_numeric_scraped_at_raises :
  blank_field numeric_scraped_at_item (lit "title")
  /\ @normalize_item example_runtime (lit "baidu") None None []
       (example_clock 0) numeric_scraped_at_item = Raise AttributeError
  /\ @upsert_history example_engine (lit "baidu") [numeric_scraped_at_item]
       None None None example_clock fresh_conn = (fresh_conn, Raise AttributeError).
Proof.
  split.
  - left. vm_compute. reflexivity.
  - split; vm_compute; reflexivity.
Qed.





(* ===================================================================== *)
(** * The read path: counting, paging, ordering                           *)
(* ===================================================================== *)

Lemma limit_offset_all {A} (l : list A) : limit_offset (-1) 0 l = l.
Proof. reflexivity. Qed.

(** With a pattern the engine takes, the search goes through. *)
Lemma eval_where_fits f r : keyword_fits f -> eval_where f r = Ok (where_clause f r).
Proof.
  unfold keyword_fits, eval_where, where_clause, eval_keyword, keyword_holds.
  intros Hfit. destruct (platform_holds f (cols r)); [|reflexivity]. simpl.
  destruct (keyword f) as [[|k ks]|]; try reflexivity.
  cbv zeta. unfold sql_like.
  apply N.ltb_ge in Hfit. rewrite Hfit. cbn [rbind like_match_opt].
  destruct (like_match _ (title (cols r))); simpl; [reflexivity|].
  destruct (like_match_opt _ (excerpt (cols r))); simpl; [reflexivity|].
  by destruct (like_match _ (url (cols r))).
Qed.

Lemma scan_fits skips f rs :
  keyword_fits f -> scan skips f rs = Ok (filter (where_clause f) rs).
Proof.
  intros Hfit. induction rs as [|r rs IH]; simpl; [reflexivity|].
  destruct (skips r && negb (dates_hold f (cols r))) eqn:Hskip.
  - apply andb_true_iff in Hskip as [_ Hd]. apply negb_true_iff in Hd.
    rewrite IH. rewrite filter_cons_False; [reflexivity|].
    unfold where_clause. rewrite Hd, andb_false_r. by intros [].
  - rewrite (eval_where_fits f r Hfit), IH. cbn [rbind].
    destruct (where_clause f r) eqn:Hw.
    + rewrite filter_cons_True; [reflexivity|]. rewrite Hw. exact I.
    + rewrite filter_cons_False; [reflexivity|]. rewrite Hw. by intros [].
Qed.

Lemma prepare_fewer `{Engine} (n m : N) :
  (n <= m)%N -> prepare m = Ok tt -> prepare n = Ok tt.
Proof.
  unfold prepare. intros Hle.
  destruct (N.ltb_spec max_variables m); [discriminate|].
  destruct (N.ltb_spec max_variables n); [lia|reflexivity].
Qed.

(** X1. Whenever a search that nothing limits returns and the count
    returns, the count is the number of rows of the search, whatever order
    is asked for; and when the keyword's pattern is one the engine takes,
    the count returns whenever the search does. *)
Theorem count_is_size_of_unlimited_query `{Engine} :
  forall (f : Filter) (order_by : pystr) (c : Conn) (qs : list QRow),
    query_history f order_by (-1) 0 c = Ok qs ->
    (forall n, count_history f c = Ok n -> n = Z.of_nat (length qs))
    /\ (keyword_fits f -> count_history f c = Ok (Z.of_nat (length qs))).
Proof.
  intros f order_by c qs Hq.
  assert (Hlen : Z.of_nat (length qs)
                 = Z.of_nat (length (filter (where_clause f) (rows (view c))))).
  { apply query_history_rows in Hq as [_ Hall].
    rewrite (Hall ltac:(lia) ltac:(lia)). by rewrite length_map. }
  split.
  - intros n Hc. apply count_history_Ok in Hc. congruence.
  - intros Hfit. rewrite Hlen.
    destruct (query_history_run f order_by (-1) 0 c) as (col & desc & _ & Hrun).
    rewrite Hrun in Hq. unfold count_history. cbv zeta.
    destruct (prepare (_ + 2)%N) as [[]|] eqn:Hp; [|discriminate].
    assert (Hp' : prepare (N.of_nat (length (filter_params f))) = Ok tt)
      by (eapply prepare_fewer; [|exact Hp]; lia).
    rewrite Hp'. cbn [rbind] in *.
    destruct (bind_strs _) as [[]|]; [|discriminate]. cbn [rbind].
    by rewrite (scan_fits _ f _ Hfit).
Qed.

Lemma count_is_size_of_unlimited_query_witness :
  exists qs,
    @query_history example_engine (keyword_only (lit "50%")) (lit "id ASC") (-1) 0
      percent_conn = Ok qs
    /\ map q_title qs = [lit "up 50% today"]
    /\ @count_history example_engine (keyword_only (lit "50%")) percent_conn
       = Ok (Z.of_nat (length qs)).
Proof.
  eexists. split; [vm_compute; reflexivity|].
  split; [vm_compute; reflexivity|].
  apply (@count_is_size_of_unlimited_query example_engine
           (keyword_only (lit "50%")) (lit "id ASC") percent_conn);
    [vm_compute; reflexivity|].
  vm_compute. discriminate.
Defined.

Lemma take_plus {A} (a b : nat) (l : list A) :
  take (a + b) l = take a l ++ take b (drop a l).
Proof.
  revert l. induction a as [|a IH]; intros l; simpl; [by rewrite drop_0|].
  destruct l as [|x l]; simpl; [by rewrite take_nil|]. by rewrite IH.
Qed.

Lemma limit_offset_pages {A} (l1 l2 off : Z) (l : list A) :
  0 <= l1 -> 0 <= l2 -> 0 <= off ->
  limit_offset (l1 + l2) off l =
    limit_offset l1 off l ++ limit_offset l2 (off + l1) l.
Proof.
  intros H1 H2 Ho. unfold limit_offset.
  destruct (Z.ltb_spec (l1 + l2) 0); [lia|].
  destruct (Z.ltb_spec l1 0); [lia|].
  destruct (Z.ltb_spec l2 0); [lia|].
  rewrite !Z2Nat.inj_add by lia.
  rewrite take_plus. f_equal. by rewrite drop_drop.
Qed.

(** X2. Paging: a page never has more rows than its limit, and two
    consecutive pages are together the page of both limits. *)
Theorem consecutive_pages_concatenate `{Engine} :
  forall (f : Filter) (order_by : pystr) (l1 l2 off : Z) (c : Conn) q1 q2,
    0 <= l1 -> 0 <= l2 -> 0 <= off ->
    in_int64 (l1 + l2) = true ->
    query_history f order_by l1 off c = Ok q1 ->
    query_history f order_by l2 (off + l1) c = Ok q2 ->
    query_history f order_by (l1 + l2) off c = Ok (q1 ++ q2)
    /\ (length q1 <= Z.to_nat l1)%nat.
Proof.
  intros f order_by l1 l2 off c q1 q2 H1 H2 Ho Hb Hq1 Hq2.
  split.
  - destruct (Z.eq_dec l1 0) as [E1|Hn1].
    { subst l1. apply query_history_Ok in Hq1 as (_ & _ & col & desc & _ & ->).
      replace (off + 0) with off in Hq2 by lia. exact Hq2. }
    destruct (Z.eq_dec l2 0) as [E2|Hn2].
    { subst l2. apply query_history_Ok in Hq2 as (_ & _ & col & desc & _ & ->).
      replace (l1 + 0) with l1 by lia.
      unfold limit_offset at 1. simpl. by rewrite app_nil_r. }
    pose proof Hq1 as Hq1'. pose proof Hq2 as Hq2'.
    apply query_history_Ok in Hq1' as (Hb1 & Hbo & col & desc & Ha & ->).
    apply query_history_Ok in Hq2' as (_ & _ & col' & desc' & Ha' & ->).
    rewrite Ha in Ha'. injection Ha' as <- <-.
    destruct (query_history_run f order_by l1 off c) as (col1 & desc1 & Ha1 & Hr1).
    destruct (query_history_run f order_by (l1 + l2) off c)
      as (col2 & desc2 & Ha2 & ->).
    rewrite Ha in Ha1, Ha2. injection Ha1 as <- <-. injection Ha2 as <- <-.
    rewrite Hr1 in Hq1.
    destruct (prepare _) as [[]|]; [|discriminate]. cbn [rbind] in *.
    destruct (bind_strs _) as [[]|]; [|discriminate]. cbn [rbind] in *.
    rewrite Hb, Hbo. rewrite Hb1, Hbo in Hq1. simpl in *.
    destruct (Z.eqb_spec l1 0); [lia|]. destruct (Z.eqb_spec (l1 + l2) 0); [lia|].
    destruct (scan _ f (rows (view c))) as [rs|] eqn:Hs; [|discriminate].
    apply scan_Ok in Hs as ->. cbn [rbind].
    by rewrite limit_offset_pages, map_app.
  - apply query_history_Ok in Hq1 as (_ & _ & col & desc & _ & ->).
    rewrite length_map. unfold limit_offset.
    destruct (Z.ltb_spec l1 0); [lia|]. rewrite length_take. lia.
Qed.

Lemma consecutive_pages_concatenate_witness :
  exists q1 q2,
    @query_history example_engine no_filter (lit "id ASC") 1 0 conn_after_X = Ok q1
    /\ @query_history example_engine no_filter (lit "id ASC") 1 1 conn_after_X
       = Ok q2
    /\ @query_history example_engine no_filter (lit "id ASC") 2 0 conn_after_X
       = Ok (q1 ++ q2)
    /\ (length q1 <= 1)%nat.
Proof.
  eexists. eexists.
  split; [vm_compute; reflexivity|]. split; [vm_compute; reflexivity|].
  apply (@consecutive_pages_concatenate example_engine
           no_filter (lit "id ASC") 1 1 0 conn_after_X);
    try lia; vm_compute; reflexivity.
Defined.

(** X3. An unlimited query returns the matching rows, each once; any page is
    made of matching stored rows. *)
Theorem query_returns_the_matching_rows `{Engine} :
  forall (f : Filter) (order_by : pystr) (limit offset : Z) (c : Conn) qs,
    query_history f order_by limit offset c = Ok qs ->
    (forall q, q ∈ qs ->
       exists r, r ∈ rows (view c) /\ where_clause f r = true /\ q = select_cols r)
    /\ (limit < 0 -> offset <= 0 ->
          qs ≡ₚ map select_cols (filter (where_clause f) (rows (view c)))).
Proof.
  intros f order_by limit offset c qs Hq. by eapply query_history_rows.
Qed.

Lemma query_returns_the_matching_rows_witness :
  exists qs,
    @query_history example_engine no_filter (lit "id ASC") (-1) 0 conn_after_X
      = Ok qs
    /\ qs ≡ₚ map select_cols
              (filter (where_clause no_filter) (rows (view conn_after_X))).
Proof.
  eexists. split; [vm_compute; reflexivity|].
  eapply (@query_returns_the_matching_rows example_engine
            no_filter (lit "id ASC") (-1) 0 conn_after_X);
    [vm_compute; reflexivity|lia|lia].
Defined.

Lemma q_order_key_select col r : q_order_key col (select_cols r) = order_key col r.
Proof. by destruct col. Qed.

(** X4. Every allow-listed order is honoured: the rows come back ordered by the
    column named, in the direction named, NULL counting as least. *)
Theorem query_is_ordered_as_asked `{Engine} :
  forall (f : Filter) (order_by : pystr) (limit offset : Z) (c : Conn) qs,
    order_by ∈ _ALLOWED_ORDERS ->
    query_history f order_by limit offset c = Ok qs ->
    exists col desc,
      assoc order_by order_clauses = Some (col, desc)
      /\ StronglySorted (ordered_by col desc) qs.
Proof.
  intros f order_by limit offset c qs Hin Hq.
  apply query_history_Ok in Hq as (_ & _ & col & desc & Ha & ->).
  rewrite (effective_order_allowed _ Hin) in Ha.
  exists col, desc. split; [exact Ha|].
  eapply StronglySorted_map; [|apply limit_offset_sorted, order_rows_sorted].
  intros a b. unfold ordered_by. rewrite !q_order_key_select. done.
Qed.

Lemma query_is_ordered_as_asked_witness :
  exists qs,
    @query_history example_engine no_filter (lit "heat_value ASC") 50 0
      conn_after_X = Ok qs
    /\ StronglySorted (ordered_by ByHeatValue false) qs.
Proof.
  eexists. split; [vm_compute; reflexivity|].
  edestruct (@query_is_ordered_as_asked example_engine
               no_filter (lit "heat_value ASC") 50 0 conn_after_X)
    as (col & desc & Ha & Hs);
    [apply (bool_decide_unpack (lit "heat_value ASC" ∈ _ALLOWED_ORDERS));
     vm_compute; exact I
    | vm_compute; reflexivity |].
  vm_compute in Ha. injection Ha as <- <-. exact Hs.
Defined.

Lemma str_compare_eq a b : str_compare a b = Eq -> a = b.
Proof.
  revert b. induction a as [|x a IH]; intros [|y b]; simpl; try discriminate;
    [reflexivity|].
  destruct (N.compare_spec x y); try discriminate.
  intros Hc. subst. f_equal. by apply IH.
Qed.

Lemma str_compare_refl a : str_compare a a = Eq.
Proof. induction a as [|x a IH]; simpl; [reflexivity|]. by rewrite N.compare_refl. Qed.

Lemma str_leb_antisym a b : str_leb a b = true -> str_leb b a = true -> a = b.
Proof.
  unfold str_leb. rewrite (str_compare_antisym a b).
  destruct (str_compare a b) eqn:Hc; simpl; try discriminate.
  intros _ _. by apply str_compare_eq.
Qed.

(** X5. Both date bounds are inclusive: with the same day as lower and upper
    bound the filter passes exactly the rows of that day. *)
Theorem date_bounds_are_inclusive :
  forall (d : pystr) (r : Row),
    d <> [] ->
    (where_clause (on_day d) r = true <-> scraped_date (cols r) = d).
Proof.
  intros d r Hd. unfold where_clause, platform_holds, keyword_holds, dates_hold, on_day.
  simpl.
  destruct d as [|x d]; [congruence|].
  rewrite !andb_true_iff. split.
  - intros [H1 H2]. symmetry. by apply str_leb_antisym.
  - intros ->. unfold str_leb. by rewrite str_compare_refl.
Qed.

Lemma date_bounds_are_inclusive_witness :
  Forall (fun r => where_clause (on_day (lit "2025-01-01")) r = true)
    (rows (view conn_after_X)).
Proof.
  apply Forall_forall. intros r Hr.
  apply (date_bounds_are_inclusive (lit "2025-01-01") r); [discriminate|].
  vm_compute in Hr. apply list_elem_of_singleton in Hr. by subst.
Defined.

Lemma count_history_unfiltered `{Engine} f c :
  filter_params f = [] -> (forall r, where_clause f r = true) ->
  count_history f c = Ok (Z.of_nat (length (rows (view c)))).
Proof.
  intros Hp Hw. unfold count_history. rewrite Hp. cbv zeta.
  change (N.of_nat (length (@nil pystr))) with 0%N. unfold prepare.
  destruct (N.ltb_spec max_variables 0); [lia|]. cbn [rbind bind_strs].
  assert (Hfit : keyword_fits f).
  { unfold keyword_fits. unfold filter_params in Hp.
    destruct (keyword f) as [[|k ks]|]; try exact I.
    apply (f_equal (@length _)) in Hp. rewrite !length_app in Hp.
    simpl in Hp. lia. }
  rewrite (scan_fits _ f _ Hfit). cbn [rbind]. do 3 f_equal.
  induction (rows (view c)) as [|r l IH]; [reflexivity|].
  rewrite filter_cons_True by (rewrite Hw; exact I). by rewrite IH.
Qed.

(** X6. A filter never counts more rows than the table has, and a filter whose
    components are all absent or empty counts them all. *)
Theorem empty_filter_counts_everything `{Engine} :
  forall (f : Filter) (c : Conn),
    (forall n, count_history f c = Ok n ->
               n <= Z.of_nat (length (rows (view c))))
    /\ count_history no_filter c = Ok (Z.of_nat (length (rows (view c))))
    /\ count_history {| keyword := Some []; platforms := Some [];
                        date_from := Some []; date_to := Some [] |} c
       = Ok (Z.of_nat (length (rows (view c)))).
Proof.
  intros f c. split; [|split].
  - intros n Hc. apply count_history_Ok in Hc as ->.
    apply inj_le. apply length_filter.
  - by apply count_history_unfiltered.
  - by apply count_history_unfiltered.
Qed.

Lemma empty_filter_counts_everything_witness :
  @count_history example_engine (keyword_only (lit "50%")) percent_conn = Ok 1
  /\ 1 <= Z.of_nat (length (rows (view percent_conn)))
  /\ @count_history example_engine no_filter percent_conn = Ok 2.
Proof.
  assert (Hc : @count_history example_engine (keyword_only (lit "50%")) percent_conn
               = Ok 1) by (vm_compute; reflexivity).
  destruct (@empty_filter_counts_everything example_engine
              (keyword_only (lit "50%")) percent_conn) as (Hle & Hall & _).
  split; [exact Hc|]. split; [exact (Hle 1 Hc)|]. exact Hall.
Defined.

(* ===================================================================== *)
(** * list_platforms                                                      *)
(* ===================================================================== *)

Lemma insert_str_perm s l : insert_str s l ≡ₚ s :: l.
Proof.
  induction l as [|x l IH]; simpl; [done|].
  destruct (str_leb s x); [done|]. rewrite IH. apply Permutation_swap.
Qed.

Lemma sort_strs_perm l : sort_strs l ≡ₚ l.
Proof.
  induction l as [|x l IH]; simpl; [done|].
  rewrite insert_str_perm. by rewrite IH.
Qed.

Lemma insert_str_sorted s l :
  StronglySorted (fun a b => str_leb a b = true) l ->
  StronglySorted (fun a b => str_leb a b = true) (insert_str s l).
Proof.
  induction l as [|x l IH]; simpl; intros Hs; [repeat constructor|].
  apply StronglySorted_cons in Hs as [Hx Hl].
  destruct (str_leb s x) eqn:Hsx.
  - apply StronglySorted_cons. split.
    + constructor; [exact Hsx|].
      eapply Forall_impl; [exact Hx|]. intros y Hy. by eapply str_leb_trans.
    + by apply StronglySorted_cons.
  - apply StronglySorted_cons. split; [|auto].
    rewrite insert_str_perm. constructor; [|exact Hx].
    destruct (str_leb_total s x) as [Hc|Hc]; [congruence|exact Hc].
Qed.

Lemma sort_strs_sorted l : StronglySorted (fun a b => str_leb a b = true) (sort_strs l).
Proof.
  induction l as [|x l IH]; simpl; [constructor|]. by apply insert_str_sorted.
Qed.

Lemma sorted_NoDup_strict {A} (R : A -> A -> Prop) (l : list A) :
  StronglySorted R l -> NoDup l -> StronglySorted (fun a b => R a b /\ a <> b) l.
Proof.
  induction 1 as [|a l Hs IH Ha]; intros Hnd; [constructor|].
  apply NoDup_cons in Hnd as [Hnin Hnd].
  constructor; [by apply IH|].
  apply Forall_forall. intros b Hb. split.
  - rewrite Forall_forall in Ha. by apply Ha.
  - intros ->. contradiction.
Qed.

Lemma StronglySorted_filter {A} (R : A -> A -> Prop) (p : A -> bool) (l : list A) :
  StronglySorted R l -> StronglySorted R (List.filter p l).
Proof.
  induction 1 as [|a l Hs IH Ha]; simpl; [constructor|].
  destruct (p a); [|exact IH].
  constructor; [exact IH|].
  apply Forall_forall. intros b Hb.
  apply list_elem_of_In, filter_In in Hb as [Hb _].
  rewrite Forall_forall in Ha. by apply Ha, list_elem_of_In.
Qed.

(** X7. [list_platforms] returns the platforms that have a row, each once, in
    ascending order; an empty platform name is never listed. *)
Theorem list_platforms_sorted_distinct :
  forall (c : Conn),
    StronglySorted (fun a b => str_leb a b = true /\ a <> b) (list_platforms c)
    /\ forall p, p ∈ list_platforms c <->
                 p <> [] /\ exists r, r ∈ rows (view c) /\ platform (cols r) = p.
Proof.
  intros c. unfold list_platforms. split.
  - apply StronglySorted_filter, sorted_NoDup_strict; [apply sort_strs_sorted|].
    rewrite sort_strs_perm. apply NoDup_remove_dups.
  - intros p. rewrite list_elem_of_In, filter_In, <- list_elem_of_In.
    rewrite sort_strs_perm, elem_of_remove_dups.
    rewrite list_elem_of_fmap. split.
    + intros [(r & -> & Hin) Hne]. split; [by destruct (platform (cols r))|].
      by exists r.
    + intros [Hne (r & Hin & <-)]. split; [by exists r|].
      by destruct (platform (cols r)).
Qed.

(* ===================================================================== *)
(** * _escape_like                                                        *)
(* ===================================================================== *)

Lemma escape_char_head x y ra rb :
  escape_char x ++ ra = escape_char y ++ rb -> x = y /\ ra = rb.
Proof.
  unfold escape_char, BACKSLASH, PERCENT, UNDERSCORE.
  destruct (N.eqb_spec x 92), (N.eqb_spec x 37), (N.eqb_spec x 95),
    (N.eqb_spec y 92), (N.eqb_spec y 37), (N.eqb_spec y 95);
    simpl; intros Heq; injection Heq; intros; subst; try lia; auto.
Qed.

(** X8. Escaping loses nothing: two keywords with the same escaped form are
    the same keyword. *)
Theorem escape_like_injective :
  forall (a b : pystr), _escape_like a = _escape_like b -> a = b.
Proof.
  intros a b. rewrite !escape_like_flat_map. revert b.
  induction a as [|x a IH]; intros [|y b]; simpl; intros Heq.
  - reflexivity.
  - exfalso. unfold escape_char in Heq. destruct (_ || _) in Heq; discriminate.
  - exfalso. unfold escape_char in Heq. destruct (_ || _) in Heq; discriminate.
  - apply escape_char_head in Heq as [-> Heq]. f_equal. by apply IH.
Qed.

Lemma escape_like_injective_witness :
  lit "50%" = lit "50%".
Proof.
  apply escape_like_injective. vm_compute. reflexivity.
Defined.

(* ===================================================================== *)
(** * More of the write path                                              *)
(* ===================================================================== *)

(** A property of tables that one upsert keeps is kept by any run of
    calls, in the committed table as in the connection's. *)
Lemma run_calls_table_invariant `{Engine} (P : Table -> Prop) :
  (forall t ex, P t -> P (exec_upsert t ex)) ->
  forall ks c, P (durable c) -> P (view c) ->
               P (durable (run_calls ks c)) /\ P (view (run_calls ks c)).
Proof.
  intros Hstep.
  assert (Hfold : forall cs t, P t -> P (fold_left exec_upsert cs t)).
  { induction cs as [|x cs IH]; simpl; intros t Ht; [exact Ht|]. by apply IH, Hstep. }
  induction ks as [|k ks IH]; intros c Hd Hv; simpl; [auto|].
  unfold run_calls in *. simpl. apply IH.
  - unfold do_call.
    destruct (upsert_history_cases (call_platform k) (call_items k)
                (call_topic_key_field k) (call_tags_join_from k)
                (call_extra_fields k) (call_clock k) c)
      as [(e & _ & ->)|[(_ & ->)|[(ps & c' & e & _ & _ & He & ->)
                                 |(ps & c' & n & _ & _ & He & ->)]]];
      simpl; auto.
    + apply executemany_Raise in He. by rewrite He.
    + destruct (executemany_view ps c) as (cs & Hview & _).
      rewrite He in Hview. simpl in Hview. rewrite Hview. by apply Hfold.
  - unfold do_call.
    destruct (upsert_history_cases (call_platform k) (call_items k)
                (call_topic_key_field k) (call_tags_join_from k)
                (call_extra_fields k) (call_clock k) c)
      as [(e & _ & ->)|[(_ & ->)|[(ps & c' & e & _ & _ & He & ->)
                                 |(ps & c' & n & _ & _ & He & ->)]]];
      simpl; auto.
    + destruct (executemany_view ps c) as (cs & Hview & _).
      rewrite He in Hview. simpl in Hview. rewrite Hview. by apply Hfold.
    + destruct (executemany_view ps c) as (cs & Hview & _).
      rewrite He in Hview. simpl in Hview. rewrite Hview. by apply Hfold.
Qed.

Lemma exec_upsert_ids t ex : ids_ascending t -> ids_ascending (exec_upsert t ex).
Proof.
  intros [Hs Hb]. unfold exec_upsert.
  destruct (update_conflict ex (rows t)) as [l'|] eqn:Hc.
  - apply update_conflict_Some in Hc as (before & r & after & Hl & _ & _ & ->).
    unfold ids_ascending. simpl. rewrite Hl in Hs, Hb.
    split.
    + rewrite map_app in *. exact Hs.
    + apply Forall_app in Hb as [Hb1 Hb2]. apply Forall_cons in Hb2 as [Hr Hb2].
      apply Forall_app. split; [|constructor; simpl].
      * eapply Forall_impl; [exact Hb1|]. intros; simpl in *; lia.
      * lia.
      * eapply Forall_impl; [exact Hb2|]. intros; simpl in *; lia.
  - unfold ids_ascending. simpl. split.
    + rewrite map_app. apply StronglySorted_app. split; [|split].
      * intros x y Hx Hy. simpl in Hy. apply list_elem_of_singleton in Hy as ->.
        apply list_elem_of_fmap in Hx as (r & -> & Hr).
        rewrite Forall_forall in Hb. specialize (Hb r Hr). lia.
      * exact Hs.
      * repeat constructor.
    + apply Forall_app. split.
      * eapply Forall_impl; [exact Hb|]. intros; simpl in *; lia.
      * repeat constructor. simpl. lia.
Qed.

(** X9. Surrogate ids: in every table a run of calls leaves, the ids grow
    strictly along the rows (so no two rows share one) and none exceeds the
    counter of ids handed out. *)
Theorem ids_stay_ascending `{Engine} :
  forall ks c,
    ids_ascending (durable c) -> ids_ascending (view c) ->
    ids_ascending (durable (run_calls ks c)) /\ ids_ascending (view (run_calls ks c)).
Proof. apply run_calls_table_invariant. intros t ex. apply exec_upsert_ids. Qed.

Lemma ids_stay_ascending_witness :
  ids_ascending (view conn_after_X).
Proof.
  apply (@ids_stay_ascending example_engine
           [{| call_platform := lit "baidu";
               call_items := [scenario_item_X];
               call_topic_key_field := None;
               call_tags_join_from := None;
               call_extra_fields := None;
               call_clock := example_clock |}] fresh_conn);
    (split; [constructor|constructor]).
Defined.

Lemma keeps_rows_refl t : keeps_rows t t.
Proof. intros r Hr. by exists r. Qed.

Lemma keeps_rows_trans t1 t2 t3 :
  keeps_rows t1 t2 -> keeps_rows t2 t3 -> keeps_rows t1 t3.
Proof.
  intros H12 H23 r Hr.
  destruct (H12 r Hr) as (r2 & Hr2 & Hi2 & Hk2).
  destruct (H23 r2 Hr2) as (r3 & Hr3 & Hi3 & Hk3).
  exists r3. split; [exact Hr3|]. split; congruence.
Qed.

Lemma exec_upsert_keeps t ex : keeps_rows t (exec_upsert t ex).
Proof.
  intros r Hr. unfold exec_upsert.
  destruct (update_conflict ex (rows t)) as [l'|] eqn:Hc; simpl.
  - apply update_conflict_Some in Hc as (before & r0 & after & Hl & _ & _ & ->).
    rewrite Hl in Hr. rewrite elem_of_app, elem_of_cons in Hr.
    destruct Hr as [Hr|[->|Hr]].
    + exists r. rewrite elem_of_app. auto.
    + exists (do_update_set r0 ex). rewrite elem_of_app, elem_of_cons. auto.
    + exists r. rewrite elem_of_app, elem_of_cons. auto.
  - exists r. rewrite elem_of_app. auto.
Qed.

Lemma fold_upsert_keeps cs t : keeps_rows t (fold_left exec_upsert cs t).
Proof.
  revert t. induction cs as [|x cs IH]; simpl; intros t; [apply keeps_rows_refl|].
  eapply keeps_rows_trans; [apply exec_upsert_keeps|apply IH].
Qed.

Lemma upsert_history_keeps `{Engine} pf items tkf tjf ef clock c :
  keeps_rows (durable c) (view c) ->
  let c' := (upsert_history pf items tkf tjf ef clock c).1 in
  keeps_rows (view c) (view c')
  /\ keeps_rows (durable c) (durable c')
  /\ keeps_rows (durable c') (view c').
Proof.
  intros Hdv.
  destruct (upsert_history_cases pf items tkf tjf ef clock c)
    as [(e & _ & ->)|[(_ & ->)|[(ps & c' & e & _ & _ & He & ->)
                               |(ps & c' & n & _ & _ & He & ->)]]];
    simpl; auto using keeps_rows_refl.
  - destruct (executemany_view ps c) as (cs & Hview & _).
    pose proof (executemany_durable ps c) as Hdur.
    rewrite He in Hview, Hdur. simpl in *. rewrite Hview, Hdur.
    split; [apply fold_upsert_keeps|]. split; [apply keeps_rows_refl|].
    eapply keeps_rows_trans; [exact Hdv|apply fold_upsert_keeps].
  - destruct (executemany_view ps c) as (cs & Hview & _).
    rewrite He in Hview. simpl in *. rewrite Hview.
    split; [apply fold_upsert_keeps|]. split; [|apply keeps_rows_refl].
    eapply keeps_rows_trans; [exact Hdv|apply fold_upsert_keeps].
Qed.

(** X10. Nothing is ever deleted and no id ever changes: whatever calls are
    made, a row that was in the table is still there under the same id and
    the same (platform, url, scraped_date). *)
Theorem rows_are_never_deleted `{Engine} :
  forall ks c,
    keeps_rows (durable c) (view c) ->
    keeps_rows (view c) (view (run_calls ks c))
    /\ keeps_rows (durable c) (durable (run_calls ks c)).
Proof.
  induction ks as [|k ks IH]; intros c Hdv; simpl.
  - split; apply keeps_rows_refl.
  - unfold run_calls in *. simpl. unfold do_call.
    destruct (upsert_history_keeps (call_platform k) (call_items k)
                (call_topic_key_field k) (call_tags_join_from k)
                (call_extra_fields k) (call_clock k) c Hdv) as (Hv & Hd & Hdv').
    destruct (IH _ Hdv') as [Hv' Hd'].
    split; eapply keeps_rows_trans; eauto.
Qed.

Lemma rows_are_never_deleted_witness :
  keeps_rows (view conn_after_X)
    (view (@run_calls example_engine
             [{| call_platform := lit "baidu";
                 call_items := [scenario_item_Y];
                 call_topic_key_field := None;
                 call_tags_join_from := None;
                 call_extra_fields := None;
                 call_clock := example_clock |}] conn_after_X)).
Proof.
  apply (@rows_are_never_deleted example_engine). apply keeps_rows_refl.
Defined.

Lemma build_rows_length `{Runtime} pf tkf tjf ef clock i items ps :
  build_rows pf tkf tjf ef clock i items = Ok ps ->
  (length ps <= length items)%nat.
Proof.
  revert i ps. induction items as [|it items IH]; simpl; intros i ps Hb.
  - injection Hb as <-. simpl. lia.
  - destruct (normalize_item pf tkf tjf ef (clock i) it) as [o|e]; [|discriminate].
    simpl in Hb.
    destruct (build_rows pf tkf tjf ef clock (S i) items) as [ps'|e] eqn:Hr;
      [|discriminate].
    simpl in Hb. injection Hb as <-. specialize (IH _ _ Hr).
    destruct o; simpl; lia.
Qed.

Lemma build_rows_all_skipped `{Runtime} pf tkf tjf ef clock i items :
  (forall j it, it ∈ items -> normalize_item pf tkf tjf ef (clock j) it = Ok None) ->
  build_rows pf tkf tjf ef clock i items = Ok [].
Proof.
  revert i. induction items as [|it items IH]; simpl; intros i Hall; [reflexivity|].
  rewrite (Hall i it) by apply list_elem_of_here. simpl.
  rewrite IH; [reflexivity|].
  intros j it' Hin. apply Hall. by apply list_elem_of_further.
Qed.

(** X11. The number [upsert_history] returns is the number of records that
    passed the gate (a key that occurs twice counts twice), never more than
    the number of items. When no item passes, or the batch is empty, it
    returns 0 and touches nothing: no write, no commit. *)
Theorem upsert_history_returns_rows_written `{Engine} :
  forall pf items tkf tjf ef clock c,
    (forall c' n,
        upsert_history pf items tkf tjf ef clock c = (c', Ok n) ->
        exists ps,
          build_rows pf tkf tjf (match ef with Some l => l | None => [] end)
            clock 0 items = Ok ps
          /\ n = Z.of_nat (length ps) /\ n <= Z.of_nat (length items))
    /\ ((forall j it, it ∈ items ->
           normalize_item pf tkf tjf (match ef with Some l => l | None => [] end)
             (clock j) it = Ok None) ->
        upsert_history pf items tkf tjf ef clock c = (c, Ok 0)).
Proof.
  intros pf items tkf tjf ef clock c. split.
  - intros c' n Hup.
    destruct (upsert_history_cases pf items tkf tjf ef clock c)
      as [(e & _ & Heq)|[(Hb & Heq)|[(ps & c'' & e & _ & _ & _ & Heq)
                                    |(ps & c'' & m & Hb & _ & He & Heq)]]];
      rewrite Heq in Hup; try discriminate; injection Hup as <- <-.
    + exists []. split; [exact Hb|]. simpl. split; lia.
    + apply executemany_Ok in He as (cs & _ & _ & _ & ->).
      exists ps. split; [exact Hb|]. split; [reflexivity|].
      apply build_rows_length in Hb. lia.
  - intros Hall. unfold upsert_history.
    by rewrite (build_rows_all_skipped _ _ _ _ _ _ _ Hall).
Qed.

Lemma upsert_history_returns_rows_written_witness :
  @upsert_history example_engine (lit "baidu") [blank_title_item] None None None
    example_clock conn_after_X = (conn_after_X, Ok 0).
Proof.
  apply (@upsert_history_returns_rows_written example_engine).
  intros j it Hin. apply list_elem_of_singleton in Hin as ->.
  vm_compute. reflexivity.
Defined.

(** X12. A call that raises commits nothing; a call that returns has either
    touched nothing or committed everything the connection sees. *)
Theorem raising_call_commits_nothing `{Engine} :
  forall pf items tkf tjf ef clock c c' r,
    upsert_history pf items tkf tjf ef clock c = (c', r) ->
    match r with
    | Ok n => c' = c \/ durable c' = view c'
    | Raise _ => durable c' = durable c
    end.
Proof. intros. by eapply upsert_history_commits_or_not. Qed.

Lemma raising_call_commits_nothing_witness :
  durable (@upsert_history example_engine (lit "weibo")
             [weibo_item_1; weibo_item_2] None None None example_clock
             conn_after_X).1 = durable conn_after_X.
Proof.
  apply (@raising_call_commits_nothing example_engine (lit "weibo")
           [weibo_item_1; weibo_item_2] None None None example_clock
           conn_after_X _ (Raise OverflowError)).
  vm_compute. reflexivity.
Defined.

(* ===================================================================== *)
(** * The record built from a raw item                                    *)
(* ===================================================================== *)

Lemma dict_set_keys d k v :
  NoDup (map fst d) ->
  NoDup (map fst (dict_set d k v))
  /\ forall k' v', (k', v') ∈ dict_set d k v <->
                   (k' = k /\ v' = v) \/ (k' <> k /\ (k', v') ∈ d).
Proof.
  induction d as [|[k0 v0] d IH]; simpl; intros Hnd.
  - split; [apply NoDup_singleton|].
    intros k' v'. rewrite list_elem_of_singleton, elem_of_nil. split.
    + intros [= -> ->]. by left.
    + intros [[-> ->]|[_ []]]. reflexivity.
  - apply NoDup_cons in Hnd as [Hnin Hnd].
    destruct (decide (k0 = k)) as [->|Hne].
    + split; [by apply NoDup_cons|].
      intros k' v'. rewrite !elem_of_cons. split.
      * intros [[= -> ->]|Hin]; [by left|]. right. split; [|by right].
        intros ->. apply Hnin. apply list_elem_of_fmap. by exists (k, v').
      * intros [[-> ->]|[Hk [[= -> ->]|Hin]]]; auto. congruence.
    + destruct (IH Hnd) as [IHnd IHin]. split.
      * simpl. apply NoDup_cons. split; [|exact IHnd].
        intros Hin. apply list_elem_of_fmap in Hin as ([k1 v1] & Hk & Hin).
        simpl in Hk. subst k1. apply IHin in Hin as [[-> _]|[_ Hin]]; [congruence|].
        apply Hnin. apply list_elem_of_fmap. by exists (k0, v1).
      * intros k' v'. rewrite !elem_of_cons, IHin. split.
        -- intros [[= -> ->]|[[-> ->]|[Hk Hin]]]; auto.
        -- intros [[-> ->]|[Hk [[= -> ->]|Hin]]]; auto.
Qed.

Lemma collect_extra_spec it ef :
  NoDup (map fst (collect_extra it ef))
  /\ forall k v, (k, v) ∈ collect_extra it ef <-> k ∈ ef /\ it !! k = Some v.
Proof.
  unfold collect_extra.
  assert (Hgen : forall acc,
             NoDup (map fst acc) ->
             (forall k v, (k, v) ∈ acc -> it !! k = Some v) ->
             let res := fold_left (fun extra k => match it !! k with
                                                  | Some v => dict_set extra k v
                                                  | None => extra
                                                  end) ef acc in
             NoDup (map fst res)
             /\ forall k v, (k, v) ∈ res <->
                            (k, v) ∈ acc \/ (k ∈ ef /\ it !! k = Some v)).
  { induction ef as [|k0 ef IH]; simpl; intros acc Hnd Hacc.
    - split; [exact Hnd|]. intros k v. rewrite elem_of_nil. tauto.
    - destruct (it !! k0) as [v0|] eqn:Hk0.
      + destruct (dict_set_keys acc k0 v0 Hnd) as [Hnd' Hin'].
        destruct (IH (dict_set acc k0 v0) Hnd') as [Hres Hmem].
        { intros k v Hkv. apply Hin' in Hkv as [[-> ->]|[_ Hkv]]; auto. }
        split; [exact Hres|].
        intros k v. rewrite Hmem, Hin', elem_of_cons. split.
        * intros [[[-> ->]|[_ Hkv]]|[Hk Hv]]; auto.
        * intros [Hkv|[[->|Hk] Hv]]; auto.
          -- destruct (decide (k = k0)) as [->|Hne]; auto.
             left. left. split; [reflexivity|]. apply Hacc in Hkv. congruence.
          -- left. left. split; [reflexivity|]. congruence.
      + destruct (IH acc Hnd Hacc) as [Hres Hmem].
        split; [exact Hres|].
        intros k v. rewrite Hmem, elem_of_cons. split.
        * intros [Hkv|[Hk Hv]]; auto.
        * intros [Hkv|[[->|Hk] Hv]]; auto. congruence. }
  destruct (Hgen [] NoDup_nil_2) as [Hnd Hmem].
  { intros k v Hin. by apply elem_of_nil in Hin. }
  split; [exact Hnd|].
  intros k v. rewrite Hmem, elem_of_nil. tauto.
Qed.

(** X13. The side mapping that becomes extra_json holds exactly the policy
    fields the item has, each once, with the item's values; a policy field
    the item lacks is left out and is no error. extra_json is absent
    exactly when the item has none of the policy fields. *)
Theorem extra_fields_present_only `{Runtime} :
  forall (it : gmap pystr PyVal) (ef : list pystr),
    NoDup (map fst (collect_extra it ef))
    /\ (forall k v, (k, v) ∈ collect_extra it ef <-> k ∈ ef /\ it !! k = Some v)
    /\ (forall pf tkf tjf now p,
          normalize_item pf tkf tjf ef now it = Ok (Some p) ->
          (p_extra_json p = None <-> forall k, k ∈ ef -> it !! k = None)).
Proof.
  intros it ef. destruct (collect_extra_spec it ef) as [Hnd Hmem].
  split; [exact Hnd|]. split; [exact Hmem|].
  intros pf tkf tjf now p Hn.
  destruct (stripped_field it (lit "title")) as [t|e] eqn:Ht;
    [|unfold normalize_item in Hn; rewrite Ht in Hn; discriminate].
  destruct (stripped_field it (lit "url")) as [u|e] eqn:Hu;
    [|unfold normalize_item in Hn; rewrite Ht, Hu in Hn; discriminate].
  destruct (stripped_field it (lit "scraped_at")) as [s|e] eqn:Hs;
    [|unfold normalize_item in Hn; rewrite Ht, Hu, Hs in Hn; discriminate].
  rewrite (normalize_item_gate _ _ _ _ _ _ _ _ _ Ht Hu Hs) in Hn.
  destruct (is_nil t || is_nil u); [discriminate|].
  injection Hn as <-. simpl.
  destruct (collect_extra it ef) as [|[k0 v0] rest] eqn:Hce; simpl.
  - split; [|reflexivity]. intros _ k Hk.
    destruct (it !! k) as [v|] eqn:Hv; [|reflexivity].
    assert (Hin : (k, v) ∈ []) by (apply Hmem; auto).
    by apply elem_of_nil in Hin.
  - split; [discriminate|]. intros Hall.
    assert (Hin : k0 ∈ ef /\ it !! k0 = Some v0)
      by (apply Hmem; apply list_elem_of_here).
    destruct Hin as [Hk Hv]. rewrite (Hall k0 Hk) in Hv. discriminate.
Qed.

Lemma extra_fields_present_only_witness :
  exists p,
    @normalize_item example_runtime (lit "baidu") None None [lit "avatar_url"]
      (example_clock 0) scenario_item_X = Ok (Some p)
    /\ p_extra_json p = None.
Proof.
  destruct (@extra_fields_present_only example_runtime scenario_item_X
              [lit "avatar_url"]) as (_ & _ & Hnone).
  destruct (@normalize_item example_runtime (lit "baidu") None None
              [lit "avatar_url"] (example_clock 0) scenario_item_X)
    as [[p|]|e] eqn:Hn; [|vm_compute in Hn; discriminate..].
  exists p. split; [reflexivity|].
  apply (proj2 (Hnone _ _ _ _ _ Hn)).
  intros k Hk. apply list_elem_of_singleton in Hk as ->. vm_compute. reflexivity.
Defined.

Lemma drop_while_head {A} (p : A -> bool) l x l' :
  drop_while p l = x :: l' -> p x = false.
Proof.
  induction l as [|y l IH]; simpl; [discriminate|].
  destruct (p y) eqn:Hy; [exact IH|]. intros [= -> ->]. exact Hy.
Qed.

Lemma drop_while_id {A} (p : A -> bool) x l :
  p x = false -> drop_while p (x :: l) = x :: l.
Proof. intros Hx. simpl. by rewrite Hx. Qed.

Lemma drop_while_suffix {A} (p : A -> bool) l :
  exists pre, l = pre ++ drop_while p l.
Proof.
  induction l as [|y l [pre IH]]; simpl; [by exists []|].
  destruct (p y); [|by exists []].
  exists (y :: pre). simpl. by f_equal.
Qed.

(** The trimmed form of a string neither starts nor ends with white
    space, so trimming it again changes nothing. *)
Lemma py_strip_idempotent s : py_strip (py_strip s) = py_strip s.
Proof.
  unfold py_strip.
  set (a := drop_while py_isspace s).
  set (b := drop_while py_isspace (rev a)).
  destruct b as [|x b'] eqn:Hb; [reflexivity|].
  assert (Hx : py_isspace x = false) by (eapply drop_while_head; exact Hb).
  (* the first character of the result is the first of [a] *)
  destruct (drop_while_suffix py_isspace (rev a)) as [pre Hpre].
  fold b in Hpre. rewrite Hb in Hpre.
  assert (Ha : a = rev (x :: b') ++ rev pre).
  { rewrite <- (rev_involutive a), Hpre, rev_app_distr. reflexivity. }
  destruct (rev (x :: b')) as [|y r] eqn:Hr.
  { apply (f_equal (@length _)) in Hr. rewrite length_rev in Hr. discriminate. }
  assert (Hy : py_isspace y = false).
  { subst a. eapply drop_while_head. rewrite Ha. reflexivity. }
  rewrite (drop_while_id _ y r Hy).
  rewrite <- Hr, rev_involutive.
  by rewrite (drop_while_id _ x b' Hx).
Qed.

(** X14. The record of an item that passes the gate carries the platform
    it was called with, a title and a url that are non-empty and trimmed, a
    non-empty scraped_at, a scraped_date without a space, and tags that are
    absent rather than empty. *)
Theorem record_fields_are_trimmed `{Runtime} :
  forall pf tkf tjf ef now it p,
    normalize_item pf tkf tjf ef now it = Ok (Some p) ->
    p_platform p = pf
    /\ p_title p <> [] /\ py_strip (p_title p) = p_title p
    /\ p_url p <> [] /\ py_strip (p_url p) = p_url p
    /\ p_scraped_at p <> []
    /\ (32%N ∉ p_scraped_date p)
    /\ p_tags_text p <> Some [].
Proof.
  intros pf tkf tjf ef now it p Hn.
  pose proof Hn as Hn'.
  apply normalize_item_Some in Hn'
    as (t & u & s & Ht & Hu & Hs & Hnt & Hnu & Hpf & Hpt & Hpu & Hat & Hd & _).
  assert (Hstrip : forall k v, stripped_field it k = Ok v -> py_strip v = v).
  { intros k v. unfold stripped_field, strip_method.
    destruct (py_or _ _); try discriminate. intros [= <-]. apply py_strip_idempotent. }
  split; [exact Hpf|].
  split; [congruence|]. split; [rewrite Hpt; eauto|].
  split; [congruence|]. split; [rewrite Hpu; eauto|].
  split.
  { rewrite Hat. destruct s; simpl; [discriminate|discriminate]. }
  split.
  { rewrite Hd. unfold split_space_head.
    generalize (p_scraped_at p). intros l Hin.
    induction l as [|c l IH]; simpl in Hin; [by apply elem_of_nil in Hin|].
    destruct (N.eqb_spec c 32); simpl in Hin; [by apply elem_of_nil in Hin|].
    apply elem_of_cons in Hin as [Hin|Hin]; [congruence|auto]. }
  rewrite (normalize_item_gate _ _ _ _ _ _ _ _ _ Ht Hu Hs) in Hn.
  destruct (is_nil t || is_nil u); [discriminate|].
  injection Hn as <-. simpl.
  destruct tjf as [[|c f]|]; try discriminate.
  assert (Htags : forall xs,
             (let ts := stripped_tags xs in
              if is_nil ts then None else Some (join_bar ts)) <> Some []).
  { intros xs. simpl. unfold stripped_tags.
    destruct (filter _ _) as [|t0 ts] eqn:Hf; simpl; [discriminate|].
    assert (Ht0 : t0 <> []).
    { assert (Hin : t0 ∈ filter (fun t => negb (is_nil t))
                           (map (fun x => py_strip (py_str x)) xs))
        by (rewrite Hf; apply list_elem_of_here).
      apply list_elem_of_filter in Hin as [Hne _].
      intros ->. simpl in Hne. exact Hne. }
    destruct t0; [congruence|]. destruct ts; simpl; discriminate. }
  destruct (dict_get it (c :: f)); try discriminate; apply Htags.
Qed.

Lemma record_fields_are_trimmed_witness :
  exists p,
    @normalize_item example_runtime (lit "baidu") None None [] (example_clock 0)
      (item [(lit "title", PStr (lit "  X "));
             (lit "url", PStr (lit " http://a"))]) = Ok (Some p)
    /\ p_title p <> [] /\ py_strip (p_title p) = p_title p.
Proof.
  destruct (@normalize_item example_runtime (lit "baidu") None None []
              (example_clock 0)
              (item [(lit "title", PStr (lit "  X "));
                     (lit "url", PStr (lit " http://a"))]))
    as [[p|]|e] eqn:Hn; [|vm_compute in Hn; discriminate..].
  exists p. split; [reflexivity|].
  destruct (@record_fields_are_trimmed example_runtime _ _ _ _ _ _ _ Hn)
    as (_ & Hne & Hstrip & _).
  split; [exact Hne|exact Hstrip].
Defined.

(* ===================================================================== *)
(** * Writing a batch twice                                               *)
(* ===================================================================== *)

Lemma exec_upsert_skeleton t x :
  key_of x ∈ map row_key (rows t) ->
  skeleton (exec_upsert t x) = skeleton t.
Proof.
  intros Hin. unfold skeleton, exec_upsert.
  destruct (update_conflict x (rows t)) as [l'|] eqn:Hc; simpl.
  - apply update_conflict_Some in Hc as (before & r & after & -> & _ & _ & ->).
    by rewrite !map_app.
  - apply update_conflict_None in Hc. rewrite Forall_forall in Hc.
    apply list_elem_of_fmap in Hin as (r & Hr & Hin). by destruct (Hc r Hin).
Qed.

Lemma skeleton_keys t t' : skeleton t = skeleton t' -> map row_key (rows t) = map row_key (rows t').
Proof.
  unfold skeleton. intros Hs.
  apply (f_equal (map snd)) in Hs. by rewrite !map_map in Hs.
Qed.

Lemma fold_upsert_skeleton cs t :
  Forall (fun x => key_of x ∈ map row_key (rows t)) cs ->
  skeleton (fold_left exec_upsert cs t) = skeleton t.
Proof.
  revert t. induction cs as [|x cs IH]; simpl; intros t Hall; [reflexivity|].
  inversion Hall as [|? ? Hx Hcs]; subst.
  pose proof (exec_upsert_skeleton t x Hx) as Hsk.
  rewrite IH; [exact Hsk|].
  by rewrite (skeleton_keys _ _ Hsk).
Qed.

Lemma fold_upsert_keys_present cs t :
  Forall (fun x => key_of x ∈ map row_key (rows (fold_left exec_upsert cs t))) cs.
Proof.
  revert t. induction cs as [|x cs IH]; simpl; intros t; [constructor|].
  constructor; [|apply IH].
  destruct (exec_upsert_stored t x) as (r & Hr & Hc).
  destruct (fold_upsert_keeps cs (exec_upsert t x) r Hr) as (r' & Hr' & _ & Hk).
  apply list_elem_of_fmap. exists r'. split; [|exact Hr'].
  rewrite Hk. unfold row_key. by rewrite Hc.
Qed.

Lemma last_with_key_exists cs k :
  Exists (fun x => key_of x = k) cs -> exists y, last_with_key cs y /\ key_of y = k.
Proof.
  induction cs as [|a cs IH]; intros Hex; [by apply Exists_nil in Hex|].
  destruct (decide (Exists (fun y => key_of y = k) cs)) as [Hin|Hno].
  - destruct (IH Hin) as (y & (l1 & l2 & -> & Hl2) & Hky).
    exists y. split; [|exact Hky]. by exists (a :: l1), l2.
  - apply Exists_cons in Hex as [Ha|Hex]; [|contradiction].
    exists a. split; [|exact Ha]. exists [], cs. split; [reflexivity|].
    apply Forall_forall. intros y Hy Hk. apply Hno, Exists_exists.
    exists y. split; [exact Hy|congruence].
Qed.

Lemma rows_eq_by_skeleton (l1 l2 : list Row) :
  map (fun r => (id r, row_key r)) l1 = map (fun r => (id r, row_key r)) l2 ->
  (forall r1 r2, r1 ∈ l1 -> r2 ∈ l2 -> row_key r1 = row_key r2 -> cols r1 = cols r2) ->
  l1 = l2.
Proof.
  revert l2. induction l1 as [|a l1 IH]; intros [|b l2]; simpl; try discriminate;
    [reflexivity|].
  intros Heq Hcols.
  remember (row_key a) as ka eqn:Hka. remember (row_key b) as kb eqn:Hkb.
  injection Heq as Hid Hk Hrest. subst ka kb.
  f_equal.
  - destruct a as [ia ca], b as [ib cb]. simpl in Hid. subst ib. f_equal.
    apply (Hcols {| id := ia; cols := ca |} {| id := ia; cols := cb |});
      [apply list_elem_of_here..|exact Hk].
  - apply IH; [exact Hrest|].
    intros r1 r2 H1 H2. apply Hcols; by apply list_elem_of_further.
Qed.

(** Running the same upserts again over their own result changes no row. *)
Lemma fold_upsert_twice cs t :
  unique_keys t ->
  rows (fold_left exec_upsert cs (fold_left exec_upsert cs t)) =
    rows (fold_left exec_upsert cs t).
Proof.
  intros Hu.
  set (t1 := fold_left exec_upsert cs t).
  assert (Hu1 : unique_keys t1) by by apply fold_upsert_unique.
  assert (Hu2 : unique_keys (fold_left exec_upsert cs t1)) by by apply fold_upsert_unique.
  apply rows_eq_by_skeleton.
  - apply (fold_upsert_skeleton cs t1), fold_upsert_keys_present.
  - intros r2 r1 Hr2 Hr1 Hk.
    destruct (decide (Exists (fun x => key_of x = row_key r1) cs)) as [Hex|Hno].
    + destruct (last_with_key_exists cs _ Hex) as (y & Hlast & Hky).
      destruct (fold_upsert_last cs t y Hlast) as (ra & Hra & Hca).
      destruct (fold_upsert_last cs t1 y Hlast) as (rb & Hrb & Hcb).
      fold t1 in Hra.
      assert (r1 = ra) as ->.
      { apply (unique_keys_row t1); try assumption.
        unfold row_key at 2. rewrite Hca. congruence. }
      assert (r2 = rb) as ->.
      { apply (unique_keys_row (fold_left exec_upsert cs t1)); try assumption.
        unfold row_key at 2. rewrite Hcb. rewrite Hk. congruence. }
      congruence.
    + assert (Hkeep : r1 ∈ rows (fold_left exec_upsert cs t1)).
      { apply fold_upsert_other; [exact Hr1|].
        apply Forall_forall. intros y Hy Hky. apply Hno, Exists_exists. eauto. }
      f_equal. by apply (unique_keys_row (fold_left exec_upsert cs t1)).
Qed.

Lemma executemany_run `{Engine} ps cs c :
  Forall2 (fun p ex => bind_params p = Ok ex) ps cs ->
  executemany ps c =
    ({| durable := durable c; view := fold_left exec_upsert cs (view c) |},
     Ok (Z.of_nat (length ps))).
Proof.
  intros Hf. revert c. induction Hf as [|p ex ps cs Hb Hf IH]; intros c.
  - simpl. by destruct c.
  - cbn [executemany]. rewrite Hb. rewrite IH. cbn [fold_left length]. simpl.
    do 2 f_equal. lia.
Qed.

(** The clock enters a record only through the text of the time, and only
    when the item carries no capture time of its own. *)
Lemma normalize_item_clock `{Runtime} pf tkf tjf ef now now' it :
  dated it \/ strftime now = strftime now' ->
  normalize_item pf tkf tjf ef now it = normalize_item pf tkf tjf ef now' it.
Proof.
  intros Hd. unfold normalize_item.
  destruct (stripped_field it (lit "title")) as [t|]; [|reflexivity].
  destruct (stripped_field it (lit "url")) as [u|]; [|reflexivity].
  destruct (stripped_field it (lit "scraped_at")) as [sa|] eqn:Hs; [|reflexivity].
  cbn [rbind]. destruct (is_nil t || is_nil u); [reflexivity|].
  destruct Hd as [(s0 & Hget & Hne)| ->]; [|reflexivity].
  unfold stripped_field, py_or in Hs. rewrite Hget in Hs.
  destruct s0 as [|x s0]; [exfalso; by apply Hne|].
  simpl in Hs. injection Hs as <-.
  destruct (py_strip (x :: s0)); [congruence|reflexivity].
Qed.

Lemma build_rows_clock `{Runtime} pf tkf tjf ef clock clock' items :
  forall i,
    (forall j it, items !! j = Some it ->
       dated it \/ strftime (clock (i + j)%nat) = strftime (clock' (i + j)%nat)) ->
    build_rows pf tkf tjf ef clock i items = build_rows pf tkf tjf ef clock' i items.
Proof.
  induction items as [|it items IH]; intros i Hd; simpl; [reflexivity|].
  rewrite (normalize_item_clock pf tkf tjf ef (clock i) (clock' i) it).
  2:{ specialize (Hd 0%nat it eq_refl). by rewrite Nat.add_0_r in Hd. }
  rewrite (IH (S i)); [reflexivity|].
  intros j it' Hj. specialize (Hd (S j) it' Hj).
  by replace (i + S j)%nat with (S i + j)%nat in Hd by lia.
Qed.

(** X15. Writing a batch again changes no row, provided every item carries
    its own capture time or the clock reads the same second at its turn in
    both calls: the second call returns the same count and the table has the
    same rows with the same ids and the same values; only the id counter has
    moved. (An item without capture time written again at another second is
    stamped anew.) *)
Theorem repeated_batch_changes_no_row `{Engine} :
  forall pf items tkf tjf ef clock clock' c c1 n,
    unique_keys (view c) ->
    (forall i it, items !! i = Some it ->
       dated it \/ strftime (clock i) = strftime (clock' i)) ->
    upsert_history pf items tkf tjf ef clock c = (c1, Ok n) ->
    exists c2,
      upsert_history pf items tkf tjf ef clock' c1 = (c2, Ok n)
      /\ rows (view c2) = rows (view c1)
      /\ rows (durable c2) = rows (durable c1).
Proof.
  intros pf items tkf tjf ef clock clock' c c1 n Hu Hd Hup.
  assert (Hsame : build_rows pf tkf tjf (match ef with Some l => l | None => [] end)
                    clock' 0 items
                  = build_rows pf tkf tjf (match ef with Some l => l | None => [] end)
                      clock 0 items).
  { symmetry. apply build_rows_clock. intros j it Hj. exact (Hd j it Hj). }
  destruct (upsert_history_cases pf items tkf tjf ef clock c)
    as [(e & _ & Heq)|[(Hb & Heq)|[(ps & c'' & e & _ & _ & _ & Heq)
                                  |(ps & c'' & m & Hb & Hne & He & Heq)]]];
    rewrite Heq in Hup; try discriminate; injection Hup as <- <-.
  - exists c. split; [|split; reflexivity].
    unfold upsert_history. by rewrite Hsame, Hb.
  - apply executemany_Ok in He as (cs & Hf & Hv & Hd' & ->).
    eexists. split.
    + unfold upsert_history. rewrite Hsame, Hb.
      destruct ps as [|p ps]; [congruence|]. cbn [is_nil].
      rewrite (executemany_run _ _ _ Hf). reflexivity.
    + simpl. rewrite Hv. split; by apply fold_upsert_twice.
Qed.

Lemma repeated_batch_changes_no_row_witness :
  exists c2,
    @upsert_history example_engine (lit "baidu") [scenario_item_X]
      None None None later_clock conn_after_X = (c2, Ok 1)
    /\ rows (view c2) = rows (view conn_after_X)
    /\ rows (durable c2) = rows (durable conn_after_X).
Proof.
  apply (@repeated_batch_changes_no_row example_engine (lit "baidu")
           [scenario_item_X] None None None example_clock later_clock fresh_conn).
  - apply NoDup_nil_2.
  - intros i it Hi. left. destruct i; [|discriminate Hi].
    injection Hi as <-. exists (lit "2025-01-01 10:00:00").
    split; [vm_compute; reflexivity|vm_compute; discriminate].
  - vm_compute. reflexivity.
Defined.

(* ===================================================================== *)
(** * Heat counts are parsed exactly                                      *)
(* ===================================================================== *)

Lemma round64_pow2 neg N k :
  0 < N < 2 ^ 53 -> 0 <= k ->
  round64 neg (N * 2 ^ k) (2 ^ k) =
    FFin neg (Z.to_N (N * 2 ^ (52 - Z.log2 N))) (Z.log2 N - 52).
Proof.
  intros [HN0 HN] Hk.
  pose proof (Z.log2_nonneg N) as HL0.
  assert (HL : Z.log2 N < 53) by (apply Z.log2_lt_pow2; lia).
  destruct (Z.log2_spec N HN0) as [Hlo _].
  assert (HP : 0 < 2 ^ k) by (apply Z.pow_pos_nonneg; lia).
  assert (HQ : 0 < 2 ^ (52 - Z.log2 N)) by (apply Z.pow_pos_nonneg; lia).
  assert (Hbig : 2 ^ 53 <= 2 ^ 1024) by (apply Z.pow_le_mono_r; lia).
  unfold round64.
  destruct (Z.eqb_spec (N * 2 ^ k) 0) as [H0|_]; [nia|].
  rewrite Z.log2_mul_pow2, Z.log2_pow2 by lia.
  replace (k + Z.log2 N - k) with (Z.log2 N) by lia.
  destruct (Z.leb_spec 0 (Z.log2 N)) as [_|]; [|lia].
  destruct (Z.leb_spec (2 ^ k * 2 ^ Z.log2 N) (N * 2 ^ k)) as [_|]; [|nia].
  replace (Z.max (Z.log2 N - 52) (-1074)) with (Z.log2 N - 52) by lia.
  destruct (Z.leb_spec 0 (Z.log2 N - 52)) as [He|He].
  - assert (Z.log2 N = 52) as HL52 by lia. rewrite HL52. simpl (52 - 52).
    change (2 ^ (52 - 52)) with 1. rewrite !Z.mul_1_r.
    rewrite Z.div_mul, Z.mod_mul by lia.
    change (2 * 0 ?= 2 ^ k) with (0 ?= 2 ^ k).
    destruct (Z.compare_spec 0 (2 ^ k)); try lia.
    destruct (Z.leb_spec (2 ^ 1024) N); [lia|reflexivity].
  - replace (- (Z.log2 N - 52)) with (52 - Z.log2 N) by lia.
    replace (N * 2 ^ k * 2 ^ (52 - Z.log2 N))
      with (N * 2 ^ (52 - Z.log2 N) * 2 ^ k) by ring.
    rewrite Z.div_mul, Z.mod_mul by lia.
    change (2 * 0 ?= 2 ^ k) with (0 ?= 2 ^ k).
    destruct (Z.compare_spec 0 (2 ^ k)); try lia.
    rewrite (Z.pow_neg_r 2 (Z.log2 N - 52)) by lia. rewrite Z.mul_0_r.
    destruct (Z.leb_spec (2 ^ 1024) 0); [lia|reflexivity].
Qed.

Lemma int_of_round64 neg N k :
  0 <= N < 2 ^ 53 -> 0 <= k ->
  int_of_float (round64 neg (N * 2 ^ k) (2 ^ k)) = Ok (if neg then - N else N).
Proof.
  intros [HN0 HN] Hk.
  destruct (Z.eq_dec N 0) as [->|Hnz].
  { unfold round64. simpl. by destruct neg. }
  rewrite round64_pow2 by lia.
  pose proof (Z.log2_nonneg N) as HL0.
  assert (HL : Z.log2 N < 53) by (apply Z.log2_lt_pow2; lia).
  assert (HQ : 0 < 2 ^ (52 - Z.log2 N)) by (apply Z.pow_pos_nonneg; lia).
  unfold int_of_float. rewrite Z2N.id by nia.
  destruct (Z.leb_spec 0 (Z.log2 N - 52)) as [He|He].
  - assert (Z.log2 N = 52) as -> by lia.
    change (2 ^ (52 - 52)) with 1. rewrite !Z.mul_1_r. reflexivity.
  - replace (- (Z.log2 N - 52)) with (52 - Z.log2 N) by lia.
    rewrite Z.div_mul by lia. reflexivity.
Qed.

Lemma int_of_float_mul N c :
  0 <= N -> 0 < c -> N * c < 2 ^ 53 ->
  int_of_float (float_mul (round64 false N 1) (FFin false (Z.to_N c) 0)) = Ok (N * c).
Proof.
  intros HN Hc Hprod.
  destruct (Z.eq_dec N 0) as [->|Hnz].
  { unfold round64, float_mul. simpl. reflexivity. }
  assert (HN53 : N < 2 ^ 53) by nia.
  replace (round64 false N 1) with (round64 false (N * 2 ^ 0) (2 ^ 0))
    by (rewrite Z.pow_0_r, Z.mul_1_r; reflexivity).
  rewrite round64_pow2 by lia.
  pose proof (Z.log2_nonneg N) as HL0.
  assert (HL : Z.log2 N < 53) by (apply Z.log2_lt_pow2; lia).
  assert (HQ : 0 < 2 ^ (52 - Z.log2 N)) by (apply Z.pow_pos_nonneg; lia).
  unfold float_mul. rewrite !Z2N.id by nia. rewrite Z.add_0_r.
  change (xorb false false) with false.
  destruct (Z.leb_spec 0 (Z.log2 N - 52)) as [He|He].
  - assert (Z.log2 N = 52) as HL52 by lia. rewrite HL52.
    change (2 ^ (52 - 52)) with 1. change (52 - 52) with 0.
    match goal with
    | |- int_of_float (round64 false ?a ?b) = _ =>
        replace a with (N * c * 2 ^ 0) by (rewrite ?Z.pow_0_r; ring);
        replace b with (2 ^ 0) by reflexivity
    end.
    by rewrite (int_of_round64 false (N * c) 0) by lia.
  - replace (- (Z.log2 N - 52)) with (52 - Z.log2 N) by lia.
    replace (N * 2 ^ (52 - Z.log2 N) * c) with (N * c * 2 ^ (52 - Z.log2 N)) by ring.
    by rewrite (int_of_round64 false (N * c) (52 - Z.log2 N)) by lia.
Qed.

Lemma ascii_digit_range c :
  is_ascii_digit c = true <-> (48 <= c <= 57)%N.
Proof.
  unfold is_ascii_digit, ascii_digit.
  destruct (N.leb_spec 48 c), (N.leb_spec c 57); simpl; split;
    try discriminate; try reflexivity; lia.
Qed.

Ltac digit_cases c H :=
  apply ascii_digit_range in H;
  assert (c = 48 \/ c = 49 \/ c = 50 \/ c = 51 \/ c = 52 \/ c = 53
          \/ c = 54 \/ c = 55 \/ c = 56 \/ c = 57)%N
    as [->|[->|[->|[->|[->|[->|[->|[->|[->| ->]]]]]]]]] by lia.

Lemma digit_facts c :
  is_ascii_digit c = true ->
  py_isspace c = false /\ c_isspace c = false /\ is_digit_or_dot c = true
  /\ (c <? 128)%N = true /\ ascii_lower c = c
  /\ ascii_digit c = Some (Z.of_N (c - 48)).
Proof. intros H. digit_cases c H; vm_compute; repeat split. Qed.

Lemma scan_digits_all b ds :
  Forall (fun c => is_ascii_digit c = true) ds ->
  scan_digits b ds = (map (fun c => Z.of_N (c - 48)) ds, []).
Proof.
  intros Hall. revert b. induction Hall as [|c ds Hc Hall IH]; intros b; [reflexivity|].
  cbn [scan_digits map].
  destruct (digit_facts c Hc) as (_ & _ & _ & _ & _ & ->).
  by rewrite IH.
Qed.

Lemma to_ascii_form_digits ds :
  Forall (fun c => is_ascii_digit c = true) ds -> to_ascii_form ds = ds.
Proof.
  unfold to_ascii_form. induction 1 as [|c ds Hc Hall IH]; simpl; [reflexivity|].
  destruct (digit_facts c Hc) as (_ & _ & _ & -> & _). by rewrite IH.
Qed.

Lemma map_lower_digits ds :
  Forall (fun c => is_ascii_digit c = true) ds -> map ascii_lower ds = ds.
Proof.
  induction 1 as [|c ds Hc Hall IH]; simpl; [reflexivity|].
  destruct (digit_facts c Hc) as (_ & _ & _ & _ & -> & _). by rewrite IH.
Qed.

Lemma strip_ends {A} (p : A -> bool) x mid :
  p x = false ->
  (forall y l, rev (x :: mid) = y :: l -> p y = false) ->
  rev (drop_while p (rev (drop_while p (x :: mid)))) = x :: mid.
Proof.
  intros Hx Hlast. rewrite (drop_while_id p x mid Hx).
  destruct (rev (x :: mid)) as [|y l] eqn:Hr.
  { apply (f_equal (@length _)) in Hr. rewrite length_rev in Hr. discriminate. }
  rewrite (drop_while_id p y l (Hlast y l eq_refl)).
  by rewrite <- Hr, rev_involutive.
Qed.

Lemma rev_head_in {A} (l : list A) y l' : rev l = y :: l' -> y ∈ l.
Proof.
  intros Hr. apply list_elem_of_In, List.in_rev, list_elem_of_In. rewrite Hr. apply list_elem_of_here.
Qed.

Lemma float_of_digits c ds :
  Forall (fun c => is_ascii_digit c = true) (c :: ds) ->
  py_float_of_str (c :: ds) = Ok (round64 false (count_value (c :: ds)) 1).
Proof.
  intros Hall. pose proof Hall as Hall'.
  apply Forall_cons in Hall' as [Hc Hds].
  unfold py_float_of_str.
  rewrite (to_ascii_form_digits _ Hall).
  rewrite (strip_ends c_isspace c ds).
  2:{ by destruct (digit_facts c Hc) as (_ & -> & _). }
  2:{ intros y l Hr. apply rev_head_in in Hr.
      rewrite Forall_forall in Hall.
      by destruct (digit_facts y (Hall y Hr)) as (_ & -> & _). }
  assert (Hsign : parse_sign (c :: ds) = (false, c :: ds))
    by (digit_cases c Hc; reflexivity).
  rewrite Hsign. rewrite (map_lower_digits _ Hall).
  assert (Hinf : N_list_eqb (c :: ds) (lit "inf") = false
                 /\ N_list_eqb (c :: ds) (lit "infinity") = false
                 /\ N_list_eqb (c :: ds) (lit "nan") = false)
    by (apply ascii_digit_range in Hc;
        assert (c = 48 \/ c = 49 \/ c = 50 \/ c = 51 \/ c = 52 \/ c = 53
                \/ c = 54 \/ c = 55 \/ c = 56 \/ c = 57)%N
          as [->|[->|[->|[->|[->|[->|[->|[->|[->| ->]]]]]]]]] by lia;
        repeat split; reflexivity).
  destruct Hinf as (-> & -> & ->). cbn [orb].
  rewrite (scan_digits_all false _ Hall).
  cbn [is_nil map andb parse_exponent negb length].
  rewrite app_nil_r. unfold count_value.
  change (0 - Z.of_nat 0) with 0. change (0 <=? 0) with true. cbv iota.
  by rewrite Z.pow_0_r, Z.mul_1_r.
Qed.

Lemma py_strip_ends x mid :
  py_isspace x = false ->
  (forall y l, rev (x :: mid) = y :: l -> py_isspace y = false) ->
  py_strip (x :: mid) = x :: mid.
Proof. apply strip_ends. Qed.

Lemma take_drop_while_app {A} (p : A -> bool) l rest :
  Forall (fun c => p c = true) l ->
  match rest with [] => True | y :: _ => p y = false end ->
  take_while p (l ++ rest) = l /\ drop_while p (l ++ rest) = rest.
Proof.
  intros Hall Hrest. induction Hall as [|c l Hc Hall IH]; simpl.
  - destruct rest as [|y rest]; [done|]. simpl. by rewrite Hrest.
  - rewrite Hc. destruct IH as [-> ->]. done.
Qed.

Lemma digits_are_digit_or_dot ds :
  Forall (fun c => is_ascii_digit c = true) ds ->
  Forall (fun c => is_digit_or_dot c = true) ds.
Proof.
  intros Hall. eapply Forall_impl; [exact Hall|].
  intros c Hc. by destruct (digit_facts c Hc) as (_ & _ & -> & _).
Qed.

Lemma heat_regex_digits c ds k unit :
  Forall (fun c => is_ascii_digit c = true) (c :: ds) ->
  (unit = WAN \/ unit = YI) ->
  heat_regex (c :: ds) = Some (c :: ds, None)
  /\ heat_regex ((c :: ds) ++ repeat 32%N k ++ [unit]) = Some (c :: ds, Some unit).
Proof.
  intros Hall Hunit. pose proof Hall as Hall'.
  apply Forall_cons in Hall' as [Hc Hds].
  assert (Hsp : py_isspace c = false) by by destruct (digit_facts c Hc) as (-> & _).
  pose proof (digits_are_digit_or_dot _ Hall) as Hdd.
  split.
  - unfold heat_regex. rewrite (drop_while_id py_isspace c ds Hsp).
    destruct (take_drop_while_app is_digit_or_dot (c :: ds) [] Hdd I) as [Ht Hd].
    rewrite app_nil_r in Ht, Hd. rewrite Ht, Hd. reflexivity.
  - unfold heat_regex.
    change ((c :: ds) ++ repeat 32%N k ++ [unit])
      with (c :: (ds ++ repeat 32%N k ++ [unit])).
    rewrite (drop_while_id py_isspace c _ Hsp).
    change (c :: (ds ++ repeat 32%N k ++ [unit]))
      with ((c :: ds) ++ repeat 32%N k ++ [unit]).
    destruct (take_drop_while_app is_digit_or_dot (c :: ds)
                (repeat 32%N k ++ [unit]) Hdd) as [Ht Hd].
    { destruct k; simpl; [destruct Hunit as [-> | ->]|]; reflexivity. }
    rewrite Ht, Hd. cbn [is_nil].
    destruct (take_drop_while_app py_isspace (repeat 32%N k) [unit]) as [_ Hd2].
    { apply Forall_forall. intros y Hy. apply list_elem_of_In, repeat_spec in Hy.
      by subst. }
    { simpl. destruct Hunit as [-> | ->]; reflexivity. }
    rewrite Hd2.
    destruct Hunit as [-> | ->]; reflexivity.
Qed.

Lemma py_strip_digits_unit c ds k unit :
  Forall (fun c => is_ascii_digit c = true) (c :: ds) ->
  (unit = WAN \/ unit = YI) ->
  py_strip (c :: ds) = c :: ds
  /\ py_strip ((c :: ds) ++ repeat 32%N k ++ [unit]) =
       (c :: ds) ++ repeat 32%N k ++ [unit].
Proof.
  intros Hall Hunit. pose proof Hall as Hall'.
  apply Forall_cons in Hall' as [Hc Hds].
  assert (Hsp : py_isspace c = false) by by destruct (digit_facts c Hc) as (-> & _).
  split.
  - apply py_strip_ends; [exact Hsp|].
    intros y l Hr. apply rev_head_in in Hr. rewrite Forall_forall in Hall.
    by destruct (digit_facts y (Hall y Hr)) as (-> & _).
  - change ((c :: ds) ++ repeat 32%N k ++ [unit])
      with (c :: (ds ++ repeat 32%N k ++ [unit])).
    apply py_strip_ends; [exact Hsp|].
    intros y l Hr.
    change (c :: (ds ++ repeat 32%N k ++ [unit]))
      with ((c :: ds) ++ repeat 32%N k ++ [unit]) in Hr.
    rewrite !rev_app_distr in Hr. simpl in Hr. injection Hr as <- _.
    destruct Hunit as [-> | ->]; reflexivity.
Qed.

(** X16. A heat count written in ASCII digits is parsed exactly as long as
    the result is below 2^53: the digits alone give the number they write,
    followed by 万 (after any number of spaces) ten thousand times it, and
    followed by 亿 a hundred million times it. *)
Theorem heat_counts_are_exact `{Runtime} :
  forall (c : N) (ds : list N) (k : nat),
    Forall (fun c => is_ascii_digit c = true) (c :: ds) ->
    let v := count_value (c :: ds) in
    (v < 2 ^ 53 -> _parse_heat_value (PStr (c :: ds)) = Ok (Some v))
    /\ (v * 10000 < 2 ^ 53 ->
          _parse_heat_value (PStr ((c :: ds) ++ repeat 32%N k ++ [WAN]))
          = Ok (Some (v * 10000)))
    /\ (v * 100000000 < 2 ^ 53 ->
          _parse_heat_value (PStr ((c :: ds) ++ repeat 32%N k ++ [YI]))
          = Ok (Some (v * 100000000))).
Proof.
  intros c ds k Hall v.
  assert (Hv0 : 0 <= v).
  { unfold v, count_value, digits_value.
    assert (Hgen : forall l acc, 0 <= acc ->
               0 <= fold_left (fun a d => a * 10 + d)
                      (map (fun c => Z.of_N (c - 48)) l) acc).
    { induction l as [|x l IH]; simpl; intros acc Hacc; [exact Hacc|].
      apply IH. lia. }
    apply Hgen. lia. }
  destruct (py_strip_digits_unit c ds k WAN Hall (or_introl eq_refl)) as [Hs1 Hs2].
  destruct (py_strip_digits_unit c ds k YI Hall (or_intror eq_refl)) as [_ Hs3].
  destruct (heat_regex_digits c ds k WAN Hall (or_introl eq_refl)) as [Hr1 Hr2].
  destruct (heat_regex_digits c ds k YI Hall (or_intror eq_refl)) as [_ Hr3].
  pose proof (float_of_digits c ds Hall) as Hf. fold v in Hf.
  split; [|split]; intros Hlt.
  - rewrite (parse_heat_value_matched (c :: ds) (c :: ds) None);
      [|rewrite Hs1; discriminate|by rewrite Hs1].
    rewrite Hf. simpl.
    replace (round64 false v 1) with (round64 false (v * 2 ^ 0) (2 ^ 0))
      by (rewrite Z.pow_0_r, Z.mul_1_r; reflexivity).
    by rewrite (int_of_round64 false v 0) by lia.
  - rewrite (parse_heat_value_matched _ (c :: ds) (Some WAN));
      [|rewrite Hs2; discriminate|by rewrite Hs2].
    rewrite Hf. simpl rbind.
    change (FFin false 10000 0) with (FFin false (Z.to_N 10000) 0).
    by rewrite (int_of_float_mul v 10000) by lia.
  - rewrite (parse_heat_value_matched _ (c :: ds) (Some YI));
      [|rewrite Hs3; discriminate|by rewrite Hs3].
    rewrite Hf. simpl rbind.
    change (FFin false 100000000 0) with (FFin false (Z.to_N 100000000) 0).
    by rewrite (int_of_float_mul v 100000000) by lia.
Qed.

Lemma heat_counts_are_exact_witness :
  @_parse_heat_value example_runtime (PStr (lit "23" ++ repeat 32%N 1 ++ [WAN]))
  = Ok (Some 230000).
Proof.
  destruct (@heat_counts_are_exact example_runtime 50%N [51%N] 1%nat)
    as (_ & Hwan & _).
  - repeat constructor.
  - apply Hwan. vm_compute. reflexivity.
Defined.

(* ===================================================================== *)
(** * _safe_q                                                             *)
(* ===================================================================== *)

(** A property checked on every number below a bound holds below it. *)
Lemma below_bound (P : N -> bool) (b : nat) :
  forallb (fun k => P (N.of_nat k)) (List.seq 0%nat b) = true ->
  forall n, (n < N.of_nat b)%N -> P n = true.
Proof.
  intros Hall n Hn. rewrite List.forallb_forall in Hall.
  specialize (Hall (N.to_nat n)). rewrite N2Nat.id in Hall.
  apply Hall, List.in_seq. lia.
Qed.

Lemma hex_digit_safe n : (n < 16)%N -> always_safe (hex_digit n) = true.
Proof.
  apply (below_bound (fun n => always_safe (hex_digit n)) 16).
  vm_compute. reflexivity.
Qed.

Lemma quote_byte_url_safe b : (b < 256)%N -> Forall url_safe (quote_byte b).
Proof.
  intros Hb. unfold quote_byte.
  destruct (always_safe b) eqn:Hs.
  - constructor; [by left|constructor].
  - constructor; [by right|].
    constructor; [left; apply hex_digit_safe|].
    + apply N.Div0.div_lt_upper_bound. lia.
    + constructor; [|constructor]. left. apply hex_digit_safe.
      apply N.mod_lt. lia.
Qed.

Lemma utf8_bytes c bs :
  utf8_encode_char c = Ok bs -> Forall (fun b => (b < 256)%N) bs.
Proof.
  unfold utf8_encode_char.
  assert (Hm : forall x, (128 + x mod 64 < 256)%N).
  { intros x. pose proof (N.mod_lt x 64). lia. }
  destruct (N.ltb_spec c 128); [intros [= <-]; repeat constructor; lia|].
  destruct (N.ltb_spec c 2048).
  { intros [= <-]. repeat constructor; [|apply Hm].
    assert (c / 64 < 32)%N by (apply N.Div0.div_lt_upper_bound; lia). lia. }
  destruct ((55296 <=? c) && (c <=? 57343))%N; [discriminate|].
  destruct (N.ltb_spec c 65536).
  { intros [= <-]. repeat constructor; try apply Hm.
    assert (c / 4096 < 16)%N by (apply N.Div0.div_lt_upper_bound; lia). lia. }
  destruct (N.ltb_spec c 1114112); [|discriminate].
  intros [= <-]. repeat constructor; try apply Hm.
  assert (c / 262144 < 8)%N by (apply N.Div0.div_lt_upper_bound; lia). lia.
Qed.

Lemma str_encode_bytes s bs :
  str_encode_utf8 s = Ok bs -> Forall (fun b => (b < 256)%N) bs.
Proof.
  revert bs. induction s as [|c s IH]; simpl; intros bs Hs.
  - injection Hs as <-. constructor.
  - destruct (utf8_encode_char c) as [b1|] eqn:Hc; [|discriminate]. simpl in Hs.
    destruct (str_encode_utf8 s) as [b2|]; [|discriminate]. simpl in Hs.
    injection Hs as <-. apply Forall_app. split; [by eapply utf8_bytes|by apply IH].
Qed.

Lemma always_safe_ascii c : always_safe c = true -> (c < 128)%N.
Proof.
  unfold always_safe. rewrite !orb_true_iff, !andb_true_iff.
  rewrite !N.leb_le, !N.eqb_eq. lia.
Qed.

Lemma quote_of_safe s :
  Forall (fun c => always_safe c = true) s -> quote_none_safe s = Ok s.
Proof.
  intros Hall. unfold quote_none_safe.
  destruct s as [|c0 s0]; [reflexivity|]. cbn [is_nil].
  assert (Henc : str_encode_utf8 (c0 :: s0) = Ok (c0 :: s0)
                 /\ flat_map quote_byte (c0 :: s0) = c0 :: s0).
  { induction Hall as [|c s Hc Hall IH]; [done|].
    destruct IH as [IH1 IH2]. split.
    - simpl. unfold utf8_encode_char.
      destruct (N.ltb_spec c 128) as [_|Hge];
        [|apply always_safe_ascii in Hc; lia].
      simpl. by rewrite IH1.
    - simpl. unfold quote_byte at 1. rewrite Hc. simpl. by rewrite IH2. }
  destruct Henc as [He Hf]. rewrite He.
  change (Ok (flat_map quote_byte (c0 :: s0)) = Ok (c0 :: s0)).
  by rewrite Hf.
Qed.

Lemma quote_url_safe s q : quote_none_safe s = Ok q -> Forall url_safe q.
Proof.
  unfold quote_none_safe. destruct s as [|c s]; [intros [= <-]; constructor|].
  cbn [is_nil].
  destruct (str_encode_utf8 (c :: s)) as [bs|] eqn:He; [|discriminate].
  simpl. intros [= <-].
  apply str_encode_bytes in He.
  induction He as [|b bs Hb He IH]; simpl; [constructor|].
  apply Forall_app. split; [by apply quote_byte_url_safe|exact IH].
Qed.

Lemma py_or_str s : py_or (PStr s) (PStr []) = PStr s.
Proof. by destruct s. Qed.

(** X17. [_safe_q] does not escape twice: applied to a string, it gives a
    string that it returns unchanged when applied again. And when the word
    has no [%], the result is made of letters, digits, [_.-~] and [%]
    only. *)
Theorem safe_q_is_idempotent :
  forall (w : pystr) (q : PyVal),
    _safe_q (PStr w) = Ok q ->
    exists s, q = PStr s /\ _safe_q q = Ok q
              /\ (PERCENT ∉ w -> Forall url_safe s).
Proof.
  intros w q Hq. unfold _safe_q in Hq. rewrite py_or_str in Hq. simpl in Hq.
  case_bool_decide as Hin.
  - injection Hq as <-. exists w. split; [reflexivity|]. split; [|contradiction].
    unfold _safe_q. rewrite py_or_str. simpl. by rewrite bool_decide_eq_true_2.
  - destruct (quote_none_safe w) as [s|e] eqn:Hs; [|discriminate].
    simpl in Hq. injection Hq as <-.
    pose proof (quote_url_safe _ _ Hs) as Hsafe.
    exists s. split; [reflexivity|]. split; [|intros _; exact Hsafe].
    unfold _safe_q. rewrite py_or_str. simpl.
    case_bool_decide as Hin'; [reflexivity|].
    rewrite quote_of_safe; [reflexivity|].
    apply Forall_forall. intros c Hc.
    destruct (proj1 (Forall_forall _ _) Hsafe c Hc) as [Hs' | ->];
      [exact Hs'|contradiction].
Qed.

Lemma safe_q_is_idempotent_witness :
  _safe_q (PStr (lit "a b")) = Ok (PStr (lit "a%20b"))
  /\ exists s, PStr (lit "a%20b") = PStr s
               /\ _safe_q (PStr (lit "a%20b")) = Ok (PStr (lit "a%20b"))
               /\ (PERCENT ∉ lit "a b" -> Forall url_safe s).
Proof.
  split; [vm_compute; reflexivity|].
  apply (safe_q_is_idempotent (lit "a b")). vm_compute; reflexivity.
Defined.

(* ===================================================================== *)
(** * From the weibo reply to the table                                   *)
(* ===================================================================== *)

Lemma weibo_record_fields title url ht hv sa ws :
  let rec := weibo_record title url ht hv sa ws in
  dict_get rec (lit "title") = title
  /\ dict_get rec (lit "url") = url
  /\ dict_get rec (lit "scraped_at") = sa
  /\ dict_get_default rec (lit "heat_value") (dict_get rec (lit "num")) = hv
  /\ dict_get rec (lit "rank") = PNone
  /\ dict_get rec (lit "word_scheme") = ws
  /\ dict_get rec (lit "image_url") = PNone
  /\ dict_get rec (lit "excerpt") = PNone
  /\ dict_get rec (lit "heat_text") = ht
  /\ collect_extra rec [lit "word_scheme"] = [(lit "word_scheme", ws)].
Proof. repeat split; vm_compute; reflexivity. Qed.

Lemma Ok_inj {A} (a b : A) : Ok a = Ok b -> a = b.
Proof. by intros [= ->]. Qed.

Lemma py_or_idem a : py_or (py_or a (PStr [])) (PStr []) = py_or a (PStr []).
Proof. unfold py_or. destruct (truthy a) eqn:Ha; [by rewrite Ha|reflexivity]. Qed.

Lemma digit_char_not_isspace n : py_isspace (digit_char n) = false.
Proof.
  apply negb_true_iff. unfold digit_char.
  apply (below_bound (fun m => negb (py_isspace (48 + m))) 10);
    [vm_compute; reflexivity|].
  apply N.mod_lt. discriminate.
Qed.

Lemma strip_strftime now : py_strip (strftime now) = strftime now.
Proof.
  unfold strftime, strftime_date, strftime_time, four_digits, two_digits.
  cbn [app]. apply py_strip_ends; [apply digit_char_not_isspace|].
  intros y l Hr. cbn [rev app] in Hr. injection Hr as <- _.
  apply digit_char_not_isspace.
Qed.

Lemma strip_weibo_url q :
  py_strip (WEIBO_SEARCH ++ q ++ WEIBO_SEARCH_END)
  = WEIBO_SEARCH ++ q ++ WEIBO_SEARCH_END.
Proof.
  assert (Hs : WEIBO_SEARCH = 104%N :: tl WEIBO_SEARCH) by reflexivity.
  assert (He : rev WEIBO_SEARCH_END = 49%N :: tl (rev WEIBO_SEARCH_END))
    by reflexivity.
  rewrite Hs at 1 2. rewrite <- !app_comm_cons.
  apply py_strip_ends; [reflexivity|].
  intros y l Hr. rewrite app_comm_cons, <- Hs, !rev_app_distr, He in Hr.
  rewrite <- !app_comm_cons in Hr. by injection Hr as <- _.
Qed.

Lemma as_int_opt_int_val hv : _as_int (opt_int_val hv) = Ok hv.
Proof. by destruct hv. Qed.

(** What [upsert_history] makes of a record of [parse_items]. *)
Lemma normalize_weibo_record `{Runtime} t title q ht hv now ws :
  normalize_weibo t
    (weibo_record (py_or title (PStr []))
       (PStr (WEIBO_SEARCH ++ q ++ WEIBO_SEARCH_END)) ht (opt_int_val hv)
       (PStr (strftime now)) ws)
  = match strip_method (py_or title (PStr [])) with
    | Raise e => Raise e
    | Ok [] => Ok None
    | Ok s =>
        Ok (Some {| p_platform := lit "weibo"; p_topic_key := ws; p_title := s;
                    p_url := WEIBO_SEARCH ++ q ++ WEIBO_SEARCH_END;
                    p_image_url := PNone; p_excerpt := PNone; p_heat_text := ht;
                    p_heat_value := hv; p_rank := None; p_tags_text := None;
                    p_scraped_at := strftime now;
                    p_scraped_date := strftime_date now;
                    p_extra_json := Some (json_dumps [(lit "word_scheme", ws)]) |})
    end.
Proof.
  destruct (weibo_record_fields (py_or title (PStr []))
              (PStr (WEIBO_SEARCH ++ q ++ WEIBO_SEARCH_END)) ht (opt_int_val hv)
              (PStr (strftime now)) ws)
    as (F1 & F2 & F3 & F4 & F5 & F6 & F7 & F8 & F9 & F10).
  unfold normalize_weibo, normalize_item, stripped_field.
  rewrite F1, F2, F3, F4, F5, F7, F8, F9, F10, py_or_idem.
  destruct (strip_method (py_or title (PStr []))) as [s|e]; [|reflexivity].
  cbn [rbind]. rewrite !py_or_str. cbn [strip_method rbind].
  rewrite strip_weibo_url, strip_strftime, as_int_opt_int_val.
  replace (is_nil (WEIBO_SEARCH ++ q ++ WEIBO_SEARCH_END)) with false by reflexivity.
  replace (is_nil (strftime now)) with false by reflexivity.
  rewrite strftime_split.
  destruct s as [|c s]; [reflexivity|].
  cbn [is_nil orb rbind]. change (_as_int PNone) with (@Ok (option Z) None).
  cbn [rbind is_nil]. do 2 f_equal. all: f_equal; exact F6.
Qed.

(** X21. From the weibo reply to the table. When [parse_items] returns,
    it returns one record per entry, in order, and what [upsert_history]
    makes of the record depends on the entry's note alone: a note that is
    not a string makes the write raise, a blank note makes it skip the
    record, and any other note is stored, trimmed, with the time and the
    day of the scrape, no rank, the entry's word_scheme as topic key, and
    the heat value that [_parse_heat_value] gave for the entry's num. *)
Theorem weibo_records_reach_the_table `{Runtime} :
  forall (now : DateTime) (realtime out : list (gmap pystr PyVal)),
    parse_items now realtime = Ok out ->
    Forall2 (fun it rec => forall t,
      match strip_method (get_or_empty it (lit "note")) with
      | Raise e => normalize_weibo t rec = Raise e
      | Ok [] => normalize_weibo t rec = Ok None
      | Ok title =>
          exists p, normalize_weibo t rec = Ok (Some p)
            /\ p_title p = title
            /\ p_scraped_at p = strftime now
            /\ p_scraped_date p = strftime_date now
            /\ p_rank p = None
            /\ p_topic_key p = get_or_empty it (lit "word_scheme")
            /\ _parse_heat_value (dict_get_default it (lit "num") (PStr []))
               = Ok (p_heat_value p)
      end) realtime out.
Proof.
  intros now realtime. unfold parse_items.
  induction realtime as [|it realtime IH]; simpl; intros out Hout.
  - injection Hout as <-. constructor.
  - destruct (parse_item (strftime now) it) as [rec|e] eqn:Hrec; [|discriminate].
    simpl in Hout.
    destruct (parse_items_from (strftime now) realtime) as [rest|e] eqn:Hrest;
      [|discriminate].
    simpl in Hout. injection Hout as <-.
    constructor; [|by apply IH].
    intros t. unfold parse_item in Hrec.
    destruct (_parse_heat_value (dict_get_default it (lit "num") (PStr [])))
      as [hv|e] eqn:Hhv; [|discriminate]. cbn [rbind] in Hrec.
    destruct (_safe_q (get_or_empty it (lit "word_scheme"))) as [q|e];
      [|discriminate]. cbn [rbind] in Hrec. apply Ok_inj in Hrec. subst rec.
    unfold get_or_empty. rewrite normalize_weibo_record.
    destruct (strip_method _) as [[|c s]|e]; try reflexivity.
    eexists. split; [reflexivity|]. simpl. repeat split.
Qed.

Lemma weibo_records_reach_the_table_witness :
  exists rec p,
    @parse_items example_runtime (example_clock 0) [weibo_entry] = Ok [rec]
    /\ @normalize_weibo example_runtime (example_clock 0) rec = Ok (Some p)
    /\ p_title p = lit "topic"
    /\ p_scraped_date p = lit "2025-01-02"
    /\ p_heat_value p = Some 1234567.
Proof.
  destruct (@parse_items example_runtime (example_clock 0) [weibo_entry])
    as [out|e] eqn:Hp; [|vm_compute in Hp; discriminate].
  pose proof (@weibo_records_reach_the_table example_runtime _ _ _ Hp) as Hall.
  inversion Hall as [|it rec l l' Hrec Hrest]; subst.
  inversion Hrest; subst.
  specialize (Hrec (example_clock 0)).
  assert (Hs : strip_method (get_or_empty weibo_entry (lit "note"))
               = Ok (lit "topic")) by (vm_compute; reflexivity).
  rewrite Hs in Hrec.
  destruct Hrec as (p & Hn & Ht & _ & Hd & _ & _ & Hv).
  exists rec, p. repeat split; try assumption.
  vm_compute in Hv. injection Hv as Hv. exact (eq_sym Hv).
Defined.

(* ===================================================================== *)
(** * A scrape cycle                                                      *)
(* ===================================================================== *)

Lemma upsert_history_count `{Engine} pf items tkf tjf ef clock c c' n :
  upsert_history pf items tkf tjf ef clock c = (c', Ok n) -> 0 <= n.
Proof.
  intros Hu.
  destruct (upsert_history_cases pf items tkf tjf ef clock c)
    as [(e & _ & He)|[(_ & He)|[(ps & c1 & e & _ & _ & _ & He)
                               |(ps & c1 & m & _ & _ & Hm & He)]]];
    rewrite He in Hu; try discriminate.
  - injection Hu as _ <-. lia.
  - injection Hu as _ <-. apply executemany_Ok in Hm as (_ & _ & _ & _ & ->). lia.
Qed.

(** The loop of [run_once] is a run of [upsert_history] calls on its
    connection, and its total never decreases. *)
Lemma run_providers_calls `{Engine} w names :
  forall i c total,
    exists ks, (run_providers w i names c total).1 = run_calls ks c
               /\ total <= (run_providers w i names c total).2.
Proof.
  induction names as [|name names IH]; intros i c total; simpl.
  - exists []. split; [reflexivity|lia].
  - case_bool_decide as Hreg; [|apply IH].
    destruct (spider_run w i (str_lower w name)) as [items|e]; [|apply IH].
    destruct items as [|it items]; [apply IH|]. cbn [is_nil].
    destruct (platform_fields (str_lower w name)) as [tkf ef].
    destruct (upsert_history (str_lower w name) (it :: items) tkf None (Some ef)
                (wall_clock w i) c) as [c' r] eqn:Hu.
    set (k := {| call_platform := str_lower w name; call_items := it :: items;
                 call_topic_key_field := tkf; call_tags_join_from := None;
                 call_extra_fields := Some ef; call_clock := wall_clock w i |}).
    assert (Hk : (do_call k c).1 = c') by (unfold do_call, k; simpl; by rewrite Hu).
    destruct r as [n|e].
    + destruct (IH (S i) c' (total + n)) as (ks & Hks & Ht).
      exists (k :: ks). split.
      * rewrite Hks. unfold run_calls. simpl. by rewrite Hk.
      * apply upsert_history_count in Hu. lia.
    + destruct (IH (S i) c' total) as (ks & Hks & Ht).
      exists (k :: ks). split; [|exact Ht].
      rewrite Hks. unfold run_calls. simpl. by rewrite Hk.
Qed.

Lemma run_calls_keeps `{Engine} ks :
  forall c, keeps_rows (durable c) (view c) ->
            keeps_rows (durable c) (durable (run_calls ks c)).
Proof.
  induction ks as [|k ks IH]; intros c Hdv; simpl; [apply keeps_rows_refl|].
  unfold run_calls in *. simpl. unfold do_call.
  destruct (upsert_history_keeps (call_platform k) (call_items k)
              (call_topic_key_field k) (call_tags_join_from k)
              (call_extra_fields k) (call_clock k) c Hdv) as (_ & Hd & Hdv').
  eapply keeps_rows_trans; [exact Hd|by apply IH].
Qed.

(** X18. A scrape cycle, whatever the adapters return or raise and
    whichever names it is given: a file with one row per (platform, url,
    scraped_date) and ascending ids is left so, every row it held is
    still there under its id and key, and the total reported is not
    negative. *)
Theorem scrape_cycle_preserves_history `{Engine} :
  forall (w : World) (file : Table) (provider_names : list pystr),
    unique_keys file -> ids_ascending file ->
    let '(file', total) := run_once w file provider_names in
    unique_keys file' /\ ids_ascending file' /\ keeps_rows file file'
    /\ 0 <= total.
Proof.
  intros w file names Hu Hi. unfold run_once.
  set (db := {| durable := file; view := file |}).
  destruct (run_providers_calls w names 0%nat db 0) as (ks & Hks & Ht).
  destruct (run_providers w 0 names db 0) as [c total]. simpl in *. subst c.
  split; [|split; [|split]].
  - by apply (run_calls_unique ks db).
  - apply (run_calls_table_invariant ids_ascending); try done.
    intros t ex. apply exec_upsert_ids.
  - apply (run_calls_keeps ks db). apply keeps_rows_refl.
  - exact Ht.
Qed.

Lemma scrape_cycle_preserves_history_witness :
  let '(file', total) :=
    @run_once example_engine example_world empty_table [lit "Baidu"; lit "x"] in
  unique_keys file' /\ ids_ascending file' /\ keeps_rows empty_table file'
  /\ 0 <= total.
Proof.
  apply (@scrape_cycle_preserves_history example_engine example_world
           empty_table [lit "Baidu"; lit "x"]).
  - constructor.
  - split; constructor.
Defined.

(* ===================================================================== *)
(** * The provider list                                                   *)
(* ===================================================================== *)

Lemma split_comma_pieces s : Forall (fun p => COMMA ∉ p) (split_comma s).
Proof.
  induction s as [|c s IH]; simpl.
  - repeat constructor. by intros ?%elem_of_nil.
  - destruct (N.eqb_spec c 44) as [->|Hc].
    + constructor; [by intros ?%elem_of_nil|exact IH].
    + destruct (split_comma s) as [|h t].
      * repeat constructor. intros Hin%list_elem_of_singleton. by apply Hc.
      * apply Forall_cons in IH as [Hh Ht]. constructor; [|exact Ht].
        intros [?|?]%elem_of_cons; [by apply Hc|by apply Hh].
Qed.

Lemma drop_while_elem {A} (p : A -> bool) l x : x ∈ drop_while p l -> x ∈ l.
Proof.
  intros Hx. destruct (drop_while_suffix p l) as [pre Hpre].
  rewrite Hpre. apply elem_of_app. by right.
Qed.

Lemma py_strip_elem s x : x ∈ py_strip s -> x ∈ s.
Proof.
  unfold py_strip. intros Hx.
  apply list_elem_of_In, List.in_rev, list_elem_of_In in Hx.
  apply drop_while_elem in Hx.
  apply list_elem_of_In, List.in_rev, list_elem_of_In in Hx.
  by apply drop_while_elem in Hx.
Qed.

(** X19. The provider list [main] builds from the command line holds no
    empty name, and every name in it is trimmed and has no comma. *)
Theorem provider_list_is_clean :
  forall (providers : pystr), Forall clean_name (provider_list providers).
Proof.
  intros s. unfold provider_list. apply List.Forall_forall. intros p Hp.
  apply List.in_map_iff in Hp as (q & <- & Hq).
  apply List.filter_In in Hq as [Hq Hne].
  split; [|split].
  - intros Hnil. rewrite Hnil in Hne. discriminate.
  - apply py_strip_idempotent.
  - intros Hc%py_strip_elem.
    pose proof (split_comma_pieces s) as Hall.
    rewrite List.Forall_forall in Hall. by apply (Hall q Hq).
Qed.

Lemma split_comma_whole p : COMMA ∉ p -> split_comma p = [p].
Proof.
  induction p as [|c p IH]; simpl; intros Hc; [reflexivity|].
  destruct (N.eqb_spec c 44) as [->|_].
  - exfalso. apply Hc. apply list_elem_of_here.
  - rewrite IH; [reflexivity|]. intros Hin. apply Hc. by apply list_elem_of_further.
Qed.

Lemma split_comma_app p s :
  COMMA ∉ p -> split_comma (p ++ COMMA :: s) = p :: split_comma s.
Proof.
  induction p as [|c p IH]; simpl; intros Hc; [reflexivity|].
  destruct (N.eqb_spec c 44) as [->|_].
  - exfalso. apply Hc. apply list_elem_of_here.
  - rewrite IH; [reflexivity|]. intros Hin. apply Hc. by apply list_elem_of_further.
Qed.

Lemma split_join_comma p names :
  Forall (fun q => COMMA ∉ q) (p :: names) ->
  split_comma (join_comma (p :: names)) = p :: names.
Proof.
  revert p. induction names as [|q names IH]; intros p Hall.
  - apply Forall_cons in Hall as [Hp _]. by apply split_comma_whole.
  - apply Forall_cons in Hall as [Hp Hall].
    change (join_comma (p :: q :: names)) with (p ++ COMMA :: join_comma (q :: names)).
    rewrite split_comma_app by exact Hp. f_equal. by apply IH.
Qed.

(** X20. Round trip of the provider list: names that are non-empty,
    trimmed and comma-free, joined with commas, are read back as they
    were, in their order. *)
Theorem provider_list_of_joined_names :
  forall (names : list pystr),
    Forall clean_name names -> provider_list (join_comma names) = names.
Proof.
  intros names Hall. unfold provider_list.
  destruct names as [|p names]; [reflexivity|].
  rewrite split_join_comma.
  2:{ eapply Forall_impl; [exact Hall|]. by intros q (_ & _ & Hq). }
  induction Hall as [|q l (Hne & Hs & _) Hall IH]; [reflexivity|].
  simpl. rewrite Hs. destruct q as [|c q]; [done|]. simpl. rewrite Hs.
  f_equal. exact IH.
Qed.

Lemma provider_list_of_joined_names_witness :
  provider_list (lit "zhihu,weibo") = [lit "zhihu"; lit "weibo"].
Proof.
  apply (provider_list_of_joined_names [lit "zhihu"; lit "weibo"]).
  repeat constructor; try (vm_compute; reflexivity); try discriminate;
    vm_compute; intros Hin; repeat (apply elem_of_cons in Hin as [Hin|Hin]; [discriminate|]);
    by apply elem_of_nil in Hin.
Defined.
